(** * Monkey: a shallow embedding of the lexer, the object model and the
  tree-walking evaluator of ajwerner/monkey, with the properties of its
  specification stated and settled against the code.

  Layout: one module per Go package ([token], [ast], [object], [lexer],
  [evaluator], [vm]); definitions first, theorems last. *)

From Stdlib Require Import ZArith List Bool Lia Floats.SpecFloat.
From stdpp Require Import base option list strings gmap.

Set Warnings "-register-all".

Local Open Scope Z_scope.
Local Open Scope string_scope.

(** ** Host-language (Go) primitives *)

Module golang.

(** [int64] arithmetic wraps around (two's complement). *)
Definition int64_wrap (z : Z) : Z := (z + 2 ^ 63) mod 2 ^ 64 - 2 ^ 63.

(** [float64] values, as IEEE-754 binary64. *)
Definition float64 : Type := spec_float.
Definition prec : Z := 53.
Definition emax : Z := 1024.

Definition float_add : float64 -> float64 -> float64 := SFadd prec emax.
Definition float_sub : float64 -> float64 -> float64 := SFsub prec emax.
Definition float_mul : float64 -> float64 -> float64 := SFmul prec emax.
Definition float_div : float64 -> float64 -> float64 := SFdiv prec emax.
Definition float_neg : float64 -> float64 := SFopp.
Definition float_ltb : float64 -> float64 -> bool := SFltb.
Definition float_eqb : float64 -> float64 -> bool := SFeqb.

(** The conversion [float64(i)] of an [int64], rounding to nearest even. *)
Definition float_of_int64 (i : Z) : float64 := binary_normalize prec emax i 0 false.

(** What a computation of the host language ends in: a value, a run-time
    panic carrying its message, or no answer within the recursion budget. *)
Inductive outcome (A : Type) : Type :=
| Ret (a : A)
| Panic (r : string)
| Diverge.
Arguments Ret {A} a.
Arguments Panic {A} r.
Arguments Diverge {A}.

(** [fmt.Sprintf("%d", i)]. *)
Fixpoint pos_digits (fuel : nat) (p : positive) (acc : string) : string :=
  match fuel with
  | O => acc
  | S fuel' =>
      let d := Z.to_nat (Z.pos p mod 10) in
      let acc' := String (Ascii.ascii_of_nat (48 + d)) acc in
      match Z.pos p / 10 with
      | Z.pos q => pos_digits fuel' q acc'
      | _ => acc'
      end
  end.

Definition format_int (z : Z) : string :=
  match z with
  | Z0 => "0"
  | Z.pos p => pos_digits (Pos.to_nat (Pos.size p)) p ""
  | Z.neg p => "-" +:+ pos_digits (Pos.to_nat (Pos.size p)) p ""
  end.

(** [fmt.Sprintf("%t", b)]. *)
Definition format_bool (b : bool) : string := if b then "true" else "false".

Definition nil_dereference : string :=
  "runtime error: invalid memory address or nil pointer dereference".
Definition divide_by_zero : string := "runtime error: integer divide by zero".
Definition index_out_of_range (index len : nat) : string :=
  "runtime error: index out of range [" +:+ format_int (Z.of_nat index)
  +:+ "] with length " +:+ format_int (Z.of_nat len).
Definition unhashable_type (t : string) : string :=
  "runtime error: hash of unhashable type " +:+ t.
Definition uncomparable_type (t : string) : string :=
  "runtime error: comparing uncomparable type " +:+ t.

End golang.

(** ** Package token *)

Module token.

(** Modelled from the spec: the token kinds and the keyword table (package
    [token] is not among the sources), from the data model of the
    specification. *)
Inductive TokenType : Type :=
| ILLEGAL | EOF | IDENT | INT | FLOAT | STRING
| ASSIGN | PLUS | MINUS | BANG | STAR | SLASH | LT | GT | EQ | NEQ
| COMMA | SEMICOLON | COLON | LPAREN | RPAREN | LBRACE | RBRACE
| LBRACKET | RBRACKET
| FUNCTION | LET | TRUE | FALSE | IF | ELSE | RETURN.

Record Token : Type := mkToken { Type_ : TokenType; Literal : string }.

(** The zero value [token.Token{}]. *)
Definition zero : Token := mkToken ILLEGAL "".

Definition LookupIdent (ident : string) : TokenType :=
  if String.eqb ident "fn" then FUNCTION
  else if String.eqb ident "let" then LET
  else if String.eqb ident "true" then TRUE
  else if String.eqb ident "false" then FALSE
  else if String.eqb ident "if" then IF
  else if String.eqb ident "else" then ELSE
  else if String.eqb ident "return" then RETURN
  else IDENT.

End token.

(** ** Package lexer *)

Module lexer.

(** A rune is a code point. *)
Definition rune : Type := Z.

Definition RuneError : rune := 65533.

Definition byte_at (s : string) (i : nat) : option Z :=
  match String.get i s with
  | Some c => Some (Z.of_nat (Ascii.nat_of_ascii c))
  | None => None
  end.

Definition is_cont (b : Z) : bool := Z.leb 128 b && Z.leb b 191.

(** [utf8.DecodeRuneInString(s[i:])]: the rune and its width in bytes;
    [(RuneError, 0)] on the empty string and [(RuneError, 1)] on an invalid
    encoding. *)
Definition DecodeRuneInString (s : string) (i : nat) : rune * nat :=
  match byte_at s i with
  | None => (RuneError, 0%nat)
  | Some b0 =>
      if Z.ltb b0 128 then (b0, 1%nat)
      else
        match byte_at s (i + 1) with
        | None => (RuneError, 1%nat)
        | Some b1 =>
            if Z.leb 194 b0 && Z.leb b0 223 then
              if is_cont b1 then ((b0 - 192) * 64 + (b1 - 128), 2%nat)
              else (RuneError, 1%nat)
            else
              let lo := if Z.eqb b0 224 then 160 else if Z.eqb b0 240 then 144 else 128 in
              let hi := if Z.eqb b0 237 then 159 else if Z.eqb b0 244 then 143 else 191 in
              if negb (Z.leb lo b1 && Z.leb b1 hi) then (RuneError, 1%nat)
              else
                match byte_at s (i + 2) with
                | None => (RuneError, 1%nat)
                | Some b2 =>
                    if negb (is_cont b2) then (RuneError, 1%nat)
                    else if Z.leb 224 b0 && Z.leb b0 239 then
                      ((b0 - 224) * 4096 + (b1 - 128) * 64 + (b2 - 128), 3%nat)
                    else if Z.leb 240 b0 && Z.leb b0 244 then
                      match byte_at s (i + 3) with
                      | None => (RuneError, 1%nat)
                      | Some b3 =>
                          if is_cont b3 then
                            ((b0 - 240) * 262144 + (b1 - 128) * 4096
                             + (b2 - 128) * 64 + (b3 - 128), 4%nat)
                          else (RuneError, 1%nat)
                      end
                    else (RuneError, 1%nat)
                end
        end
  end.

(** [s[lo:hi]]. *)
Definition slice (s : string) (lo hi : nat) : string :=
  String.substring lo (hi - lo) s.

Record state : Type := mkState {
  input : string;
  tokPos : nat;
  rune_ : rune;
  runeSize : nat;
  runePos : nat;
  peeked : bool;
  peekRune : rune;
  peekSize : nat;
  readPos : nat
}.

Definition initState (input : string) : state :=
  mkState input 0 0 0 0 false 0 0 0.

(** An [error] value: nil, or the message of the error. *)
Definition error : Type := option string.

Definition peek (s : state) : (rune * error) * state :=
  if peeked s then ((peekRune s, None), s)
  else if (String.length (input s) <=? readPos s)%nat then ((0, None), s)
  else
    let '(r, size) := DecodeRuneInString (input s) (readPos s) in
    let s' := mkState (input s) (tokPos s) (rune_ s) (runeSize s) (runePos s)
                true r size (readPos s) in
    if Z.eqb r RuneError then
      ((RuneError,
        Some ("failed to decode from utf8 at position "
              +:+ golang.format_int (Z.of_nat (readPos s)))), s')
    else ((r, None), s').

Definition readRune (s : state) : (rune * error) * state :=
  match peek s with
  | ((p, Some err), s1) => ((p, Some err), s1)
  | ((_, None), s1) =>
      peek (mkState (input s1) (tokPos s1) (peekRune s1) (peekSize s1)
              (readPos s1) false 0 0 (readPos s1 + peekSize s1))
  end.

Definition curLit (s : state) : string := slice (input s) (tokPos s) (readPos s).

Definition reset (s : state) : state :=
  mkState (input s) (readPos s) 0 0 (readPos s) (peeked s) (peekRune s)
    (peekSize s) (readPos s).

Section Unicode.

(** [unicode.IsDigit], [unicode.IsLetter] and [unicode.IsSpace]: the tables
    of the Go library. *)
Variable IsDigit IsLetter IsSpace : rune -> bool.

Definition isLetter (r : rune) : bool := IsLetter r || Z.eqb r 95.
Definition isDecimal (r : rune) : bool := IsDigit r.

(** [for err == nil && cond(next) { next, err = s.readRune() }]; every turn
    consumes at least one byte, so [fuel] above the input length is never
    exhausted. *)
Fixpoint readWhile (cond : rune -> bool) (fuel : nat) (next : rune)
    (err : error) (s : state) : (rune * error) * state :=
  match fuel with
  | O => ((next, err), s)
  | S fuel' =>
      match err with
      | Some _ => ((next, err), s)
      | None =>
          if cond next then
            let '((next', err'), s') := readRune s in
            readWhile cond fuel' next' err' s'
          else ((next, err), s)
      end
  end.

Definition loop_fuel (s : state) : nat := S (String.length (input s)).

Definition readDecimals (s : state) : (rune * error) * state :=
  let '((next, err), s1) := peek s in
  readWhile isDecimal (loop_fuel s) next err s1.

Definition readWhitespace (s : state) : (rune * error) * state :=
  let '((next, err), s1) := peek s in
  readWhile IsSpace (loop_fuel s) next err s1.

Definition skipWhitespace (s : state) : (rune * error) * state :=
  match readWhitespace s with
  | ((next, None), s1) => ((next, None), reset s1)
  | other => other
  end.

Definition lexResult : Type := (token.Token * error) * state.

Definition lexFunc : Type := state -> lexResult.

Definition failed (msg : string) (s : state) : lexResult :=
  ((token.zero, Some msg), s).

(** The block [if next == '.' { ... }] of [lexNumber]: an early return, or
    the token type, the next rune and the state after the block. *)
Definition lexNumber_fraction (typ : token.TokenType) (next : rune) (s : state)
  : lexResult + (token.TokenType * rune * state) :=
  if Z.eqb next 46 then
    let typ := token.FLOAT in
    match readRune s with
    | ((_, Some e), s) => inl ((token.zero, Some e), s)
    | ((next, None), s) =>
        if negb (isDecimal next) then
          inl (failed ("Illegal character '"
                       +:+ String (Ascii.ascii_of_nat (Z.to_nat next)) ""
                       +:+ "' after . at position "
                       +:+ golang.format_int (Z.of_nat (readPos s))) s)
        else
          match readDecimals s with
          | ((_, Some e), s) => inl ((token.zero, Some e), s)
          | ((next, None), s) => inr (typ, next, s)
          end
    end
  else inr (typ, next, s).

(** The block [if next == 'e' || next == 'E' { ... }] of [lexNumber]. *)
Definition lexNumber_exponent (typ : token.TokenType) (next : rune) (s : state)
  : lexResult + (token.TokenType * state) :=
  if Z.eqb next 101 || Z.eqb next 69 then
    let typ := token.FLOAT in
    match readRune s with
    | ((_, Some e), s) => inl ((token.zero, Some e), s)
    | ((next, None), s) =>
        let signed : lexResult + state :=
          if Z.eqb next 43 || Z.eqb next 45 then
            match readRune s with
            | ((_, Some e), s) => inl ((token.zero, Some e), s)
            | ((_, None), s) => inr s
            end
          else inr s in
        match signed with
        | inl early => inl early
        | inr s =>
            match readDecimals s with
            | ((_, Some e), s) => inl ((token.zero, Some e), s)
            | ((_, None), s) => inr (typ, s)
            end
        end
    end
  else inr (typ, s).

Definition lexNumber (s : state) : lexResult :=
  let '((next, _), s) := readDecimals s in
  let typ := token.INT in
  match lexNumber_fraction typ next s with
  | inl early => early
  | inr (typ, next, s) =>
      match lexNumber_exponent typ next s with
      | inl early => early
      | inr (typ, s) => ((token.mkToken typ (curLit s), None), s)
      end
  end.

Definition lexString (s : state) : lexResult :=
  (fix loop (fuel : nat) (s : state) : lexResult :=
     match fuel with
     | O => failed "" s
     | S fuel' =>
         match readRune s with
         | ((_, Some e), s) => ((token.zero, Some e), s)
         | ((next, None), s) =>
             if Z.eqb next 0 then
               failed ("unterminated string at position "
                       +:+ golang.format_int (Z.of_nat (tokPos s)) +:+ ":"
                       +:+ golang.format_int (Z.of_nat (readPos s))) s
             else if Z.eqb next 34 then
               match readRune s with
               | ((_, Some e), s) => ((token.zero, Some e), s)
               | ((_, None), s) =>
                   ((token.mkToken token.STRING
                       (slice (input s) (tokPos s + 1) (runePos s)), None), s)
               end
             else loop fuel' s
         end
     end) (loop_fuel s) s.

Definition lexIdentifier (s : state) : lexResult :=
  let '((next, err), s1) := peek s in
  match readWhile isLetter (loop_fuel s) next err s1 with
  | ((_, Some e), s) => ((token.zero, Some e), s)
  | ((_, None), s) =>
      ((token.mkToken (token.LookupIdent (curLit s)) (curLit s), None), s)
  end.

Definition lexDefault (s : state) : lexResult :=
  let '((next, _), s) := peek s in
  if isLetter next then lexIdentifier s
  else if Z.eqb next 46 || isDecimal next then lexNumber s
  else
    failed ("Illegal token " +:+ curLit s +:+ " at position "
            +:+ golang.format_int (Z.of_nat (tokPos s))) s.

Definition litTok (typ : token.TokenType) : lexFunc :=
  fun s => ((token.mkToken typ (curLit s), None), s).

Definition eat (f : lexFunc) : lexFunc :=
  fun s => let '(_, s) := readRune s in f s.

Definition nextTok (typ : token.TokenType) : lexFunc := eat (litTok typ).

Definition assign : lexFunc := litTok token.ASSIGN.
Definition bang : lexFunc := litTok token.BANG.
Definition eq : lexFunc := nextTok token.EQ.
Definition neq : lexFunc := nextTok token.NEQ.

(** After [=] or [!]: read it, then look at what follows. *)
Definition twoChar (two one : lexFunc) : lexFunc :=
  fun s =>
    match readRune s with
    | ((_, Some e), s) => ((token.zero, Some e), s)
    | ((next, None), s) => if Z.eqb next 61 then two s else one s
    end.

Definition lexFuncs (r : rune) : option lexFunc :=
  if Z.eqb r 43 then Some (nextTok token.PLUS)
  else if Z.eqb r 45 then Some (nextTok token.MINUS)
  else if Z.eqb r 47 then Some (nextTok token.SLASH)
  else if Z.eqb r 42 then Some (nextTok token.STAR)
  else if Z.eqb r 60 then Some (nextTok token.LT)
  else if Z.eqb r 62 then Some (nextTok token.GT)
  else if Z.eqb r 59 then Some (nextTok token.SEMICOLON)
  else if Z.eqb r 44 then Some (nextTok token.COMMA)
  else if Z.eqb r 40 then Some (nextTok token.LPAREN)
  else if Z.eqb r 41 then Some (nextTok token.RPAREN)
  else if Z.eqb r 123 then Some (nextTok token.LBRACE)
  else if Z.eqb r 125 then Some (nextTok token.RBRACE)
  else if Z.eqb r 91 then Some (nextTok token.LBRACKET)
  else if Z.eqb r 93 then Some (nextTok token.RBRACKET)
  else if Z.eqb r 58 then Some (nextTok token.COLON)
  else if Z.eqb r 34 then Some lexString
  else if Z.eqb r 0 then Some (fun s => ((token.mkToken token.EOF "", None), s))
  else if Z.eqb r 61 then Some (twoChar eq assign)
  else if Z.eqb r 33 then Some (twoChar neq bang)
  else None.

Definition lexNext (s : state) : lexResult :=
  match skipWhitespace s with
  | ((_, Some e), s) => ((token.zero, Some e), s)
  | ((next, None), s) =>
      match lexFuncs next with
      | Some f => f s
      | None => lexDefault s
      end
  end.

(** The [Lexer]: the current token, the error, and the state. *)
Record Lexer : Type := mkLexer { cur : token.Token; err : error; st : state }.

Definition New (input : string) : Lexer :=
  mkLexer token.zero None (initState input).

(** [Next]: the lexer after the call and the boolean it returns. *)
Definition Next (l : Lexer) : Lexer * bool :=
  match err l with
  | None =>
      match token.Type_ (cur l) with
      | token.EOF => (l, true)
      | _ =>
          let '((c, e), s) := lexNext (st l) in
          (mkLexer c e s, match e with Some _ => false | None => true end)
      end
  | Some _ => (l, false)
  end.

End Unicode.

(** The three predicates on the ASCII range. *)
Definition ascii_IsDigit (r : rune) : bool := Z.leb 48 r && Z.leb r 57.
Definition ascii_IsLetter (r : rune) : bool :=
  (Z.leb 65 r && Z.leb r 90) || (Z.leb 97 r && Z.leb r 122).
Definition ascii_IsSpace (r : rune) : bool :=
  (Z.leb 9 r && Z.leb r 13) || Z.eqb r 32.

End lexer.

(** ** Package ast *)

Module ast.

(** Modelled from the spec: the AST node declarations (package [ast] is not
    among the sources), following the data model of the specification and
    the fields the evaluator reads.  A block is a statement, as in the
    evaluator's type switch; a field of type [*BlockStatement] holds the
    statements of the block; the pairs of a hash literal are listed in the
    order in which the evaluator's loop visits them. *)
Inductive Expression : Type :=
| Identifier (Value : string)
| IntegerLiteral (Value : Z)
| FloatLiteral (Value : golang.float64)
| StringLiteral (Value : string)
| Bool (Value : bool)
| ArrayLiteral (Elements : list Expression)
| HashLiteral (Pairs : list (Expression * Expression))
| PrefixExpression (Operator : string) (Right : Expression)
| InfixExpression (Operator : string) (Left Right : Expression)
| IfExpression (Condition : Expression) (Consequence : list Statement)
    (Alternative : option (list Statement))
| FunctionLiteral (Parameters : list string) (Body : list Statement)
| CallExpression (Function : Expression) (Arguments : list Expression)
| IndexExpression (Left Index : Expression)
with Statement : Type :=
| LetStatement (Name : string) (Value : Expression)
| ReturnStatement (ReturnValue : Expression)
| ExpressionStatement (Expression : Expression)
| BlockStatement (Statements : list Statement).

Inductive Node : Type :=
| Program (Statements : list Statement)
| Stmt (s : Statement)
| Expr (e : Expression).

(** Induction over expressions and statements together, through the lists
    of statements and expressions they hold. *)
Section Induction.

Variable P : Expression -> Prop.
Variable Q : Statement -> Prop.

Hypothesis P_Identifier : forall v, P (Identifier v).
Hypothesis P_IntegerLiteral : forall v, P (IntegerLiteral v).
Hypothesis P_FloatLiteral : forall v, P (FloatLiteral v).
Hypothesis P_StringLiteral : forall v, P (StringLiteral v).
Hypothesis P_Bool : forall v, P (Bool v).
Hypothesis P_ArrayLiteral : forall elements, Forall P elements -> P (ArrayLiteral elements).
Hypothesis P_HashLiteral :
  forall pairs, Forall (fun kv => P (fst kv) /\ P (snd kv)) pairs -> P (HashLiteral pairs).
Hypothesis P_PrefixExpression : forall op r, P r -> P (PrefixExpression op r).
Hypothesis P_InfixExpression :
  forall op l r, P l -> P r -> P (InfixExpression op l r).
Hypothesis P_IfExpression :
  forall condition consequence alternative,
    P condition -> Forall Q consequence ->
    match alternative with Some alt => Forall Q alt | None => True end ->
    P (IfExpression condition consequence alternative).
Hypothesis P_FunctionLiteral :
  forall parameters body, Forall Q body -> P (FunctionLiteral parameters body).
Hypothesis P_CallExpression :
  forall f arguments, P f -> Forall P arguments -> P (CallExpression f arguments).
Hypothesis P_IndexExpression :
  forall l i, P l -> P i -> P (IndexExpression l i).
Hypothesis Q_LetStatement : forall name value, P value -> Q (LetStatement name value).
Hypothesis Q_ReturnStatement : forall value, P value -> Q (ReturnStatement value).
Hypothesis Q_ExpressionStatement : forall e, P e -> Q (ExpressionStatement e).
Hypothesis Q_BlockStatement : forall stmts, Forall Q stmts -> Q (BlockStatement stmts).

Fixpoint Expression_Statement_ind (e : Expression) : P e :=
  let expressions :=
    fix expressions (l : list Expression) : Forall P l :=
      match l with
      | nil => @List.Forall_nil _ P
      | cons x l' => @List.Forall_cons _ P x l' (Expression_Statement_ind x) (expressions l')
      end in
  let statements :=
    fix statements (l : list Statement) : Forall Q l :=
      match l with
      | nil => @List.Forall_nil _ Q
      | cons x l' => @List.Forall_cons _ Q x l' (Statement_Expression_ind x) (statements l')
      end in
  match e with
  | Identifier v => P_Identifier v
  | IntegerLiteral v => P_IntegerLiteral v
  | FloatLiteral v => P_FloatLiteral v
  | StringLiteral v => P_StringLiteral v
  | Bool v => P_Bool v
  | ArrayLiteral elements => P_ArrayLiteral elements (expressions elements)
  | HashLiteral pairs =>
      P_HashLiteral pairs
        ((fix pairs_ind (l : list (Expression * Expression))
            : Forall (fun kv => P (fst kv) /\ P (snd kv)) l :=
            match l with
            | nil => @List.Forall_nil _ _
            | cons (k, v) l' =>
                @List.Forall_cons _ (fun kv => P (fst kv) /\ P (snd kv)) (k, v) l'
                  (conj (Expression_Statement_ind k) (Expression_Statement_ind v))
                  (pairs_ind l')
            end) pairs)
  | PrefixExpression op r => P_PrefixExpression op r (Expression_Statement_ind r)
  | InfixExpression op l r =>
      P_InfixExpression op l r (Expression_Statement_ind l) (Expression_Statement_ind r)
  | IfExpression condition consequence alternative =>
      P_IfExpression condition consequence alternative
        (Expression_Statement_ind condition) (statements consequence)
        (match alternative as a
               return match a with Some alt => Forall Q alt | None => True end with
         | Some alt => statements alt
         | None => I
         end)
  | FunctionLiteral parameters body => P_FunctionLiteral parameters body (statements body)
  | CallExpression f arguments =>
      P_CallExpression f arguments (Expression_Statement_ind f) (expressions arguments)
  | IndexExpression l i =>
      P_IndexExpression l i (Expression_Statement_ind l) (Expression_Statement_ind i)
  end
with Statement_Expression_ind (s : Statement) : Q s :=
  let statements :=
    fix statements (l : list Statement) : Forall Q l :=
      match l with
      | nil => @List.Forall_nil _ Q
      | cons x l' => @List.Forall_cons _ Q x l' (Statement_Expression_ind x) (statements l')
      end in
  match s with
  | LetStatement name value => Q_LetStatement name value (Expression_Statement_ind value)
  | ReturnStatement value => Q_ReturnStatement value (Expression_Statement_ind value)
  | ExpressionStatement e => Q_ExpressionStatement e (Expression_Statement_ind e)
  | BlockStatement stmts => Q_BlockStatement stmts (statements stmts)
  end.

End Induction.

End ast.

(** ** Package object *)

Module object.

Inductive ObjectType : Type :=
| INTEGER | FLOAT | BOOL | NULL | ERROR | FUNCTION | STRING | BUILTIN
| ARRAY | HASH | RETURN_VALUE.

#[export] Instance ObjectType_eq_dec : EqDecision ObjectType.
Proof. solve_decision. Defined.

(** Modelled from the spec: the [String] method that [stringer] generates
    for [ObjectType] (the generated file is not among the sources); it
    prints the name of the constant. *)
Definition ObjectType_String (t : ObjectType) : string :=
  match t with
  | INTEGER => "INTEGER" | FLOAT => "FLOAT" | BOOL => "BOOL"
  | NULL => "NULL" | ERROR => "ERROR" | FUNCTION => "FUNCTION"
  | STRING => "STRING" | BUILTIN => "BUILTIN" | ARRAY => "ARRAY"
  | HASH => "HASH" | RETURN_VALUE => "RETURN_VALUE"
  end.

(** Addresses of heap-allocated things -- binding stores, and the cells
    behind [*Function] and [*Array] pointers -- are natural numbers. *)

(** [*Environment]: the struct is never written after
    [NewEnclosedEnvironment] returns, so a reference to it is the address
    of its [store] map together with its parent reference.  The map itself
    is mutable and lives in the heap ([stores] below): two references to
    one environment share it. *)
Inductive Environment : Type :=
| Env (store : nat) (parent : option Environment).

(** An [Object] interface value that is not nil; [option Object] is an
    interface value that may be nil. *)
Inductive Object : Type :=
| Integer (i : Z)
| Float (f : golang.float64)
| Bool (b : bool)
| Null
| Error (Err : string)
| Function (ptr : nat) (Parameters : list string) (Body : list ast.Statement)
    (env : Environment)
| String (s : string)
| Builtin (name : string)
| Array (ptr : nat) (elems : list (option Object))
| Hash (pairs : list (option Object * option Object))
| ReturnValue (Value : option Object).

Arguments Env store%_nat_scope parent.
Arguments Function ptr%_nat_scope Parameters%_list_scope Body%_list_scope env.
Arguments Array ptr%_nat_scope elems%_list_scope.

Definition Type_ (o : Object) : ObjectType :=
  match o with
  | Integer _ => INTEGER
  | Float _ => FLOAT
  | Bool _ => BOOL
  | Null => NULL
  | Error _ => ERROR
  | Function _ _ _ _ => FUNCTION
  | String _ => STRING
  | Builtin _ => BUILTIN
  | Array _ _ => ARRAY
  | Hash _ => HASH
  | ReturnValue _ => RETURN_VALUE
  end.

Definition Hashable (o : Object) : bool :=
  match Type_ o with
  | BOOL | STRING | INTEGER => true
  | _ => false
  end.

(** *** The heap and the monad of evaluation *)

(** The binding stores ([map[string]Object], one per environment, addressed
    by position) and the next free pointer for [*Function] and [*Array]. *)
Record Heap : Type := mkHeap {
  stores : list (gmap string (option Object));
  nextPtr : nat
}.

Arguments mkHeap stores%_list_scope nextPtr%_nat_scope.

Definition emptyHeap : Heap := mkHeap [] 0.

Definition M (A : Type) : Type := Heap -> golang.outcome A * Heap.

Definition ret {A} (a : A) : M A := fun h => (golang.Ret a, h).

Definition bind {A B} (m : M A) (k : A -> M B) : M B :=
  fun h =>
    match m h with
    | (golang.Ret a, h') => k a h'
    | (golang.Panic r, h') => (golang.Panic r, h')
    | (golang.Diverge, h') => (golang.Diverge, h')
    end.

Definition panic {A} (r : string) : M A := fun h => (golang.Panic r, h).

Definition diverge {A} : M A := fun h => (golang.Diverge, h).

Definition lift {A} (o : golang.outcome A) : M A := fun h => (o, h).

(** [defer func() { if r := recover(); r != nil { o = handler(r) } }()]. *)
Definition recover {A} (m : M A) (handler : string -> A) : M A :=
  fun h =>
    match m h with
    | (golang.Panic r, h') => (golang.Ret (handler r), h')
    | other => other
    end.

(** [&T{...}]: a fresh pointer. *)
Definition newPtr : M nat :=
  fun h => (golang.Ret (nextPtr h), mkHeap (stores h) (S (nextPtr h))).

(** *** Environments *)

Definition NewEnvironment : M Environment :=
  fun h =>
    (golang.Ret (Env (length (stores h)) None),
     mkHeap (stores h ++ [∅]) (nextPtr h)).

Definition NewEnclosedEnvironment (parent : Environment) : M Environment :=
  fun h =>
    (golang.Ret (Env (length (stores h)) (Some parent)),
     mkHeap (stores h ++ [∅]) (nextPtr h)).

(** [e.store[name]] in heap [h]: [None] when the key is absent. *)
Definition store_lookup (h : Heap) (l : nat) (name : string)
  : option (option Object) :=
  match stores h !! l with
  | Some st => st !! name
  | None => None
  end.

(** [Get]: [Some obj] is [(obj, true)], [None] is [(nil, false)]. *)
Fixpoint Get (h : Heap) (e : Environment) (name : string)
  : option (option Object) :=
  match e with
  | Env l parent =>
      match store_lookup h l name with
      | Some obj => Some obj
      | None =>
          match parent with
          | Some p => Get h p name
          | None => None
          end
      end
  end.

Definition Set_ (e : Environment) (name : string) (val : option Object)
  : M (option Object) :=
  fun h =>
    match e with
    | Env l _ =>
        (golang.Ret val,
         mkHeap (alter (fun st => <[name := val]> st) l (stores h)) (nextPtr h))
    end.

(** *** Inspect *)

(** A method call through an interface value: a nil interface panics. *)
Definition iface_call {A} (f : Object -> golang.outcome A) (x : option Object)
  : golang.outcome A :=
  match x with
  | Some o => f o
  | None => golang.Panic golang.nil_dereference
  end.

Section Inspect.

(** [fmt.Sprintf("%f", f)] and the [String] methods of package [ast], which
    are not among the sources. *)
Variable format_float : golang.float64 -> string.
Variable Identifier_String : string -> string.
Variable BlockStatement_String : list ast.Statement -> string.

Fixpoint join_params (i : nat) (ps : list string) (out : string) : string :=
  match ps with
  | [] => out
  | p :: ps' =>
      join_params (S i) ps'
        ((if (0 <? i)%nat then out +:+ ", " else out) +:+ Identifier_String p)
  end.

Fixpoint Inspect (o : Object) : golang.outcome string :=
  match o with
  | Integer i => golang.Ret (golang.format_int i)
  | Float f => golang.Ret (format_float f)
  | Bool b => golang.Ret (golang.format_bool b)
  | Null => golang.Ret "NULL"
  | Error e => golang.Ret e
  | Function _ params body _ =>
      golang.Ret (join_params 0 params "fn(" +:+ ") {" +:+ "
" +:+ BlockStatement_String body +:+ "
}")
  | String s => golang.Ret s
  | Builtin _ => golang.Ret "builtin function"
  | Array _ elems =>
      (fix loop (i : nat) (es : list (option Object)) (out : string)
         : golang.outcome string :=
         match es with
         | [] => golang.Ret (out +:+ "]")
         | e :: es' =>
             let out := if (0 <? i)%nat then out +:+ ", " else out in
             match iface_call Inspect e with
             | golang.Ret s => loop (S i) es' (out +:+ s)
             | other => other
             end
         end) 0%nat elems "["
  | Hash pairs =>
      (fix loop (kvs : list (option Object * option Object)) (out : string)
         : golang.outcome string :=
         match kvs with
         | [] => golang.Ret (out +:+ "}")
         | (k, v) :: kvs' =>
             match iface_call Inspect k with
             | golang.Ret ks =>
                 match iface_call Inspect v with
                 | golang.Ret vs => loop kvs' (out +:+ ks +:+ ": " +:+ vs)
                 | other => other
                 end
             | other => other
             end
         end) pairs "{"
  | ReturnValue v => iface_call Inspect v
  end.

(** A pair of a hash prints as [rendered]: its key, [": "], its value. *)
Definition renders (kv : option Object * option Object) (rendered : string) : Prop :=
  exists ks vs,
    iface_call Inspect kv.1 = golang.Ret ks
    /\ iface_call Inspect kv.2 = golang.Ret vs
    /\ rendered = ks +:+ ": " +:+ vs.

End Inspect.

(** The inspect string of a hash in the words of the specification: the
    rendered pairs, joined by [", "], between braces. *)
Definition Hash_Inspect_spec (rendered : list string) : string :=
  "{" +:+ String.concat ", " rendered +:+ "}".

End object.

(** ** Package evaluator *)

Module evaluator.
Import golang ast object.

Notation "x <- m ;; k" := (bind m (fun x => k))
  (at level 100, m at next level, right associativity).

Definition TRUE : Object := object.Bool true.
Definition FALSE : Object := object.Bool false.
Definition NULL : Object := object.Null.

Definition newError (msg : string) : Object := Error msg.

Definition isError (obj : option Object) : bool :=
  match obj with
  | Some o => bool_decide (Type_ o = ERROR)
  | None => false
  end.

(** [obj.Type()] on an interface value. *)
Definition TypeOf (obj : option Object) : outcome ObjectType :=
  iface_call (fun o => Ret (Type_ o)) obj.

(** *** Comparison of interface values and map keys *)

(** The name the Go run time prints for the dynamic type of an object. *)
Definition go_type_name (o : Object) : string :=
  match o with
  | Integer _ => "object.Integer"
  | Float _ => "object.Float"
  | object.Bool _ => "object.Bool"
  | Null => "object.Null"
  | Error _ => "object.Error"
  | Function _ _ _ _ => "*object.Function"
  | object.String _ => "object.String"
  | Builtin _ => "*object.Builtin"
  | Array _ _ => "*object.Array"
  | Hash _ => "object.Hash"
  | ReturnValue _ => "object.ReturnValue"
  end.

(** [left == right] on interface values: different dynamic types are
    unequal; pointers compare by address; a map type is not comparable and
    panics.  (Two [Error]s never meet here: every caller returns an [Error]
    before comparing; they are compared by message.) *)
Fixpoint go_eq (a b : Object) : outcome bool :=
  match a, b with
  | Integer i, Integer j => Ret (Z.eqb i j)
  | Float f, Float g => Ret (float_eqb f g)
  | object.Bool x, object.Bool y => Ret (eqb x y)
  | Null, Null => Ret true
  | Error x, Error y => Ret (String.eqb x y)
  | Function p _ _ _, Function q _ _ _ => Ret (Nat.eqb p q)
  | object.String s, object.String t => Ret (String.eqb s t)
  | Builtin m, Builtin n => Ret (String.eqb m n)
  | Array p _, Array q _ => Ret (Nat.eqb p q)
  | Hash _, Hash _ => Panic (uncomparable_type "object.Hash")
  | ReturnValue v, ReturnValue w =>
      match v, w with
      | Some x, Some y => go_eq x y
      | None, None => Ret true
      | _, _ => Ret false
      end
  | _, _ => Ret false
  end.

Definition iface_eq (a b : option Object) : outcome bool :=
  match a, b with
  | Some x, Some y => go_eq x y
  | None, None => Ret true
  | _, _ => Ret false
  end.

(** Whether the run time can hash a key: [None] when it can, the name of the
    offending type when it cannot. *)
Fixpoint unhashable (o : Object) : option string :=
  match o with
  | Hash _ => Some "object.Hash"
  | ReturnValue (Some v) => unhashable v
  | _ => None
  end.

(** [m[key] = value] on a [map[Object]Object], kept in insertion order. *)
Fixpoint map_update (m : list (option Object * option Object))
    (key value : option Object) : list (option Object * option Object) :=
  match m with
  | [] => [(key, value)]
  | (k, v) :: rest =>
      match iface_eq k key with
      | Ret true => (k, value) :: rest
      | _ => (k, v) :: map_update rest key value
      end
  end.

Definition map_assign (m : list (option Object * option Object))
    (key value : option Object)
  : outcome (list (option Object * option Object)) :=
  match key with
  | Some k =>
      match unhashable k with
      | Some t => Panic (unhashable_type t)
      | None => Ret (map_update m key value)
      end
  | None => Ret (map_update m key value)
  end.

(** [got, ok := m[key]]. *)
Fixpoint map_index (m : list (option Object * option Object))
    (key : option Object) : option (option Object) :=
  match m with
  | [] => None
  | (k, v) :: rest =>
      match iface_eq k key with
      | Ret true => Some v
      | _ => map_index rest key
      end
  end.

(** *** Operators *)

Definition evalBangOperatorExpression (right : option Object) : Object :=
  match right with
  | Some (object.Bool v) => object.Bool (negb v)
  | Some Null => TRUE
  | _ => FALSE
  end.

Definition evalMinusPrefixOperatorExpression (right : option Object)
  : outcome Object :=
  match right with
  | None => Panic nil_dereference
  | Some r =>
      match r with
      | Integer i => Ret (Integer (int64_wrap (-1 * i)))
      | _ => Ret (newError ("unknown operator: -" +:+ ObjectType_String (Type_ r)))
      end
  end.

Definition evalPrefixExpression (operator : string) (right : option Object)
  : outcome Object :=
  if String.eqb operator "!" then Ret (evalBangOperatorExpression right)
  else if String.eqb operator "-" then evalMinusPrefixOperatorExpression right
  else
    match right with
    | None => Panic nil_dereference
    | Some r =>
        Ret (newError ("unknown operator: " +:+ operator +:+ ObjectType_String (Type_ r)))
    end.

Definition unknown_operator (lt : ObjectType) (operator : string)
    (rt : ObjectType) : Object :=
  newError ("unknown operator: " +:+ ObjectType_String lt +:+ " " +:+ operator
            +:+ " " +:+ ObjectType_String rt).

Definition type_mismatch (lt : ObjectType) (operator : string)
    (rt : ObjectType) : Object :=
  newError ("type mismatch: " +:+ ObjectType_String lt +:+ " " +:+ operator
            +:+ " " +:+ ObjectType_String rt).

Definition evalStringInfixExpression (operator : string) (left right : string)
  : Object :=
  if negb (String.eqb operator "+") then unknown_operator STRING operator STRING
  else object.String (left +:+ right).

Definition evalIntegerInfixExpression (operator : string) (left right : Z)
  : outcome Object :=
  if String.eqb operator "+" then Ret (Integer (int64_wrap (left + right)))
  else if String.eqb operator "-" then Ret (Integer (int64_wrap (left - right)))
  else if String.eqb operator "*" then Ret (Integer (int64_wrap (left * right)))
  else if String.eqb operator "/" then
    if Z.eqb right 0 then Panic divide_by_zero
    else Ret (Integer (int64_wrap (Z.quot left right)))
  else if String.eqb operator "<" then Ret (object.Bool (Z.ltb left right))
  else if String.eqb operator ">" then Ret (object.Bool (Z.gtb left right))
  else if String.eqb operator "==" then Ret (object.Bool (Z.eqb left right))
  else if String.eqb operator "!=" then Ret (object.Bool (negb (Z.eqb left right)))
  else Ret (unknown_operator INTEGER operator INTEGER).

Definition evalFloatInfixExpression (operator : string) (left right : float64)
  : Object :=
  if String.eqb operator "+" then Float (float_add left right)
  else if String.eqb operator "-" then Float (float_sub left right)
  else if String.eqb operator "*" then Float (float_mul left right)
  else if String.eqb operator "/" then Float (float_div left right)
  else if String.eqb operator "<" then object.Bool (float_ltb left right)
  else if String.eqb operator ">" then object.Bool (float_ltb right left)
  else if String.eqb operator "==" then object.Bool (float_eqb left right)
  else if String.eqb operator "!=" then object.Bool (negb (float_eqb left right))
  else unknown_operator FLOAT operator FLOAT.

Definition evalInfixExpression (operator : string) (left right : option Object)
  : outcome Object :=
  match left, right with
  | None, _ | _, None => Panic nil_dereference
  | Some l, Some r =>
      let '(l, r) :=
        match l, r with
        | Integer i, Float _ => (Float (float_of_int64 i), r)
        | Float _, Integer j => (l, Float (float_of_int64 j))
        | _, _ => (l, r)
        end in
      match l, r with
      | Integer i, Integer j => evalIntegerInfixExpression operator i j
      | Float f, Float g => Ret (evalFloatInfixExpression operator f g)
      | object.String s, object.String t => Ret (evalStringInfixExpression operator s t)
      | _, _ =>
          if String.eqb operator "==" then
            match go_eq l r with
            | Ret b => Ret (object.Bool b)
            | Panic p => Panic p
            | Diverge => Diverge
            end
          else if String.eqb operator "!=" then
            match go_eq l r with
            | Ret b => Ret (object.Bool (negb b))
            | Panic p => Panic p
            | Diverge => Diverge
            end
          else if negb (bool_decide (Type_ l = Type_ r)) then
            Ret (type_mismatch (Type_ l) operator (Type_ r))
          else Ret (unknown_operator (Type_ l) operator (Type_ r))
      end
  end.

Definition isTruthy (obj : option Object) : bool :=
  match obj with
  | Some Null => false
  | Some (object.Bool true) => true
  | Some (object.Bool false) => false
  | _ => true
  end.

Definition evalArrayIndexExpression (elems : list (option Object)) (idx : Z)
  : option Object :=
  let max := int64_wrap (Z.of_nat (length elems) - 1) in
  if Z.ltb idx 0 || Z.gtb idx max then Some NULL
  else
    match elems !! Z.to_nat idx with
    | Some e => e
    | None => Some NULL
    end.

Definition evalHashIndexExpression
    (hashObject : list (option Object * option Object)) (index : option Object)
  : outcome (option Object) :=
  match index with
  | None => Panic nil_dereference
  | Some i =>
      if negb (Hashable i) then
        Ret (Some (newError ("unusable as hash key: " +:+ ObjectType_String (Type_ i))))
      else
        match map_index hashObject index with
        | None => Ret (Some NULL)
        | Some got => Ret got
        end
  end.

Definition evalIndexExpression (left index : option Object)
  : outcome (option Object) :=
  match left with
  | None => Panic nil_dereference
  | Some (Array _ elems) =>
      match index with
      | None => Panic nil_dereference
      | Some (Integer idx) => Ret (evalArrayIndexExpression elems idx)
      | Some _ =>
          Ret (Some (newError ("index operator not supported: " +:+ ObjectType_String ARRAY)))
      end
  | Some (Hash pairs) => evalHashIndexExpression pairs index
  | Some l =>
      Ret (Some (newError ("index operator not supported: " +:+ ObjectType_String (Type_ l))))
  end.

Definition unwrapReturnValue (obj : option Object) : option Object :=
  match obj with
  | Some (ReturnValue v) => v
  | _ => obj
  end.

(** *** The evaluator *)

Definition BuiltinFunction : Type := list (option Object) -> M (option Object).

Section Eval.

(** The table [builtins] (its file is not among the sources). *)
Variable builtins : string -> option BuiltinFunction.

Section Recursion.

(** The recursive calls of [Eval]; the knot is tied by [Eval] below. *)
Variable Eval : Node -> Environment -> M (option Object).

Fixpoint evalExpressions_from (exps : list Expression) (env : Environment)
    (result : list (option Object)) : M (list (option Object)) :=
  match exps with
  | [] => ret result
  | e :: exps' =>
      evaluated <- Eval (Expr e) env ;;
      if isError evaluated then ret [evaluated]
      else evalExpressions_from exps' env (result ++ [evaluated])
  end.

Definition evalExpressions (exps : list Expression) (env : Environment)
  : M (list (option Object)) :=
  evalExpressions_from exps env [].

Fixpoint bindParameters (env : Environment) (paramIdx : nat)
    (params : list string) (args : list (option Object)) : M unit :=
  match params with
  | [] => ret tt
  | param :: params' =>
      match args !! paramIdx with
      | None => panic (index_out_of_range paramIdx (length args))
      | Some arg =>
          _ <- Set_ env param arg ;;
          bindParameters env (S paramIdx) params' args
      end
  end.

Definition extendFunctionEnv (Parameters : list string) (fnEnv : Environment)
    (args : list (option Object)) : M Environment :=
  env <- NewEnclosedEnvironment fnEnv ;;
  _ <- bindParameters env 0%nat Parameters args ;;
  ret env.

Definition applyFunction (fn : option Object) (args : list (option Object))
  : M (option Object) :=
  match fn with
  | Some (Function _ Parameters Body fnEnv) =>
      extendedEnv <- extendFunctionEnv Parameters fnEnv args ;;
      evaluated <- Eval (Stmt (BlockStatement Body)) extendedEnv ;;
      ret (unwrapReturnValue evaluated)
  | Some (Builtin name) =>
      match builtins name with
      | Some Fn => Fn args
      | None => panic nil_dereference
      end
  | Some f => ret (Some (newError ("not a function: " +:+ ObjectType_String (Type_ f))))
  | None => panic nil_dereference
  end.

Definition evalIdentifier (name : string) (env : Environment)
  : M (option Object) :=
  fun h =>
    match Get h env name with
    | Some val => (Ret val, h)
    | None =>
        match builtins name with
        | Some _ => (Ret (Some (Builtin name)), h)
        | None => (Ret (Some (newError ("identifier not found: " +:+ name))), h)
        end
    end.

Fixpoint evalProgram_from (stmts : list Statement) (env : Environment)
    (result : option Object) : M (option Object) :=
  match stmts with
  | [] => ret result
  | statement :: stmts' =>
      result <- Eval (Stmt statement) env ;;
      match result with
      | Some (ReturnValue v) => ret v
      | Some (Error e) => ret (Some (Error e))
      | _ => evalProgram_from stmts' env result
      end
  end.

Definition evalProgram (stmts : list Statement) (env : Environment)
  : M (option Object) :=
  evalProgram_from stmts env None.

(** The loop of [evalProgram] runs through all of [stmts] from heap [h]: no
    statement panics or yields a [ReturnValue] or an [Error], which would end
    the loop early.  The heap after the last statement, when it does. *)
Fixpoint runsThrough (stmts : list Statement) (env : Environment) (h : Heap)
  : option Heap :=
  match stmts with
  | [] => Some h
  | statement :: stmts' =>
      match Eval (Stmt statement) env h with
      | (Ret (Some (ReturnValue _)), _) => None
      | (Ret (Some (Error _)), _) => None
      | (Ret _, h') => runsThrough stmts' env h'
      | _ => None
      end
  end.

Fixpoint evalBlockStatement_from (stmts : list Statement) (env : Environment)
    (result : option Object) : M (option Object) :=
  match stmts with
  | [] => ret result
  | statement :: stmts' =>
      result <- Eval (Stmt statement) env ;;
      match result with
      | Some r =>
          if bool_decide (Type_ r = RETURN_VALUE) || bool_decide (Type_ r = ERROR)
          then ret result
          else evalBlockStatement_from stmts' env result
      | None => evalBlockStatement_from stmts' env result
      end
  end.

Definition evalBlockStatement (stmts : list Statement) (env : Environment)
  : M (option Object) :=
  evalBlockStatement_from stmts env None.

Definition evalIfExpression (Condition : Expression)
    (Consequence : list Statement) (Alternative : option (list Statement))
    (env : Environment) : M (option Object) :=
  condition <- Eval (Expr Condition) env ;;
  if isError condition then ret condition
  else if isTruthy condition then Eval (Stmt (BlockStatement Consequence)) env
  else
    match Alternative with
    | Some alt => Eval (Stmt (BlockStatement alt)) env
    | None => ret (Some NULL)
    end.

Fixpoint evalHashLiteral_from (pairs : list (Expression * Expression))
    (env : Environment) (m : list (option Object * option Object))
  : M (option Object) :=
  match pairs with
  | [] => ret (Some (Hash m))
  | (keyNode, valueNode) :: pairs' =>
      key <- Eval (Expr keyNode) env ;;
      if isError key then ret key
      else
        value <- Eval (Expr valueNode) env ;;
        if isError value then ret value
        else
          m' <- lift (map_assign m key value) ;;
          evalHashLiteral_from pairs' env m'
  end.

Definition evalHashLiteral (pairs : list (Expression * Expression))
    (env : Environment) : M (option Object) :=
  recover (evalHashLiteral_from pairs env [])
    (fun r => Some (newError ("unhashable key: " +:+ r))).

(** The type switch of [Eval]. *)
Definition Eval_switch (node : Node) (env : Environment) : M (option Object) :=
  match node with
  | Program stmts => evalProgram stmts env
  | Stmt (ExpressionStatement e) => Eval (Expr e) env
  | Stmt (BlockStatement stmts) => evalBlockStatement stmts env
  | Stmt (LetStatement name value) =>
      val <- Eval (Expr value) env ;;
      if isError val then ret val
      else
        _ <- Set_ env name val ;;
        ret None
  | Stmt (ReturnStatement value) =>
      val <- Eval (Expr value) env ;;
      if isError val then ret val
      else ret (Some (ReturnValue val))
  | Expr (IntegerLiteral v) => ret (Some (Integer v))
  | Expr (FloatLiteral v) => ret (Some (Float v))
  | Expr (StringLiteral v) => ret (Some (object.String v))
  | Expr (FunctionLiteral params body) =>
      p <- newPtr ;;
      ret (Some (Function p params body env))
  | Expr (ArrayLiteral elements) =>
      elements <- evalExpressions elements env ;;
      match elements with
      | [e] =>
          if isError e then ret e
          else
            p <- newPtr ;;
            ret (Some (Array p elements))
      | _ =>
          p <- newPtr ;;
          ret (Some (Array p elements))
      end
  | Expr (ast.Bool v) => ret (Some (object.Bool v))
  | Expr (Identifier name) => evalIdentifier name env
  | Expr (PrefixExpression operator rightNode) =>
      right <- Eval (Expr rightNode) env ;;
      if isError right then ret right
      else
        r <- lift (evalPrefixExpression operator right) ;;
        ret (Some r)
  | Expr (InfixExpression operator leftNode rightNode) =>
      left <- Eval (Expr leftNode) env ;;
      if isError left then ret left
      else
        right <- Eval (Expr rightNode) env ;;
        if isError right then ret right
        else
          r <- lift (evalInfixExpression operator left right) ;;
          ret (Some r)
  | Expr (IfExpression c consequence alt) => evalIfExpression c consequence alt env
  | Expr (CallExpression function arguments) =>
      function <- Eval (Expr function) env ;;
      if isError function then ret function
      else
        args <- evalExpressions arguments env ;;
        match args with
        | [a] => if isError a then ret a else applyFunction function args
        | _ => applyFunction function args
        end
  | Expr (IndexExpression leftNode indexNode) =>
      left <- Eval (Expr leftNode) env ;;
      if isError left then ret left
      else
        index <- Eval (Expr indexNode) env ;;
        if isError index then ret index
        else lift (evalIndexExpression left index)
  | Expr (HashLiteral pairs) => evalHashLiteral pairs env
  end.

End Recursion.

(** [Eval] with a bound [fuel] on the depth of its recursion: every call of
    [Eval] in the source spends one unit. *)
Fixpoint Eval (fuel : nat) (node : Node) (env : Environment)
  : M (option Object) :=
  match fuel with
  | O => diverge
  | S fuel' => Eval_switch (Eval fuel') node env
  end.

End Eval.

(** An empty table of builtins, and a run of a whole program in a fresh
    environment, as the REPL did it. *)
Definition no_builtins : string -> option BuiltinFunction := fun _ => None.

Definition run (builtins : string -> option BuiltinFunction) (fuel : nat)
    (stmts : list Statement) : outcome (option Object) :=
  fst ((env <- NewEnvironment ;; Eval builtins fuel (Program stmts) env) emptyHeap).

End evaluator.

(** ** Packages code, compiler and vm *)

(** The compiler and the virtual machine are not among the sources (only the
    machine's test and the REPL that calls them are); what follows is written
    from the specification. *)

Module code.

(** Modelled from the spec: the opcode set of the virtual machine (section
    4.5), numbered in the order of its table.  Operands are big-endian; their
    widths are those of the table. *)
Inductive Opcode : Type :=
| OpConstant | OpPop | OpAdd | OpSub | OpMul | OpDiv | OpTrue | OpFalse
| OpNull | OpEqual | OpNotEqual | OpGreaterThan | OpMinus | OpBang
| OpJumpNotTruthy | OpJump | OpSetGlobal | OpGetGlobal | OpSetLocal
| OpGetLocal | OpArray | OpHash | OpIndex | OpCall | OpReturnValue | OpReturn.

#[export] Instance Opcode_eq_dec : EqDecision Opcode.
Proof. solve_decision. Defined.

Definition opcodes : list Opcode :=
  [OpConstant; OpPop; OpAdd; OpSub; OpMul; OpDiv; OpTrue; OpFalse;
   OpNull; OpEqual; OpNotEqual; OpGreaterThan; OpMinus; OpBang;
   OpJumpNotTruthy; OpJump; OpSetGlobal; OpGetGlobal; OpSetLocal;
   OpGetLocal; OpArray; OpHash; OpIndex; OpCall; OpReturnValue; OpReturn].

(** Modelled from the spec: the byte of an opcode is its position in the
    table. *)
Definition byte_of (op : Opcode) : Z :=
  match op with
  | OpConstant => 0 | OpPop => 1 | OpAdd => 2 | OpSub => 3 | OpMul => 4
  | OpDiv => 5 | OpTrue => 6 | OpFalse => 7 | OpNull => 8 | OpEqual => 9
  | OpNotEqual => 10 | OpGreaterThan => 11 | OpMinus => 12 | OpBang => 13
  | OpJumpNotTruthy => 14 | OpJump => 15 | OpSetGlobal => 16
  | OpGetGlobal => 17 | OpSetLocal => 18 | OpGetLocal => 19 | OpArray => 20
  | OpHash => 21 | OpIndex => 22 | OpCall => 23 | OpReturnValue => 24
  | OpReturn => 25
  end.

Definition Lookup (b : Z) : option Opcode :=
  if Z.ltb b 0 then None else opcodes !! Z.to_nat b.

(** Modelled from the spec: the width in bytes of the operand of an opcode
    (u16, u8 or none). *)
Definition operandWidth (op : Opcode) : nat :=
  match op with
  | OpConstant | OpJumpNotTruthy | OpJump | OpSetGlobal | OpGetGlobal
  | OpArray | OpHash => 2
  | OpSetLocal | OpGetLocal | OpCall => 1
  | _ => 0
  end.

(** Modelled from the spec: the encoding of one instruction. *)
Definition Make (op : Opcode) (operand : Z) : list Z :=
  byte_of op ::
  match operandWidth op with
  | 2%nat => [(operand / 256) mod 256; operand mod 256]
  | 1%nat => [operand mod 256]
  | _ => []
  end.

Definition ReadUint16 (ins : list Z) (offset : nat) : option Z :=
  match ins !! offset, ins !! S offset with
  | Some hi, Some lo => Some (hi * 256 + lo)
  | _, _ => None
  end.

End code.

Module compiler.
Import golang ast object code.

(** Modelled from the spec: the bytecode (section 4.4). *)
Record Bytecode : Type := mkBytecode {
  Instructions : list Z;
  Constants : list Object
}.

(** Modelled from the spec: the symbol table, at its top (global) scope:
    defining a name gives it the next free slot. *)
Record SymbolTable : Type := mkSymbolTable {
  store : gmap string nat;
  numDefinitions : nat
}.

Definition Define (name : string) (s : SymbolTable) : SymbolTable * nat :=
  (mkSymbolTable (<[name := numDefinitions s]> (store s)) (S (numDefinitions s)),
   numDefinitions s).

Definition Resolve (name : string) (s : SymbolTable) : option nat :=
  store s !! name.

(** Modelled from the spec: an emitted instruction, as the compiler
    remembers the last two of them (the emit discipline of section 4.4). *)
Record EmittedInstruction : Type := mkEmitted {
  Opcode_ : Opcode;
  Position : nat
}.

Record Compiler : Type := mkCompiler {
  instructions : list Z;
  constants : list Object;
  symbolTable : SymbolTable;
  lastInstruction : option EmittedInstruction;
  previousInstruction : option EmittedInstruction
}.

Definition New : Compiler := mkCompiler [] [] (mkSymbolTable ∅ 0) None None.

Definition emit (op : Opcode) (operand : Z) (c : Compiler) : Compiler :=
  mkCompiler (instructions c ++ Make op operand) (constants c) (symbolTable c)
    (Some (mkEmitted op (length (instructions c)))) (lastInstruction c).

Definition addConstant (obj : Object) (c : Compiler) : Compiler * nat :=
  (mkCompiler (instructions c) (constants c ++ [obj]) (symbolTable c)
     (lastInstruction c) (previousInstruction c),
   length (constants c)).

Definition emitConstant (obj : Object) (c : Compiler) : Compiler :=
  let '(c, idx) := addConstant obj c in
  emit OpConstant (Z.of_nat idx) c.

Definition lastInstructionIs (op : Opcode) (c : Compiler) : bool :=
  match lastInstruction c with
  | Some last => bool_decide (Opcode_ last = op)
  | None => false
  end.

(** Modelled from the spec: the peephole step of a conditional: the [OpPop]
    that ends a branch is taken back, so that the value of the branch stays
    on the stack. *)
Definition removeLastPop (c : Compiler) : Compiler :=
  match lastInstruction c with
  | Some last =>
      mkCompiler (take (Position last) (instructions c)) (constants c)
        (symbolTable c) (previousInstruction c) (previousInstruction c)
  | None => c
  end.

Definition removeLastPopIfAny (c : Compiler) : Compiler :=
  if lastInstructionIs OpPop c then removeLastPop c else c.

(** Modelled from the spec: back-patching: the instruction at [opPos] is
    written again with the operand that is now known. *)
Definition changeOperand (opPos : nat) (operand : Z) (c : Compiler) : Compiler :=
  match instructions c !! opPos with
  | Some b =>
      match Lookup b with
      | Some op =>
          let new := Make op operand in
          mkCompiler
            (take opPos (instructions c) ++ new
             ++ drop (opPos + length new) (instructions c))
            (constants c) (symbolTable c) (lastInstruction c)
            (previousInstruction c)
      | None => c
      end
  | None => c
  end.

(** The operand a jump is emitted with before its target is known. *)
Definition placeholder : Z := 9999.

(** A compilation ends in an error message or in the compiler's new state. *)
Definition result : Type := string + Compiler.

Definition and_then (r : result) (k : Compiler -> result) : result :=
  match r with
  | inl msg => inl msg
  | inr c => k c
  end.

(** Modelled from the spec: the opcode of an infix operator ([<] has none:
    it is compiled as [>] on swapped operands). *)
Definition infixOpcode (operator : string) : option Opcode :=
  if String.eqb operator "+" then Some OpAdd
  else if String.eqb operator "-" then Some OpSub
  else if String.eqb operator "*" then Some OpMul
  else if String.eqb operator "/" then Some OpDiv
  else if String.eqb operator ">" then Some OpGreaterThan
  else if String.eqb operator "==" then Some OpEqual
  else if String.eqb operator "!=" then Some OpNotEqual
  else None.

Definition prefixOpcode (operator : string) : option Opcode :=
  if String.eqb operator "!" then Some OpBang
  else if String.eqb operator "-" then Some OpMinus
  else None.

(** Modelled from the spec: compilation of expressions and statements
    (section 4.4): literals, global identifiers, prefix and infix operators
    and conditionals; an expression statement leaves nothing on the stack
    ([OpPop]); a [let] stores the value in the slot of the name.  The
    instruction sequences of arrays, hashes, index expressions, function
    literals, calls and [return] are not part of this model: the compiler
    reports them. *)
Fixpoint compileExpression (e : Expression) (c : Compiler) {struct e} : result :=
  match e with
  | IntegerLiteral v => inr (emitConstant (Integer v) c)
  | FloatLiteral v => inr (emitConstant (Float v) c)
  | StringLiteral v => inr (emitConstant (object.String v) c)
  | ast.Bool true => inr (emit OpTrue 0 c)
  | ast.Bool false => inr (emit OpFalse 0 c)
  | Identifier name =>
      match Resolve name (symbolTable c) with
      | Some idx => inr (emit OpGetGlobal (Z.of_nat idx) c)
      | None => inl ("undefined variable " +:+ name)
      end
  | PrefixExpression operator rightNode =>
      and_then (compileExpression rightNode c) (fun c =>
        match prefixOpcode operator with
        | Some op => inr (emit op 0 c)
        | None => inl ("unknown operator " +:+ operator)
        end)
  | InfixExpression operator leftNode rightNode =>
      if String.eqb operator "<" then
        and_then (compileExpression rightNode c) (fun c =>
        and_then (compileExpression leftNode c) (fun c =>
          inr (emit OpGreaterThan 0 c)))
      else
        and_then (compileExpression leftNode c) (fun c =>
        and_then (compileExpression rightNode c) (fun c =>
          match infixOpcode operator with
          | Some op => inr (emit op 0 c)
          | None => inl ("unknown operator " +:+ operator)
          end))
  | IfExpression condition consequence alternative =>
      let compileBlock :=
        fix compileStatements (stmts : list Statement) (c : Compiler) : result :=
          match stmts with
          | [] => inr c
          | s :: stmts' => and_then (compileStatement s c) (compileStatements stmts')
          end in
      and_then (compileExpression condition c) (fun c =>
        let jumpNotTruthyPos := length (instructions c) in
        let c := emit OpJumpNotTruthy placeholder c in
        and_then (compileBlock consequence c) (fun c =>
          let c := removeLastPopIfAny c in
          let jumpPos := length (instructions c) in
          let c := emit OpJump placeholder c in
          let c := changeOperand jumpNotTruthyPos (Z.of_nat (length (instructions c))) c in
          and_then
            match alternative with
            | None => inr (emit OpNull 0 c)
            | Some alt =>
                and_then (compileBlock alt c) (fun c => inr (removeLastPopIfAny c))
            end
            (fun c =>
               inr (changeOperand jumpPos (Z.of_nat (length (instructions c))) c))))
  | _ => inl "not modelled"
  end
with compileStatement (s : Statement) (c : Compiler) {struct s} : result :=
  match s with
  | ExpressionStatement e =>
      and_then (compileExpression e c) (fun c => inr (emit OpPop 0 c))
  | LetStatement name value =>
      and_then (compileExpression value c) (fun c =>
        let '(table, idx) := Define name (symbolTable c) in
        inr (emit OpSetGlobal (Z.of_nat idx)
               (mkCompiler (instructions c) (constants c) table
                  (lastInstruction c) (previousInstruction c))))
  | BlockStatement stmts =>
      (fix compileStatements (stmts : list Statement) (c : Compiler) : result :=
         match stmts with
         | [] => inr c
         | s :: stmts' => and_then (compileStatement s c) (compileStatements stmts')
         end) stmts c
  | ReturnStatement _ => inl "not modelled"
  end.

Fixpoint compileStatements (stmts : list Statement) (c : Compiler) : result :=
  match stmts with
  | [] => inr c
  | s :: stmts' => and_then (compileStatement s c) (compileStatements stmts')
  end.

Definition Compile (stmts : list Statement) : string + Bytecode :=
  match compileStatements stmts New with
  | inl msg => inl msg
  | inr c => inr (mkBytecode (instructions c) (constants c))
  end.

End compiler.

Module vm.
Import golang ast object evaluator code compiler.

Definition StackSize : nat := 2048.
Definition GlobalsSize : Z := 65536.

(** Modelled from the spec: the infix rules of section 4.3, which the
    arithmetic and comparison opcodes follow.  [None] where the spec leaves
    the result to the host (integer division by zero). *)
Definition spec_error (kind : string) (l : Object) (operator : string) (r : Object)
  : Object :=
  Error (kind +:+ ObjectType_String (Type_ l) +:+ " " +:+ operator +:+ " "
         +:+ ObjectType_String (Type_ r)).

Definition spec_integer_infix (operator : string) (a b : Z) : option Object :=
  if String.eqb operator "+" then Some (Integer (int64_wrap (a + b)))
  else if String.eqb operator "-" then Some (Integer (int64_wrap (a - b)))
  else if String.eqb operator "*" then Some (Integer (int64_wrap (a * b)))
  else if String.eqb operator "/" then
    if Z.eqb b 0 then None else Some (Integer (int64_wrap (Z.quot a b)))
  else if String.eqb operator "<" then Some (object.Bool (Z.ltb a b))
  else if String.eqb operator ">" then Some (object.Bool (Z.ltb b a))
  else if String.eqb operator "==" then Some (object.Bool (Z.eqb a b))
  else if String.eqb operator "!=" then Some (object.Bool (negb (Z.eqb a b)))
  else Some (spec_error "unknown operator: " (Integer a) operator (Integer b)).

Definition spec_float_infix (operator : string) (f g : float64) : Object :=
  if String.eqb operator "+" then Float (float_add f g)
  else if String.eqb operator "-" then Float (float_sub f g)
  else if String.eqb operator "*" then Float (float_mul f g)
  else if String.eqb operator "/" then Float (float_div f g)
  else if String.eqb operator "<" then object.Bool (float_ltb f g)
  else if String.eqb operator ">" then object.Bool (float_ltb g f)
  else if String.eqb operator "==" then object.Bool (float_eqb f g)
  else if String.eqb operator "!=" then object.Bool (negb (float_eqb f g))
  else spec_error "unknown operator: " (Float f) operator (Float g).

(** Structural equality of values (rule 5). *)
Fixpoint spec_equal (a b : Object) : bool :=
  match a, b with
  | Integer i, Integer j => Z.eqb i j
  | Float f, Float g => float_eqb f g
  | object.Bool x, object.Bool y => eqb x y
  | Null, Null => true
  | Error x, Error y => String.eqb x y
  | object.String s, object.String t => String.eqb s t
  | Builtin m, Builtin n => String.eqb m n
  | Function p _ _ _, Function q _ _ _ => Nat.eqb p q
  | Array _ xs, Array _ ys =>
      (fix all2 (xs ys : list (option Object)) : bool :=
         match xs, ys with
         | [], [] => true
         | Some x :: xs', Some y :: ys' => spec_equal x y && all2 xs' ys'
         | None :: xs', None :: ys' => all2 xs' ys'
         | _, _ => false
         end) xs ys
  | ReturnValue (Some x), ReturnValue (Some y) => spec_equal x y
  | ReturnValue None, ReturnValue None => true
  | _, _ => false
  end.

Definition spec_infix (operator : string) (l r : Object) : option Object :=
  match l, r with
  | Integer a, Integer b => spec_integer_infix operator a b
  | Integer a, Float g => Some (spec_float_infix operator (float_of_int64 a) g)
  | Float f, Integer b => Some (spec_float_infix operator f (float_of_int64 b))
  | Float f, Float g => Some (spec_float_infix operator f g)
  | object.String s, object.String t =>
      if String.eqb operator "+" then Some (object.String (s +:+ t))
      else Some (spec_error "unknown operator: " l operator r)
  | _, _ =>
      if String.eqb operator "==" then Some (object.Bool (spec_equal l r))
      else if String.eqb operator "!=" then Some (object.Bool (negb (spec_equal l r)))
      else if bool_decide (Type_ l = Type_ r)
      then Some (spec_error "unknown operator: " l operator r)
      else Some (spec_error "type mismatch: " l operator r)
  end.

(** Modelled from the spec: the prefix rules of section 4.3. *)
Definition spec_bang (r : Object) : Object :=
  match r with
  | object.Bool true => object.Bool false
  | object.Bool false => object.Bool true
  | Null => object.Bool true
  | _ => object.Bool false
  end.

Definition spec_minus (r : Object) : Object :=
  match r with
  | Integer i => Integer (int64_wrap (- i))
  | Float f => Float (float_neg f)
  | _ => Error ("unknown operator: -" +:+ ObjectType_String (Type_ r))
  end.

(** Modelled from the spec: truthiness in the machine: [Bool(false)] and
    [Null] are falsy, everything else is truthy. *)
Definition spec_truthy (o : Object) : bool :=
  match o with
  | object.Bool false | Null => false
  | _ => true
  end.

Definition operatorOf (op : Opcode) : string :=
  match op with
  | OpAdd => "+" | OpSub => "-" | OpMul => "*" | OpDiv => "/"
  | OpEqual => "==" | OpNotEqual => "!=" | OpGreaterThan => ">"
  | _ => ""
  end.

(** Modelled from the spec: the state of the machine (section 4.5), for the
    main frame: the instructions and constants of the bytecode, the
    instruction pointer, the value stack (top first), the globals, and the
    last value popped. *)
Record VM : Type := mkVM {
  bytecode : Bytecode;
  ip : nat;
  stack : list Object;
  globals : gmap nat Object;
  lastPopped : option Object
}.

Arguments mkVM bytecode ip%_nat_scope stack%_list_scope globals lastPopped.

Definition New (b : Bytecode) : VM := mkVM b 0 [] ∅ None.

(** One turn of the dispatch loop ends in the next state, or in a run-time
    error: an [Error] value that surfaces as the result, or a fatal error of
    the machine. *)
Inductive stepResult : Type :=
| Next (m : VM)
| Raised (err : Object)
| Fatal (msg : string).

Definition push (v : Object) (next : nat) (m : VM) : stepResult :=
  if (StackSize <=? length (stack m))%nat then Fatal "stack overflow"
  else Next (mkVM (bytecode m) next (v :: stack m) (globals m) (lastPopped m)).

(** A computed value is pushed, unless it is an [Error], which surfaces. *)
Definition pushResult (v : Object) (next : nat) (m : VM) : stepResult :=
  match v with
  | Error _ => Raised v
  | _ => push v next m
  end.

(** Modelled from the spec: the effect of each opcode (the table of section
    4.5), for the opcodes the modelled compiler emits; the others are fatal
    here. *)
Definition step (m : VM) : stepResult :=
  let ins := Instructions (bytecode m) in
  match ins !! ip m with
  | None => Fatal "instruction pointer out of range"
  | Some b =>
      match Lookup b with
      | None => Fatal "unknown opcode"
      | Some op =>
          let next := (ip m + 1 + operandWidth op)%nat in
          match op with
          | OpConstant =>
              match ReadUint16 ins (ip m + 1) with
              | Some idx =>
                  match Constants (bytecode m) !! Z.to_nat idx with
                  | Some v => push v next m
                  | None => Fatal "constant index out of range"
                  end
              | None => Fatal "truncated instruction"
              end
          | OpPop =>
              match stack m with
              | v :: rest =>
                  Next (mkVM (bytecode m) next rest (globals m) (Some v))
              | [] => Fatal "stack underflow"
              end
          | OpTrue => push (object.Bool true) next m
          | OpFalse => push (object.Bool false) next m
          | OpNull => push Null next m
          | OpAdd | OpSub | OpMul | OpDiv | OpEqual | OpNotEqual | OpGreaterThan =>
              match stack m with
              | r :: l :: rest =>
                  match spec_infix (operatorOf op) l r with
                  | Some v =>
                      pushResult v next
                        (mkVM (bytecode m) (ip m) rest (globals m) (Some l))
                  | None => Fatal "division by zero"
                  end
              | _ => Fatal "stack underflow"
              end
          | OpMinus | OpBang =>
              match stack m with
              | r :: rest =>
                  pushResult (if decide (op = OpMinus) then spec_minus r else spec_bang r)
                    next (mkVM (bytecode m) (ip m) rest (globals m) (Some r))
              | [] => Fatal "stack underflow"
              end
          | OpSetGlobal =>
              match ReadUint16 ins (ip m + 1), stack m with
              | Some idx, v :: rest =>
                  Next (mkVM (bytecode m) next rest
                          (<[Z.to_nat idx := v]> (globals m)) (Some v))
              | None, _ => Fatal "truncated instruction"
              | _, [] => Fatal "stack underflow"
              end
          | OpJumpNotTruthy =>
              match ReadUint16 ins (ip m + 1), stack m with
              | Some target, condition :: rest =>
                  Next (mkVM (bytecode m)
                          (if spec_truthy condition then next else Z.to_nat target)
                          rest (globals m) (Some condition))
              | None, _ => Fatal "truncated instruction"
              | _, [] => Fatal "stack underflow"
              end
          | OpJump =>
              match ReadUint16 ins (ip m + 1) with
              | Some target =>
                  Next (mkVM (bytecode m) (Z.to_nat target) (stack m) (globals m)
                          (lastPopped m))
              | None => Fatal "truncated instruction"
              end
          | OpGetGlobal =>
              match ReadUint16 ins (ip m + 1) with
              | Some idx =>
                  match globals m !! Z.to_nat idx with
                  | Some v => push v next m
                  | None => Fatal "global not set"
                  end
              | None => Fatal "truncated instruction"
              end
          | _ => Fatal "not modelled"
          end
      end
  end.

(** [n] turns of the dispatch loop. *)
Fixpoint stepN (n : nat) (m : VM) : stepResult :=
  match n with
  | O => Next m
  | S n' =>
      match step m with
      | Next m' => stepN n' m'
      | other => other
      end
  end.

(** The outcome of a run. *)
Inductive runResult : Type :=
| Halted (m : VM)
| Failed (err : Object)
| Crashed (msg : string)
| OutOfFuel.

(** Modelled from the spec: run until the instruction pointer leaves the
    instructions. *)
Fixpoint Run (fuel : nat) (m : VM) : runResult :=
  if (length (Instructions (bytecode m)) <=? ip m)%nat then Halted m
  else
    match fuel with
    | O => OutOfFuel
    | S fuel' =>
        match step m with
        | Next m' => Run fuel' m'
        | Raised err => Failed err
        | Fatal msg => Crashed msg
        end
    end.

(** Modelled from the spec: the value a run exposes: the last value popped,
    or the [Error] that surfaced.  (The machine's test and the REPL read the
    result of a run through a method [StackTop] of the machine; the
    specification names the last value popped only, and every expression
    statement of its compiler ends in [OpPop].) *)
Definition LastPoppedStackElem (r : runResult) : option Object :=
  match r with
  | Halted m => lastPopped m
  | Failed err => Some err
  | _ => None
  end.

(** Compile a program and run it. *)
Definition execute (fuel : nat) (stmts : list Statement) : option runResult :=
  match Compile stmts with
  | inl _ => None
  | inr b => Some (Run fuel (New b))
  end.

(** The programs of the modelled fragment: [let] and expression statements
    over literals, identifiers, prefix and infix operators and conditionals
    whose branches are non-empty sequences of expression statements. *)
Fixpoint coreExpression (e : Expression) : bool :=
  match e with
  | IntegerLiteral _ | FloatLiteral _ | StringLiteral _ | ast.Bool _
  | Identifier _ => true
  | PrefixExpression _ r => coreExpression r
  | InfixExpression _ l r => coreExpression l && coreExpression r
  | IfExpression condition consequence alternative =>
      let coreBranch :=
        fix coreBranch (stmts : list Statement) : bool :=
          match stmts with
          | [] => true
          | ExpressionStatement e :: stmts' => coreExpression e && coreBranch stmts'
          | _ => false
          end in
      coreExpression condition
      && (negb (bool_decide (consequence = [])) && coreBranch consequence)
      && match alternative with
         | None => true
         | Some alt => negb (bool_decide (alt = [])) && coreBranch alt
         end
  | _ => false
  end.

Fixpoint coreBranch (stmts : list Statement) : bool :=
  match stmts with
  | [] => true
  | ExpressionStatement e :: stmts' => coreExpression e && coreBranch stmts'
  | _ => false
  end.

Definition coreStatement (s : Statement) : bool :=
  match s with
  | ExpressionStatement e | LetStatement _ e => coreExpression e
  | _ => false
  end.

(** [code] sits in the instructions [ins] at offset [pos]. *)
Definition code_at (ins : list Z) (pos : nat) (code : list Z) : Prop :=
  exists pre post : list Z, ins = (pre ++ code ++ post)%list /\ length pre = pos.

(** From state [c] to state [c'] the compiler has appended [code], possibly
    added constants, and left the symbol table as it was. *)
Definition appends (c c' : Compiler) (code : list Z) : Prop :=
  instructions c' = (instructions c ++ code)%list
  /\ constants c `prefix_of` constants c'
  /\ symbolTable c' = symbolTable c.

(** Every compilation of expression [e] appends code. *)
Definition expression_shape (e : Expression) : Prop :=
  forall c c', compileExpression e c = inr c' -> exists code, appends c c' code.

(** Every compilation of the statements [stmts] of a branch appends code
    that ends in the [OpPop] the compiler emitted last. *)
Definition branch_shape (stmts : list Statement) : Prop :=
  forall c c', compileStatements stmts c = inr c' ->
    exists code,
      appends c c' (code ++ Make OpPop 0)
      /\ lastInstruction c'
         = Some (mkEmitted OpPop (length (instructions c) + length code)).

(** The values of the modelled fragment. *)
Definition coreValue (o : Object) : bool :=
  match o with
  | Integer _ | Float _ | object.Bool _ | object.String _ | Null => true
  | _ => false
  end.

(** The globals hold, at the slot of every defined name, the value the
    name is bound to in the evaluator's top environment (store 0 of heap
    [h]). *)
Definition related (h : Heap) (table : SymbolTable) (g : gmap nat Object) : Prop :=
  (0 < length (stores h))%nat
  /\ forall name idx, Resolve name table = Some idx ->
       (idx < numDefinitions table)%nat
       /\ exists v, store_lookup h 0 name = Some (Some v)
                    /\ g !! idx = Some v /\ coreValue v = true.

(** The stack slots the code of an expression needs. *)
Fixpoint stackNeed (e : Expression) : nat :=
  match e with
  | PrefixExpression _ r => stackNeed r
  | InfixExpression operator l r =>
      if String.eqb operator "<"
      then Nat.max (stackNeed r) (S (stackNeed l))
      else Nat.max (stackNeed l) (S (stackNeed r))
  | IfExpression condition consequence alternative =>
      let branchNeed :=
        fix branchNeed (stmts : list Statement) : nat :=
          match stmts with
          | ExpressionStatement e :: stmts' => Nat.max (stackNeed e) (branchNeed stmts')
          | _ => 1%nat
          end in
      Nat.max (stackNeed condition)
        (Nat.max (branchNeed consequence)
           match alternative with
           | None => 1%nat
           | Some alt => branchNeed alt
           end)
  | _ => 1%nat
  end.

Fixpoint branchNeed (stmts : list Statement) : nat :=
  match stmts with
  | ExpressionStatement e :: stmts' => Nat.max (stackNeed e) (branchNeed stmts')
  | _ => 1%nat
  end.

Definition statementNeed (s : Statement) : nat :=
  match s with
  | ExpressionStatement e | LetStatement _ e => stackNeed e
  | _ => 0
  end.

(** With recursion budget [fuel] for the evaluator, the machine computes on
    the code of every expression of the fragment what the evaluator computes
    from the expression: where the evaluator yields a value that is not an
    [Error], it leaves the heap as it was, and the machine, started at the
    code with the globals [related] to the heap, runs to the end of the code
    and has pushed that value. *)
Definition expression_simulated (bc : Bytecode) (fuel : nat) : Prop :=
  forall e c c' code h ov h' g,
    coreExpression e = true ->
    compileExpression e c = inr c' ->
    appends c c' code ->
    Eval no_builtins fuel (Expr e) (Env 0 None) h = (Ret ov, h') ->
    isError ov = false ->
    related h (symbolTable c) g ->
    Z.of_nat (numDefinitions (symbolTable c)) <= 65536 ->
    code_at (Instructions bc) (length (instructions c)) code ->
    constants c' `prefix_of` Constants bc ->
    h' = h
    /\ exists v, ov = Some v /\ coreValue v = true
       /\ forall stk lp, (length stk + stackNeed e <= StackSize)%nat ->
            exists n lp',
              stepN n (mkVM bc (length (instructions c)) stk g lp)
              = Next (mkVM bc (length (instructions c) + length code) (v :: stk) g lp').

End vm.
(** ** Invariants of the heap *)

Module heap_order.
Import golang ast object evaluator.

(** Heap [h'] has every store and every pointer of heap [h]. *)
Definition heap_le (h h' : Heap) : Prop :=
  (length (stores h) <= length (stores h'))%nat /\ (nextPtr h <= nextPtr h')%nat.

(** A computation that only allocates: whatever its outcome, the heap it
    leaves has every store and pointer of the heap it started from. *)
Definition grows {A} (m : M A) : Prop :=
  forall h o h', m h = (o, h') -> heap_le h h'.

(** Every store on the chain of environment [e] is in heap [h]. *)
Fixpoint allocated (h : Heap) (e : Environment) : Prop :=
  match e with
  | Env l parent =>
      (l < length (stores h))%nat
      /\ match parent with
         | Some p => allocated h p
         | None => True
         end
  end.

End heap_order.
(** ** Inspect: the loops, and the earlier version of the file *)

Module inspect_loops.
Import golang ast object.

Section Inspect.
Variable format_float : golang.float64 -> string.
Variable Identifier_String : string -> string.
Variable BlockStatement_String : list ast.Statement -> string.

(** The loop of [Array.Inspect], from turn [i] on, with [out] written so
    far (the loop inside [Inspect], by itself). *)
Fixpoint Array_Inspect_from (i : nat) (es : list (option Object)) (out : string)
  : golang.outcome string :=
  match es with
  | [] => golang.Ret (out +:+ "]")
  | e :: es' =>
      let out := if (0 <? i)%nat then out +:+ ", " else out in
      match iface_call (Inspect format_float Identifier_String BlockStatement_String) e with
      | golang.Ret s => Array_Inspect_from (S i) es' (out +:+ s)
      | other => other
      end
  end.

(** [Function.Inspect] as src/object/object.go has it: the parameters are
    collected and joined with [strings.Join]. *)
Definition Function_Inspect_Join (Parameters : list string) (Body : list ast.Statement)
  : string :=
  let params := map Identifier_String Parameters in
  "fn" +:+ "(" +:+ String.concat ", " params +:+ ") {" +:+ "
" +:+ BlockStatement_String Body +:+ "
}".

End Inspect.

End inspect_loops.
(** ** Invariants of the lexer state *)

Module lexer_invariants.
Import golang lexer.

(** The positions of a state are in order and inside the input, and the
    lookahead, when there is one, is the rune at the read position. *)
Definition coherent (s : state) : Prop :=
  (tokPos s <= runePos s <= readPos s)%nat
  /\ if peeked s
     then (readPos s < String.length (input s))%nat
          /\ (peekRune s, peekSize s) = DecodeRuneInString (input s) (readPos s)
     else peekSize s = 0%nat /\ (readPos s <= String.length (input s))%nat.

(** The bytes of the input that have not been read. *)
Definition remaining (s : state) : nat := (String.length (input s) - readPos s)%nat.

(** [next] is what [peek] answers in state [s]. *)
Definition lookahead (next : rune) (s : state) : Prop :=
  if peeked s then next = peekRune s
  else next = 0 /\ (String.length (input s) <= readPos s)%nat.

(** The loop of [lexString], with a bound on its turns (the loop inside
    [lexString], by itself). *)
Fixpoint lexString_from (fuel : nat) (s : state) : lexResult :=
  match fuel with
  | O => failed "" s
  | S fuel' =>
      match readRune s with
      | ((_, Some e), s) => ((token.zero, Some e), s)
      | ((next, None), s) =>
          if Z.eqb next 0 then
            failed ("unterminated string at position "
                    +:+ golang.format_int (Z.of_nat (tokPos s)) +:+ ":"
                    +:+ golang.format_int (Z.of_nat (readPos s))) s
          else if Z.eqb next 34 then
            match readRune s with
            | ((_, Some e), s) => ((token.zero, Some e), s)
            | ((_, None), s) =>
                ((token.mkToken token.STRING
                    (slice (input s) (tokPos s + 1) (runePos s)), None), s)
            end
          else lexString_from fuel' s
      end
  end.

(** The rune of an ASCII character. *)
Definition rune_of (c : Ascii.ascii) : rune := Z.of_nat (Ascii.nat_of_ascii c).

(** A string of ASCII characters (bytes below 128) that all satisfy [cond]. *)
Fixpoint run_of (cond : rune -> bool) (run : string) : Prop :=
  match run with
  | EmptyString => True
  | String.String c run' =>
      (Ascii.nat_of_ascii c < 128)%nat /\ cond (rune_of c) = true /\ run_of cond run'
  end.

(** What follows a run: the end of the input, or an ASCII character that
    does not satisfy [cond]. *)
Definition ends_run (cond : rune -> bool) (rest : string) : Prop :=
  match rest with
  | EmptyString => cond 0 = false
  | String.String c _ => (Ascii.nat_of_ascii c < 128)%nat /\ cond (rune_of c) = false
  end.

(** The rune that [peek] answers at the start of [rest]. *)
Definition first_rune (rest : string) : rune :=
  match rest with
  | EmptyString => 0
  | String.String c _ => rune_of c
  end.

(** The double quote and the decimal point. *)
Definition quote : Ascii.ascii := Ascii.ascii_of_nat 34.
Definition dot : Ascii.ascii := Ascii.ascii_of_nat 46.

(** The runes inside a string literal: any but the quote and NUL. *)
Definition string_char (r : rune) : bool := negb (Z.eqb r 34) && negb (Z.eqb r 0).

(** A byte that starts no UTF-8 encoding: a continuation byte, the start
    of an overlong encoding, or a byte above the last start byte. *)
Definition invalid_start (c : Ascii.ascii) : Prop :=
  (128 <= Ascii.nat_of_ascii c < 194)%nat \/ (245 <= Ascii.nat_of_ascii c)%nat.

(** The error of [peek] at byte offset [pos]. *)
Definition decode_error (pos : nat) : string :=
  "failed to decode from utf8 at position " +:+ golang.format_int (Z.of_nat pos).

(** What follows is empty or starts with an ASCII character. *)
Definition ascii_next (rest : string) : Prop :=
  match rest with
  | EmptyString => True
  | String.String c _ => (Ascii.nat_of_ascii c < 128)%nat
  end.

(** State [s] has read [pre] and has [rest] before it. *)
Definition at_position (s : state) (pre rest : string) : Prop :=
  coherent s /\ input s = pre +:+ rest /\ readPos s = String.length pre.


End lexer_invariants.

(** ** Sample inputs *)

Module samples.
Import golang ast object evaluator.

(** The environment of a fresh program run, and the heap that holds its
    (empty) store. *)
Definition env0 : Environment := Env 0%nat None.
Definition heap0 : Heap := mkHeap [∅] 0%nat.

(** One and a half, as a [float64]. *)
Definition one_and_a_half : float64 := S754_finite false 6755399441055744 (-52).

(** Stand-ins for the printing functions that are not among the sources
    (the samples print integers only). *)
Definition format_float_stub : float64 -> string := fun _ => "".
Definition Identifier_String_stub : string -> string := fun name => name.
Definition BlockStatement_String_stub : list Statement -> string := fun _ => "".



(** [1; let x = 2] *)
Definition ends_in_let : list Statement :=
  [ExpressionStatement (IntegerLiteral 1); LetStatement "x" (IntegerLiteral 2)].

(** [return 1; let x = 2] *)
Definition return_then_let : list Statement :=
  [ReturnStatement (IntegerLiteral 1); LetStatement "x" (IntegerLiteral 2)].

(** [nope; let x = 2] *)
Definition error_then_let : list Statement :=
  [ExpressionStatement (Identifier "nope"); LetStatement "x" (IntegerLiteral 2)].

(** [-1.5] *)
Definition minus_float : list Statement :=
  [ExpressionStatement (PrefixExpression "-" (FloatLiteral one_and_a_half))].

(** The inputs of the machine's test [TestIntegerArithmetic], as the parser
    hands them over, each with the value the test expects: [1], [2] and
    [1 + 2]. *)
Definition TestIntegerArithmetic : list (list Statement * Z) :=
  [([ExpressionStatement (IntegerLiteral 1)], 1);
   ([ExpressionStatement (IntegerLiteral 2)], 2);
   ([ExpressionStatement (InfixExpression "+" (IntegerLiteral 1) (IntegerLiteral 2))], 3)].

(** [let five = 5; let ten = 10; five + ten] *)
Definition five_plus_ten : list Statement :=
  [LetStatement "five" (IntegerLiteral 5);
   LetStatement "ten" (IntegerLiteral 10);
   ExpressionStatement (InfixExpression "+" (Identifier "five") (Identifier "ten"))].

(** The bytecode of [five_plus_ten]: two constants, and
    [OpConstant 0; OpSetGlobal 0; OpConstant 1; OpSetGlobal 1; OpGetGlobal 0;
    OpGetGlobal 1; OpAdd; OpPop]. *)
Definition five_plus_ten_bytecode : compiler.Bytecode :=
  compiler.mkBytecode
    [0; 0; 0; 16; 0; 0; 0; 0; 1; 16; 0; 1; 17; 0; 0; 17; 0; 1; 2; 1]
    [Integer 5; Integer 10].

(** [let x = 5; if (x > 3) { x + 1 } else { 0 }] *)
Definition five_if_greater : list Statement :=
  [LetStatement "x" (IntegerLiteral 5);
   ExpressionStatement
     (IfExpression (InfixExpression ">" (Identifier "x") (IntegerLiteral 3))
        [ExpressionStatement (InfixExpression "+" (Identifier "x") (IntegerLiteral 1))]
        (Some [ExpressionStatement (IntegerLiteral 0)]))].

(** The bytecode of [five_if_greater]: four constants, and
    [OpConstant 0; OpSetGlobal 0; OpGetGlobal 0; OpConstant 1; OpGreaterThan;
    OpJumpNotTruthy 26; OpGetGlobal 0; OpConstant 2; OpAdd; OpJump 29;
    OpConstant 3; OpPop]. *)
Definition five_if_greater_bytecode : compiler.Bytecode :=
  compiler.mkBytecode
    [0; 0; 0; 16; 0; 0; 17; 0; 0; 0; 0; 1; 11; 14; 0; 26; 17; 0; 0;
     0; 0; 2; 2; 15; 0; 29; 0; 0; 3; 1]
    [Integer 5; Integer 3; Integer 1; Integer 0].

End samples.

(** * Properties *)

(** ** The evaluator's operators and value model *)

Module evaluator_facts.
Import golang ast object evaluator samples.

Lemma bind_Ret {A B} (m : M A) (k : A -> M B) h a h' :
  m h = (Ret a, h') -> bind m k h = k a h'.
Proof. intros E. unfold bind. now rewrite E. Qed.

Lemma bind_Panic {A B} (m : M A) (k : A -> M B) h r h' :
  m h = (Panic r, h') -> bind m k h = (Panic r, h').
Proof. intros E. unfold bind. now rewrite E. Qed.

Lemma isError_Error msg : isError (Some (Error msg)) = true.
Proof. reflexivity. Qed.

Lemma isError_true_inv v : isError v = true -> exists msg, v = Some (Error msg).
Proof.
  destruct v as [[]|]; simpl; intros H; try discriminate; eauto.
Qed.

Lemma Eval_S builtins fuel node env :
  Eval builtins (S fuel) node env = Eval_switch builtins (Eval builtins fuel) node env.
Proof. reflexivity. Qed.

(** What [-] does to an operand, as a function of the operand alone. *)
Lemma minus_operand (r : Object) :
  evalPrefixExpression "-" (Some r)
  = Ret match r with
        | Integer i => Integer (int64_wrap (- i))
        | _ => Error ("unknown operator: -" +:+ ObjectType_String (Type_ r))
        end.
Proof.
  unfold evalPrefixExpression; simpl.
  destruct r; reflexivity.
Qed.

(** C4, as stated, fails: the operand [1.5] of [-] is not negated, the
    result is an [Error]. *)
Lemma minus_float_is_error :
  Eval no_builtins 2 (Expr (PrefixExpression "-" (FloatLiteral one_and_a_half)))
    env0 heap0
  = (Ret (Some (Error "unknown operator: -FLOAT")), heap0)
  /\ Some (Error "unknown operator: -FLOAT")
     <> Some (Float (float_neg one_and_a_half)).
Proof. split; [reflexivity | discriminate]. Qed.

(** C4 (amended): for a prefix expression [-x], if [x] evaluates to an
    [Integer] the result is that integer negated, with the wrap-around of
    [int64]; if [x] evaluates to a value of any other type [T] that is not
    an [Error] -- a [Float] too -- the result is
    [Error("unknown operator: -T")]. *)
Theorem minus_prefix_expression builtins fuel x env h r h'
    (Hx : Eval builtins fuel (Expr x) env h = (Ret (Some r), h'))
    (Hr : Type_ r <> ERROR) :
  Eval builtins (S fuel) (Expr (PrefixExpression "-" x)) env h
  = (Ret (Some match r with
               | Integer i => Integer (int64_wrap (- i))
               | _ => Error ("unknown operator: -" +:+ ObjectType_String (Type_ r))
               end), h').
Proof.
  rewrite Eval_S. cbn [Eval_switch].
  rewrite (bind_Ret _ _ _ _ _ Hx).
  assert (isError (Some r) = false) as ->.
  { simpl. now apply bool_decide_eq_false. }
  unfold lift, bind. now rewrite minus_operand.
Qed.

Lemma minus_prefix_expression_witness :
  Eval no_builtins 2 (Expr (PrefixExpression "-" (IntegerLiteral 5)))
    env0 heap0
  = (Ret (Some (Integer (-5))), heap0)
  /\ Eval no_builtins 2 (Expr (PrefixExpression "-" (ast.Bool true)))
       env0 heap0
     = (Ret (Some (Error "unknown operator: -BOOL")), heap0).
Proof.
  split.
  - apply (minus_prefix_expression no_builtins 1 (IntegerLiteral 5) env0
             heap0 (Integer 5) heap0); [reflexivity | discriminate].
  - apply (minus_prefix_expression no_builtins 1 (ast.Bool true) env0
             heap0 (object.Bool true) heap0); [reflexivity | discriminate].
Defined.

End evaluator_facts.

(** ** Hash keys, hash printing, arity *)

Module hash_and_call_facts.
Import golang ast object evaluator samples evaluator_facts.

(** Looking a key up in a hash does check [Hashable]: any key that is not an
    [Integer], a [Bool] or a [String] is refused with an [Error]. *)
Lemma hash_index_rejects_unhashable pairs (key : Object) :
  Hashable key = false ->
  evalHashIndexExpression pairs (Some key)
  = Ret (Some (Error ("unusable as hash key: " +:+ ObjectType_String (Type_ key)))).
Proof. intros H. unfold evalHashIndexExpression. now rewrite H. Qed.

(** C5: the code at the failing inputs.  A hash literal whose key is a
    function, an array, [Null] or a [Float] evaluates to a [Hash] holding
    that key, not to an [Error]; only a key that is itself a [Hash] is
    refused, through the recovered run-time panic. *)
Theorem hash_literal_accepts_unhashable_keys :
  run no_builtins 4 [ExpressionStatement (HashLiteral [(FunctionLiteral [] [], IntegerLiteral 1)])]
  = Ret (Some (Hash [(Some (Function 0 [] [] env0), Some (Integer 1))]))
  /\ run no_builtins 5 [ExpressionStatement (HashLiteral [(ArrayLiteral [IntegerLiteral 7], IntegerLiteral 1)])]
     = Ret (Some (Hash [(Some (Array 0 [Some (Integer 7)]), Some (Integer 1))]))
  /\ run no_builtins 5 [ExpressionStatement (HashLiteral [(IfExpression (ast.Bool false) [] None, IntegerLiteral 1)])]
     = Ret (Some (Hash [(Some Null, Some (Integer 1))]))
  /\ run no_builtins 4 [ExpressionStatement (HashLiteral [(FloatLiteral one_and_a_half, IntegerLiteral 1)])]
     = Ret (Some (Hash [(Some (Float one_and_a_half), Some (Integer 1))]))
  /\ run no_builtins 5 [ExpressionStatement (HashLiteral [(HashLiteral [], IntegerLiteral 1)])]
     = Ret (Some (Error "unhashable key: runtime error: hash of unhashable type object.Hash")).
Proof. repeat split; reflexivity. Qed.

Lemma append_cons x (a b : string) :
  String.String x a +:+ b = String.String x (a +:+ b).
Proof. reflexivity. Qed.

Lemma append_assoc (a b c : string) : (a +:+ b) +:+ c = a +:+ b +:+ c.
Proof.
  induction a as [|x a IH]; [reflexivity|]. now rewrite !append_cons, IH.
Qed.

Lemma length_append (a b : string) :
  String.length (a +:+ b) = (String.length a + String.length b)%nat.
Proof.
  induction a as [|x a IH]; [reflexivity|]. rewrite append_cons. simpl. now rewrite IH.
Qed.

(** Joining with [", "] makes a string longer than joining with nothing, by
    two characters for each pair after the first. *)
Lemma length_concat_separator rendered :
  String.length (String.concat ", " rendered)
  = (String.length (String.concat "" rendered) + 2 * (length rendered - 1))%nat.
Proof.
  induction rendered as [|s rest IH]; [reflexivity|].
  destruct rest as [|s' rest]; [simpl; lia|].
  change (String.concat ", " (s :: s' :: rest))
    with (s +:+ ", " +:+ String.concat ", " (s' :: rest)).
  change (String.concat "" (s :: s' :: rest))
    with (s +:+ "" +:+ String.concat "" (s' :: rest)).
  rewrite !length_append, IH. simpl. lia.
Qed.

Section Inspect.
Variable format_float : float64 -> string.
Variable Identifier_String : string -> string.
Variable BlockStatement_String : list Statement -> string.

(** What [Hash.Inspect] prints: the pairs one after the other. *)
Lemma Hash_Inspect_concat pairs rendered :
  Forall2 (renders format_float Identifier_String BlockStatement_String) pairs rendered ->
  Inspect format_float Identifier_String BlockStatement_String (Hash pairs)
  = Ret ("{" +:+ String.concat "" rendered +:+ "}").
Proof.
  intros H. simpl. generalize "{" as out.
  induction H as [|[k v] s pairs rendered (ks & vs & Hk & Hv & ->) _ IH]; intros out.
  - reflexivity.
  - simpl in Hk, Hv. rewrite Hk, Hv, IH. f_equal.
    destruct rendered as [|s' rest].
    + simpl. now rewrite !append_assoc.
    + change (String.concat "" ((ks +:+ ": " +:+ vs) :: s' :: rest))
        with ((ks +:+ ": " +:+ vs) +:+ "" +:+ String.concat "" (s' :: rest)).
      now rewrite !append_assoc.
Qed.

(** C7: the code against the specification.  [Hash.Inspect] writes the pairs
    of a hash one after the other, each as key, [": "], value, with nothing
    between consecutive pairs: the string it returns is the one the
    specification describes for a hash of at most one pair, and never for a
    hash of two pairs or more. *)
Theorem Hash_Inspect_omits_separator pairs rendered
    (Hrendered : Forall2 (renders format_float Identifier_String BlockStatement_String)
                   pairs rendered) :
  Inspect format_float Identifier_String BlockStatement_String (Hash pairs)
  = Ret ("{" +:+ String.concat "" rendered +:+ "}")
  /\ ((length pairs <= 1)%nat ->
      Inspect format_float Identifier_String BlockStatement_String (Hash pairs)
      = Ret (Hash_Inspect_spec rendered))
  /\ ((2 <= length pairs)%nat ->
      Inspect format_float Identifier_String BlockStatement_String (Hash pairs)
      <> Ret (Hash_Inspect_spec rendered)).
Proof.
  pose proof (Forall2_length _ _ _ Hrendered) as Hlen.
  rewrite (Hash_Inspect_concat _ _ Hrendered).
  split; [reflexivity|]. split; intros Hn.
  - destruct rendered as [|s [|s' rest]]; simpl in *; try reflexivity; lia.
  - intros Heq. injection Heq as Heq. apply (f_equal String.length) in Heq.
    unfold Hash_Inspect_spec in Heq.
    rewrite !length_append, length_concat_separator in Heq. lia.
Qed.

End Inspect.

Lemma Hash_Inspect_omits_separator_witness :
  Inspect format_float_stub Identifier_String_stub BlockStatement_String_stub
    (Hash [(Some (Integer 1), Some (Integer 2)); (Some (Integer 3), Some (Integer 4))])
  = Ret "{1: 23: 4}"
  /\ Inspect format_float_stub Identifier_String_stub BlockStatement_String_stub
       (Hash [(Some (Integer 1), Some (Integer 2)); (Some (Integer 3), Some (Integer 4))])
     <> Ret (Hash_Inspect_spec ["1: 2"; "3: 4"])
  /\ Hash_Inspect_spec ["1: 2"; "3: 4"] = "{1: 2, 3: 4}"
  /\ Inspect format_float_stub Identifier_String_stub BlockStatement_String_stub
       (Array 0 [Some (Integer 1); Some (Integer 2)])
     = Ret "[1, 2]".
Proof.
  assert (Hr : Forall2 (renders format_float_stub Identifier_String_stub BlockStatement_String_stub)
                 [(Some (Integer 1), Some (Integer 2)); (Some (Integer 3), Some (Integer 4))]
                 ["1: 2"; "3: 4"]).
  { repeat constructor; eexists _, _; repeat split; reflexivity. }
  destruct (Hash_Inspect_omits_separator _ _ _ _ _ Hr) as (H1 & _ & H2).
  split; [exact H1|]. split; [apply H2; simpl; lia|]. split; reflexivity.
Defined.

(** Binding parameters reads [args] at the positions of the parameters
    only. *)
Lemma bindParameters_take env params : forall idx args h,
  (idx + length params <= length args)%nat ->
  bindParameters env idx params args h
  = bindParameters env idx params (take (idx + length params) args) h.
Proof.
  induction params as [|p ps IH]; intros idx args h Hlen; [reflexivity|].
  simpl in *.
  rewrite (lookup_take_lt args (idx + S (length ps)) idx) by lia.
  destruct (args !! idx) as [a|] eqn:Ea; [|apply lookup_ge_None_1 in Ea; lia].
  unfold bind. destruct (Set_ env p a h) as [[| |] h1]; try reflexivity.
  rewrite IH by lia.
  rewrite (IH (S idx) (take _ _)) by (rewrite length_take; lia).
  rewrite take_take. do 2 f_equal. lia.
Qed.

Lemma bindParameters_short env params : forall idx args h,
  (idx <= length args < idx + length params)%nat ->
  exists h', bindParameters env idx params args h
             = (Panic (index_out_of_range (length args) (length args)), h').
Proof.
  induction params as [|p ps IH]; intros idx args h Hlen; simpl in *; [lia|].
  destruct (args !! idx) as [a|] eqn:Ea.
  - apply lookup_lt_Some in Ea.
    unfold bind. destruct (Set_ env p a h) as [o h1] eqn:ES.
    unfold Set_ in ES. destruct env. inversion ES; subst.
    apply IH. lia.
  - apply lookup_ge_None_1 in Ea.
    replace idx with (length args) by lia. eexists. reflexivity.
Qed.

Lemma extendFunctionEnv_take params fnEnv args h :
  (length params <= length args)%nat ->
  extendFunctionEnv params fnEnv args h
  = extendFunctionEnv params fnEnv (take (length params) args) h.
Proof.
  intros Hlen. unfold extendFunctionEnv, NewEnclosedEnvironment, bind.
  now rewrite bindParameters_take by (simpl; lia).
Qed.

Lemma extendFunctionEnv_short params fnEnv args h :
  (length args < length params)%nat ->
  exists h', extendFunctionEnv params fnEnv args h
             = (Panic (index_out_of_range (length args) (length args)), h').
Proof.
  intros Hlen. unfold extendFunctionEnv, NewEnclosedEnvironment, bind.
  destruct (bindParameters_short (Env (length (stores h)) (Some fnEnv)) params 0 args
              (mkHeap (stores h ++ [∅]) (nextPtr h))) as [h' E]; [lia|].
  rewrite E. eauto.
Qed.

(** C9: applying a user-defined function to fewer arguments than it has
    parameters panics on the out-of-range read [args[paramIdx]]: the call
    returns nothing, neither an [Error] nor a result computed with [Null]
    for the missing arguments.  Arguments beyond the parameters are never
    read: the call behaves as on the first [len(Parameters)] of them. *)
Theorem applyFunction_arity builtins ev ptr params body fnEnv args h :
  ((length args < length params)%nat ->
   exists h', applyFunction builtins ev (Some (Function ptr params body fnEnv)) args h
              = (Panic (index_out_of_range (length args) (length args)), h'))
  /\ ((length params <= length args)%nat ->
      applyFunction builtins ev (Some (Function ptr params body fnEnv)) args h
      = applyFunction builtins ev (Some (Function ptr params body fnEnv))
          (take (length params) args) h).
Proof.
  split; intros Hlen; unfold applyFunction.
  - destruct (extendFunctionEnv_short params fnEnv args h Hlen) as [h' E].
    exists h'. now apply bind_Panic.
  - unfold bind at 1 3. now rewrite <- extendFunctionEnv_take.
Qed.

Lemma applyFunction_arity_witness :
  (exists h', applyFunction no_builtins (Eval no_builtins 3)
                (Some (Function 0 ["a"; "b"] [] env0)) [Some (Integer 1)] heap0
              = (Panic "runtime error: index out of range [1] with length 1", h'))
  /\ applyFunction no_builtins (Eval no_builtins 3)
       (Some (Function 0 ["a"] [ExpressionStatement (Identifier "a")] env0))
       [Some (Integer 1); Some (Integer 2)] heap0
     = applyFunction no_builtins (Eval no_builtins 3)
         (Some (Function 0 ["a"] [ExpressionStatement (Identifier "a")] env0))
         [Some (Integer 1)] heap0.
Proof.
  split.
  - apply (proj1 (applyFunction_arity no_builtins (Eval no_builtins 3) 0%nat
                    ["a"; "b"] [] env0 [Some (Integer 1)] heap0)).
    simpl. lia.
  - apply (proj2 (applyFunction_arity no_builtins (Eval no_builtins 3) 0%nat
                    ["a"] [ExpressionStatement (Identifier "a")] env0
                    [Some (Integer 1); Some (Integer 2)] heap0)).
    simpl. lia.
Defined.

End hash_and_call_facts.

(** ** Statements, programs and the return sentinel *)

Module program_facts.
Import golang ast object evaluator samples evaluator_facts.

Section Loops.
Variable ev : Node -> Environment -> M (option Object).

(** Statements that run through leave the loop of [evalProgram] at the
    statements after them, with some intermediate result. *)
Lemma evalProgram_from_runsThrough pre rest env : forall r h h1,
  runsThrough ev pre env h = Some h1 ->
  exists r', evalProgram_from ev (pre ++ rest) env r h
             = evalProgram_from ev rest env r' h1.
Proof.
  induction pre as [|s pre IH]; intros r h h1 Hrun; simpl in *.
  - inversion Hrun; subst. eauto.
  - unfold bind. destruct (ev (Stmt s) env h) as [[[o|]| |] h'] eqn:Es; try discriminate.
    + destruct o; try discriminate; eapply IH; eassumption.
    + eapply IH; eassumption.
Qed.

(** The same for the loop of [evalBlockStatement]. *)
Lemma evalBlockStatement_from_runsThrough pre rest env : forall r h h1,
  runsThrough ev pre env h = Some h1 ->
  exists r', evalBlockStatement_from ev (pre ++ rest) env r h
             = evalBlockStatement_from ev rest env r' h1.
Proof.
  induction pre as [|s pre IH]; intros r h h1 Hrun; simpl in *.
  - inversion Hrun; subst. eauto.
  - unfold bind. destruct (ev (Stmt s) env h) as [[[o|]| |] h'] eqn:Es; try discriminate.
    + destruct o; try discriminate; simpl; eapply IH; eassumption.
    + eapply IH; eassumption.
Qed.


End Loops.




(** C10, as stated, fails: a program whose last statement is a [let] with a
    right-hand side that is not an [Error] need not evaluate to nil, because
    [evalProgram] returns at the first statement that yields a [ReturnValue]
    or an [Error] and never reaches the [let]: [return 1; let x = 2]
    evaluates to [1], and [nope; let x = 2] to the error of the unbound
    identifier.  (The right-hand side [2] evaluates to [Integer 2].) *)
Lemma let_not_reached :
  (exists pre, return_then_let = (pre ++ [LetStatement "x" (IntegerLiteral 2)])%list)
  /\ (exists pre, error_then_let = (pre ++ [LetStatement "x" (IntegerLiteral 2)])%list)
  /\ Eval no_builtins 1 (Expr (IntegerLiteral 2)) env0 heap0
     = (Ret (Some (Integer 2)), heap0)
  /\ isError (Some (Integer 2)) = false
  /\ run no_builtins 3 return_then_let = Ret (Some (Integer 1))
  /\ run no_builtins 3 error_then_let
     = Ret (Some (Error "identifier not found: nope")).
Proof.
  split; [now exists [ReturnStatement (IntegerLiteral 1)]|].
  split; [now exists [ExpressionStatement (Identifier "nope")]|].
  repeat split; reflexivity.
Qed.

(** C10 (amended): a [let] statement whose right-hand side is not an [Error]
    binds the name and yields nil, not the [Null] object; a program whose
    earlier statements all run through (none panics or yields a
    [ReturnValue] or an [Error]) and whose last statement is such a [let]
    yields nil, and calling [Inspect] on a nil result panics. *)
Theorem let_statement_yields_nil builtins fuel pre name value env h h1 val h2
    (Hpre : runsThrough (Eval builtins (S fuel)) pre env h = Some h1)
    (Hval : Eval builtins fuel (Expr value) env h1 = (Ret val, h2))
    (Hok : isError val = false) :
  Eval builtins (S fuel) (Stmt (LetStatement name value)) env h1
  = (Ret None, snd (Set_ env name val h2))
  /\ Eval builtins (S (S fuel)) (Program (pre ++ [LetStatement name value])) env h
     = (Ret None, snd (Set_ env name val h2))
  /\ (forall format_float Identifier_String BlockStatement_String,
        iface_call (Inspect format_float Identifier_String BlockStatement_String) None
        = Panic nil_dereference).
Proof.
  assert (Hlet : Eval builtins (S fuel) (Stmt (LetStatement name value)) env h1
                 = (Ret None, snd (Set_ env name val h2))).
  { rewrite Eval_S. cbn [Eval_switch]. rewrite (bind_Ret _ _ _ _ _ Hval), Hok.
    unfold bind, Set_, ret. now destruct env. }
  split; [exact Hlet | split; [|reflexivity]].
  rewrite Eval_S. cbn [Eval_switch]. unfold evalProgram.
  destruct (evalProgram_from_runsThrough _ pre [LetStatement name value] env None h h1 Hpre)
    as [r' ->].
  simpl. now rewrite (bind_Ret _ _ _ _ _ Hlet).
Qed.

Lemma let_statement_yields_nil_witness :
  Eval no_builtins 2 (Stmt (LetStatement "x" (IntegerLiteral 2))) env0 heap0
  = (Ret None, snd (Set_ env0 "x" (Some (Integer 2)) heap0))
  /\ Eval no_builtins 3 (Program ends_in_let) env0 heap0
     = (Ret None, snd (Set_ env0 "x" (Some (Integer 2)) heap0))
  /\ (forall format_float Identifier_String BlockStatement_String,
        iface_call (Inspect format_float Identifier_String BlockStatement_String) None
        = Panic nil_dereference).
Proof.
  apply (let_statement_yields_nil no_builtins 1 [ExpressionStatement (IntegerLiteral 1)]
           "x" (IntegerLiteral 2) env0 heap0 heap0 (Some (Integer 2)) heap0);
    reflexivity.
Defined.

End program_facts.

(** ** Error containment *)

Module error_facts.
Import golang ast object evaluator samples evaluator_facts program_facts.

Section Loops.
Variable ev : Node -> Environment -> M (option Object).

(** Expressions that evaluate without an [Error] leave the loop of
    [evalExpressions] at the expressions after them. *)
Lemma evalExpressions_from_app pre rest env : forall acc h vs h1,
  evalExpressions_from ev pre env acc h = (Ret vs, h1) ->
  Forall (fun v => isError v = false) vs ->
  evalExpressions_from ev (pre ++ rest) env acc h
  = evalExpressions_from ev rest env vs h1.
Proof.
  induction pre as [|e pre IH]; intros acc h vs h1 Hev Hok; simpl in *.
  - now inversion Hev.
  - unfold bind in *.
    destruct (ev (Expr e) env h) as [[v| |] h'] eqn:Ee; try discriminate.
    destruct (isError v) eqn:Ev.
    + inversion Hev; subst. inversion Hok; subst. congruence.
    + now apply IH.
Qed.

Lemma evalExpressions_from_Error e rest env acc h msg h' :
  ev (Expr e) env h = (Ret (Some (Error msg)), h') ->
  evalExpressions_from ev (e :: rest) env acc h = (Ret [Some (Error msg)], h').
Proof. intros He. simpl. now rewrite (bind_Ret _ _ _ _ _ He). Qed.

Lemma evalExpressions_Error pre e post env h0 vs h msg h' :
  evalExpressions ev pre env h0 = (Ret vs, h) ->
  Forall (fun v => isError v = false) vs ->
  ev (Expr e) env h = (Ret (Some (Error msg)), h') ->
  evalExpressions ev (pre ++ e :: post) env h0 = (Ret [Some (Error msg)], h').
Proof.
  intros Hpre Hok He. unfold evalExpressions in *.
  rewrite (evalExpressions_from_app pre (e :: post) env [] h0 vs h Hpre Hok).
  now apply evalExpressions_from_Error.
Qed.

(** Pairs that evaluate to a hash leave the loop of [evalHashLiteral] at the
    pairs after them. *)
Lemma evalHashLiteral_from_app pre rest env : forall m0 h m h1,
  evalHashLiteral_from ev pre env m0 h = (Ret (Some (Hash m)), h1) ->
  evalHashLiteral_from ev (pre ++ rest) env m0 h
  = evalHashLiteral_from ev rest env m h1.
Proof.
  induction pre as [|[k v] pre IH]; intros m0 h m h1 Hev; simpl in *.
  - now inversion Hev.
  - unfold bind in *.
    destruct (ev (Expr k) env h) as [[key| |] ha] eqn:Ek; try discriminate.
    destruct (isError key) eqn:Ekey.
    { inversion Hev; subst. discriminate. }
    destruct (ev (Expr v) env ha) as [[value| |] hb] eqn:Ev; try discriminate.
    destruct (isError value) eqn:Evalue.
    { inversion Hev; subst. discriminate. }
    unfold lift in *. destruct (map_assign m0 key value); try discriminate.
    now apply IH.
Qed.

Lemma evalHashLiteral_inv pairs env h m h1 :
  evalHashLiteral ev pairs env h = (Ret (Some (Hash m)), h1) ->
  evalHashLiteral_from ev pairs env [] h = (Ret (Some (Hash m)), h1).
Proof.
  unfold evalHashLiteral, recover.
  destruct (evalHashLiteral_from ev pairs env [] h) as [[o| |] h']; intros H;
    try discriminate; exact H.
Qed.

End Loops.

(** C3: an [Error] that a subexpression evaluates to is the value of the
    enclosing expression, unchanged: for the operand of a prefix operator,
    either operand of an infix operator, the callee and any argument of a
    call, any element of an array literal, any key or value of a hash
    literal, either operand of an index expression and the condition of an
    [if]; the statement that holds the expression yields it, the block or
    program that holds the statement ends with it, and so does the call of
    a function whose body yields it.  (Subexpressions evaluated before the
    failing one are those that did not fail.) *)
Theorem error_containment builtins fuel e env h msg h'
    (He : Eval builtins fuel (Expr e) env h = (Ret (Some (Error msg)), h')) :
  (forall op,
      Eval builtins (S fuel) (Expr (PrefixExpression op e)) env h
      = (Ret (Some (Error msg)), h'))
  /\ (forall op r,
        Eval builtins (S fuel) (Expr (InfixExpression op e r)) env h
        = (Ret (Some (Error msg)), h'))
  /\ (forall op l h0 lv,
        Eval builtins fuel (Expr l) env h0 = (Ret lv, h) -> isError lv = false ->
        Eval builtins (S fuel) (Expr (InfixExpression op l e)) env h0
        = (Ret (Some (Error msg)), h'))
  /\ (forall args,
        Eval builtins (S fuel) (Expr (CallExpression e args)) env h
        = (Ret (Some (Error msg)), h'))
  /\ (forall f pre post h0 fv h1 vs,
        Eval builtins fuel (Expr f) env h0 = (Ret fv, h1) -> isError fv = false ->
        evalExpressions (Eval builtins fuel) pre env h1 = (Ret vs, h) ->
        Forall (fun v => isError v = false) vs ->
        Eval builtins (S fuel) (Expr (CallExpression f (pre ++ e :: post))) env h0
        = (Ret (Some (Error msg)), h'))
  /\ (forall pre post h0 vs,
        evalExpressions (Eval builtins fuel) pre env h0 = (Ret vs, h) ->
        Forall (fun v => isError v = false) vs ->
        Eval builtins (S fuel) (Expr (ArrayLiteral (pre ++ e :: post))) env h0
        = (Ret (Some (Error msg)), h'))
  /\ (forall pre v post h0 m,
        evalHashLiteral (Eval builtins fuel) pre env h0 = (Ret (Some (Hash m)), h) ->
        Eval builtins (S fuel) (Expr (HashLiteral (pre ++ (e, v) :: post))) env h0
        = (Ret (Some (Error msg)), h'))
  /\ (forall pre k post h0 m h1 kv,
        evalHashLiteral (Eval builtins fuel) pre env h0 = (Ret (Some (Hash m)), h1) ->
        Eval builtins fuel (Expr k) env h1 = (Ret kv, h) -> isError kv = false ->
        Eval builtins (S fuel) (Expr (HashLiteral (pre ++ (k, e) :: post))) env h0
        = (Ret (Some (Error msg)), h'))
  /\ (forall i,
        Eval builtins (S fuel) (Expr (IndexExpression e i)) env h
        = (Ret (Some (Error msg)), h'))
  /\ (forall l h0 lv,
        Eval builtins fuel (Expr l) env h0 = (Ret lv, h) -> isError lv = false ->
        Eval builtins (S fuel) (Expr (IndexExpression l e)) env h0
        = (Ret (Some (Error msg)), h'))
  /\ (forall consequence alternative,
        Eval builtins (S fuel) (Expr (IfExpression e consequence alternative)) env h
        = (Ret (Some (Error msg)), h'))
  /\ Eval builtins (S fuel) (Stmt (ExpressionStatement e)) env h
     = (Ret (Some (Error msg)), h')
  /\ (forall name,
        Eval builtins (S fuel) (Stmt (LetStatement name e)) env h
        = (Ret (Some (Error msg)), h'))
  /\ Eval builtins (S fuel) (Stmt (ReturnStatement e)) env h
     = (Ret (Some (Error msg)), h')
  /\ (forall pre post h0,
        runsThrough (Eval builtins (S fuel)) pre env h0 = Some h ->
        Eval builtins (S (S fuel)) (Stmt (BlockStatement (pre ++ ExpressionStatement e :: post))) env h0
        = (Ret (Some (Error msg)), h')
        /\ Eval builtins (S (S fuel)) (Program (pre ++ ExpressionStatement e :: post)) env h0
           = (Ret (Some (Error msg)), h'))
  /\ (forall ptr params fnEnv args h0 h1 pre post,
        extendFunctionEnv params fnEnv args h0 = (Ret env, h1) ->
        runsThrough (Eval builtins (S fuel)) pre env h1 = Some h ->
        applyFunction builtins (Eval builtins (S (S fuel)))
          (Some (Function ptr params (pre ++ ExpressionStatement e :: post) fnEnv))
          args h0
        = (Ret (Some (Error msg)), h')).
Proof.
  assert (Hstmt : Eval builtins (S fuel) (Stmt (ExpressionStatement e)) env h
                  = (Ret (Some (Error msg)), h')) by exact He.
  repeat match goal with |- _ /\ _ => split end.
  - intros op. rewrite Eval_S. cbn [Eval_switch].
    now rewrite (bind_Ret _ _ _ _ _ He).
  - intros op r. rewrite Eval_S. cbn [Eval_switch].
    now rewrite (bind_Ret _ _ _ _ _ He).
  - intros op l h0 lv Hl Hlv. rewrite Eval_S. cbn [Eval_switch].
    rewrite (bind_Ret _ _ _ _ _ Hl), Hlv. now rewrite (bind_Ret _ _ _ _ _ He).
  - intros args. rewrite Eval_S. cbn [Eval_switch].
    now rewrite (bind_Ret _ _ _ _ _ He).
  - intros f pre post h0 fv h1 vs Hf Hfv Hpre Hok. rewrite Eval_S. cbn [Eval_switch].
    rewrite (bind_Ret _ _ _ _ _ Hf), Hfv.
    now rewrite (bind_Ret _ _ _ _ _ (evalExpressions_Error _ pre e post env h1 vs h msg h' Hpre Hok He)).
  - intros pre post h0 vs Hpre Hok. rewrite Eval_S. cbn [Eval_switch].
    now rewrite (bind_Ret _ _ _ _ _ (evalExpressions_Error _ pre e post env h0 vs h msg h' Hpre Hok He)).
  - intros pre v post h0 m Hpre. rewrite Eval_S. cbn [Eval_switch].
    unfold evalHashLiteral, recover.
    rewrite (evalHashLiteral_from_app _ pre ((e, v) :: post) env [] h0 m h
               (evalHashLiteral_inv _ _ _ _ _ _ Hpre)).
    simpl. now rewrite (bind_Ret _ _ _ _ _ He).
  - intros pre k post h0 m h1 kv Hpre Hk Hkv. rewrite Eval_S. cbn [Eval_switch].
    unfold evalHashLiteral, recover.
    rewrite (evalHashLiteral_from_app _ pre ((k, e) :: post) env [] h0 m h1
               (evalHashLiteral_inv _ _ _ _ _ _ Hpre)).
    simpl. rewrite (bind_Ret _ _ _ _ _ Hk), Hkv.
    now rewrite (bind_Ret _ _ _ _ _ He).
  - intros i. rewrite Eval_S. cbn [Eval_switch].
    now rewrite (bind_Ret _ _ _ _ _ He).
  - intros l h0 lv Hl Hlv. rewrite Eval_S. cbn [Eval_switch].
    rewrite (bind_Ret _ _ _ _ _ Hl), Hlv. now rewrite (bind_Ret _ _ _ _ _ He).
  - intros c a. rewrite Eval_S. cbn [Eval_switch]. unfold evalIfExpression.
    now rewrite (bind_Ret _ _ _ _ _ He).
  - exact Hstmt.
  - intros name. rewrite Eval_S. cbn [Eval_switch].
    now rewrite (bind_Ret _ _ _ _ _ He).
  - rewrite Eval_S. cbn [Eval_switch]. now rewrite (bind_Ret _ _ _ _ _ He).
  - intros pre post h0 Hpre. split.
    + rewrite Eval_S. cbn [Eval_switch]. unfold evalBlockStatement.
      destruct (evalBlockStatement_from_runsThrough _ pre (ExpressionStatement e :: post)
                  env None h0 h Hpre) as [r' ->].
      simpl. now rewrite (bind_Ret _ _ _ _ _ Hstmt).
    + rewrite Eval_S. cbn [Eval_switch]. unfold evalProgram.
      destruct (evalProgram_from_runsThrough _ pre (ExpressionStatement e :: post)
                  env None h0 h Hpre) as [r' ->].
      simpl. now rewrite (bind_Ret _ _ _ _ _ Hstmt).
  - intros ptr params fnEnv args h0 h1 pre post Hext Hpre. unfold applyFunction.
    rewrite (bind_Ret _ _ _ _ _ Hext).
    assert (Hbody : Eval builtins (S (S fuel))
                      (Stmt (BlockStatement (pre ++ ExpressionStatement e :: post))) env h1
                    = (Ret (Some (Error msg)), h')).
    { rewrite Eval_S. cbn [Eval_switch]. unfold evalBlockStatement.
      destruct (evalBlockStatement_from_runsThrough _ pre (ExpressionStatement e :: post)
                  env None h1 h Hpre) as [r' ->].
      simpl. now rewrite (bind_Ret _ _ _ _ _ Hstmt). }
    now rewrite (bind_Ret _ _ _ _ _ Hbody).
Qed.

Lemma error_containment_witness :
  Eval no_builtins 2 (Expr (PrefixExpression "!" (Identifier "nope"))) env0 heap0
  = (Ret (Some (Error "identifier not found: nope")), heap0)
  /\ Eval no_builtins 2
       (Expr (InfixExpression "+" (IntegerLiteral 1) (Identifier "nope"))) env0 heap0
     = (Ret (Some (Error "identifier not found: nope")), heap0)
  /\ Eval no_builtins 2
       (Expr (CallExpression (IntegerLiteral 1) [IntegerLiteral 2; Identifier "nope"]))
       env0 heap0
     = (Ret (Some (Error "identifier not found: nope")), heap0)
  /\ Eval no_builtins 2
       (Expr (ArrayLiteral [IntegerLiteral 1; Identifier "nope"; IntegerLiteral 3]))
       env0 heap0
     = (Ret (Some (Error "identifier not found: nope")), heap0)
  /\ Eval no_builtins 2
       (Expr (HashLiteral [(IntegerLiteral 1, IntegerLiteral 2);
                           (IntegerLiteral 3, Identifier "nope")])) env0 heap0
     = (Ret (Some (Error "identifier not found: nope")), heap0)
  /\ Eval no_builtins 2
       (Expr (IndexExpression (IntegerLiteral 1) (Identifier "nope"))) env0 heap0
     = (Ret (Some (Error "identifier not found: nope")), heap0)
  /\ Eval no_builtins 3
       (Program [ExpressionStatement (IntegerLiteral 1);
                 ExpressionStatement (Identifier "nope");
                 ExpressionStatement (IntegerLiteral 2)]) env0 heap0
     = (Ret (Some (Error "identifier not found: nope")), heap0).
Proof.
  destruct (error_containment no_builtins 1 (Identifier "nope") env0 heap0
              "identifier not found: nope" heap0 eq_refl)
    as (Hprefix & _ & Hright & _ & Harg & Helem & _ & Hvalue & _ & Hindex & _ & _
        & _ & _ & Hprogram & _).
  repeat match goal with |- _ /\ _ => split end.
  - apply Hprefix.
  - apply (Hright "+" (IntegerLiteral 1) heap0 (Some (Integer 1)));
      reflexivity.
  - apply (Harg (IntegerLiteral 1) [IntegerLiteral 2] [] heap0 (Some (Integer 1))
             heap0 [Some (Integer 2)]); try reflexivity.
    repeat constructor.
  - apply (Helem [IntegerLiteral 1] [IntegerLiteral 3] heap0 [Some (Integer 1)]);
      try reflexivity.
    repeat constructor.
  - apply (Hvalue [(IntegerLiteral 1, IntegerLiteral 2)] (IntegerLiteral 3) [] heap0
             [(Some (Integer 1), Some (Integer 2))] heap0 (Some (Integer 3)));
      reflexivity.
  - apply (Hindex (IntegerLiteral 1) heap0 (Some (Integer 1))); reflexivity.
  - apply (Hprogram [ExpressionStatement (IntegerLiteral 1)]
             [ExpressionStatement (IntegerLiteral 2)] heap0).
    reflexivity.
Defined.

End error_facts.

(** ** Closures and shared environments *)

Module closure_facts.
Import golang ast object evaluator samples evaluator_facts.

(** A binding written into a live environment is what that environment
    holds from then on. *)
Lemma Get_Set_ l parent name val h :
  (l < length (stores h))%nat ->
  Get (snd (Set_ (Env l parent) name val h)) (Env l parent) name = Some val.
Proof.
  intros Hl. simpl. unfold store_lookup. simpl.
  rewrite list_lookup_alter_eq.
  destruct (lookup_lt_is_Some_2 (stores h) l Hl) as [st ->]. simpl.
  now rewrite lookup_insert_eq.
Qed.

(** Lookup through a chain of environments only reads the stores. *)
Lemma Get_agree h h' name : forall e,
  (forall l, store_lookup h' l name = store_lookup h l name) ->
  Get h' e name = Get h e name.
Proof.
  fix IH 1. intros [l parent] Hsame. simpl. rewrite Hsame.
  destruct (store_lookup h l name); [reflexivity|].
  destruct parent as [p|]; [|reflexivity]. now apply IH.
Qed.

(** Binding parameters succeeds when there are enough arguments; it writes
    only the store of the call frame, and only the parameters. *)
Lemma bindParameters_frame l parent params : forall idx args h,
  (idx + length params <= length args)%nat ->
  exists h', bindParameters (Env l parent) idx params args h = (Ret tt, h')
    /\ length (stores h') = length (stores h)
    /\ forall l' name, l' <> l \/ name ∉ params ->
         store_lookup h' l' name = store_lookup h l' name.
Proof.
  induction params as [|p ps IH]; intros idx args h Hlen; simpl in *.
  - exists h. repeat split.
  - destruct (lookup_lt_is_Some_2 args idx) as [a Ea]; [lia|]. rewrite Ea.
    unfold bind. simpl.
    destruct (IH (S idx) args
                (mkHeap (alter (fun st => <[p := a]> st) l (stores h)) (nextPtr h)))
      as (h' & Hb & Hlen' & Hsame); [lia|].
    exists h'. split; [exact Hb|]. split.
    + rewrite Hlen'. simpl. apply length_alter.
    + intros l' name Hor. rewrite Hsame.
      * unfold store_lookup. simpl.
        destruct (decide (l' = l)) as [->|Hne].
        -- rewrite list_lookup_alter_eq.
           destruct (stores h !! l) as [st|] eqn:Est; rewrite ?Est; simpl.
           ++ apply lookup_insert_ne. destruct Hor as [?|Hnot]; [congruence|].
              intros ->. apply Hnot. now left.
           ++ reflexivity.
        -- rewrite list_lookup_alter_ne by congruence. reflexivity.
      * destruct Hor as [?|Hnot]; [now left|]. right. intros Hin. apply Hnot. now right.
Qed.




End closure_facts.

(** ** The lexer *)

Module lexer_facts.
Import golang lexer.

(** Evaluate a function of the lexer state where its argument is closed. *)
Ltac run_closed f :=
  match goal with
  | |- context [f ?s] =>
      let v := eval vm_compute in (f s) in change (f s) with v
  end.

Ltac run_eqb :=
  match goal with
  | |- context [Z.eqb ?a ?b] =>
      let v := eval vm_compute in (Z.eqb a b) in change (Z.eqb a b) with v
  end.

Lemma readWhile_S cond fuel next s :
  readWhile cond (S fuel) next None s
  = if cond next
    then let '((next', err'), s') := readRune s in readWhile cond fuel next' err' s'
    else ((next, None), s).
Proof. reflexivity. Qed.

Ltac lex_run :=
  repeat first
    [ progress cbv beta iota zeta
    | rewrite readWhile_S
    | run_closed peek | run_closed readRune | run_closed loop_fuel
    | run_closed curLit | run_closed reset | run_closed lexFuncs | run_eqb
    | progress simpl orb
    | progress simpl negb
    | progress simpl fst
    | progress simpl snd ].

(** C6: the code at the failing input.  On the input [1e] the lexer reads
    the digit, takes [e] for an exponent marker, finds no digit after it and
    returns, without an error, a [FLOAT] token whose literal is [1e]; the
    whole input is consumed.  After a [.], by contrast, a missing digit is an
    error.  (The three predicates stand for the Unicode tables; the
    hypotheses say what they answer on the runes involved.) *)
Theorem exponent_without_digits IsDigit IsLetter IsSpace
    (Hdigit1 : IsDigit 49 = true) (Hdigite : IsDigit 101 = false)
    (Hdigitdot : IsDigit 46 = false) (Hdigit0 : IsDigit 0 = false)
    (Hletter1 : IsLetter 49 = false) (Hspace1 : IsSpace 49 = false) :
  fst (lexNumber IsDigit (initState "1e"))
  = (token.mkToken token.FLOAT "1e", None)
  /\ fst (lexNext IsDigit IsLetter IsSpace (initState "1e"))
     = (token.mkToken token.FLOAT "1e", None)
  /\ readPos (snd (lexNext IsDigit IsLetter IsSpace (initState "1e"))) = 2%nat
  /\ snd (fst (lexNumber IsDigit (initState "1."))) <> None.
Proof.
  unfold lexNext, skipWhitespace, readWhitespace, lexDefault, lexNumber,
    lexNumber_fraction, lexNumber_exponent, readDecimals, isLetter, isDecimal.
  repeat (lex_run; rewrite ?Hspace1, ?Hletter1, ?Hdigit1, ?Hdigite, ?Hdigitdot, ?Hdigit0).
  unfold lexNumber, lexNumber_fraction, lexNumber_exponent, readDecimals, isDecimal.
  repeat (lex_run; rewrite ?Hspace1, ?Hletter1, ?Hdigit1, ?Hdigite, ?Hdigitdot, ?Hdigit0).
  repeat split; discriminate.
Qed.

Lemma exponent_without_digits_witness :
  fst (lexNumber ascii_IsDigit (initState "1e"))
  = (token.mkToken token.FLOAT "1e", None)
  /\ fst (lexNext ascii_IsDigit ascii_IsLetter ascii_IsSpace (initState "1e"))
     = (token.mkToken token.FLOAT "1e", None)
  /\ readPos (snd (lexNext ascii_IsDigit ascii_IsLetter ascii_IsSpace (initState "1e")))
     = 2%nat
  /\ snd (fst (lexNumber ascii_IsDigit (initState "1."))) <> None.
Proof.
  apply (exponent_without_digits ascii_IsDigit ascii_IsLetter ascii_IsSpace);
    reflexivity.
Defined.

End lexer_facts.

(** ** The evaluator and the virtual machine *)

Module vm_facts.
Import golang ast object evaluator samples code compiler vm evaluator_facts.
Local Open Scope list_scope.

(** *** The evaluator's operators against the rules of the specification *)

Lemma coreValue_not_Error v : coreValue v = true -> isError (Some v) = false.
Proof. now destruct v. Qed.

Lemma go_eq_core l r :
  coreValue l = true -> coreValue r = true -> go_eq l r = Ret (spec_equal l r).
Proof. destruct l, r; simpl; intros; try discriminate; reflexivity. Qed.

Lemma integer_infix_agree operator a b v :
  evalIntegerInfixExpression operator a b = Ret v ->
  spec_integer_infix operator a b = Some v.
Proof.
  unfold evalIntegerInfixExpression, spec_integer_infix, spec_error, unknown_operator, newError.
  repeat match goal with
         | |- context [String.eqb operator ?s] => destruct (String.eqb operator s)
         end;
    try (destruct (Z.eqb b 0); [discriminate|]);
    intros H; inversion H; subst; try reflexivity.
  now rewrite Z.gtb_ltb.
Qed.

Lemma float_infix_agree operator f g :
  evalFloatInfixExpression operator f g = spec_float_infix operator f g.
Proof. reflexivity. Qed.

(** On operands of the fragment, an infix operator computes what the rules
    of the specification say whenever it returns (it panics on a division
    by zero, which the specification leaves open). *)
Lemma infix_agree operator l r v :
  coreValue l = true -> coreValue r = true ->
  evalInfixExpression operator (Some l) (Some r) = Ret v ->
  spec_infix operator l r = Some v.
Proof.
  intros Hl Hr.
  destruct l, r; try discriminate; simpl;
    try (apply integer_infix_agree);
    try (intros H; inversion H; subst; reflexivity);
    unfold spec_error, type_mismatch, unknown_operator, newError, evalStringInfixExpression;
    repeat match goal with
           | |- context [String.eqb operator ?s] => destruct (String.eqb operator s)
           end;
    simpl; intros H; inversion H; subst; reflexivity.
Qed.

Lemma infix_core operator l r v :
  coreValue l = true -> coreValue r = true ->
  evalInfixExpression operator (Some l) (Some r) = Ret v ->
  isError (Some v) = false -> coreValue v = true.
Proof.
  intros Hl Hr.
  destruct l, r; try discriminate; simpl;
    unfold evalIntegerInfixExpression, evalFloatInfixExpression,
      evalStringInfixExpression, type_mismatch, unknown_operator, newError;
    repeat match goal with
           | |- context [String.eqb operator ?s] => destruct (String.eqb operator s)
           end;
    simpl; try (destruct (Z.eqb _ 0)); intros H; inversion H; subst;
    simpl; intros; try discriminate; reflexivity.
Qed.

(** [<] is [>] on swapped operands, where the result is not an [Error]. *)
Lemma less_than_swapped l r v :
  coreValue l = true -> coreValue r = true ->
  evalInfixExpression "<" (Some l) (Some r) = Ret v ->
  isError (Some v) = false ->
  spec_infix ">" r l = Some v.
Proof.
  intros Hl Hr.
  destruct l, r; try discriminate; simpl; intros H; inversion H; subst;
    simpl; intros; try discriminate; reflexivity.
Qed.

Lemma prefix_agree operator op r v :
  prefixOpcode operator = Some op ->
  evalPrefixExpression operator (Some r) = Ret v ->
  isError (Some v) = false ->
  (if decide (op = OpMinus) then spec_minus r else spec_bang r) = v
  /\ coreValue v = true.
Proof.
  unfold prefixOpcode, evalPrefixExpression.
  destruct (String.eqb operator "!").
  - intros Hop H _. inversion Hop; subst. inversion H; subst. simpl.
    split; [|unfold evalBangOperatorExpression]; destruct r as [| |[]| | | | | | | |];
      reflexivity.
  - destruct (String.eqb operator "-"); [|discriminate].
    intros Hop H Hv. inversion Hop; subst. rewrite minus_operand in H.
    inversion H; subst. simpl. destruct r; try discriminate. split; reflexivity.
Qed.

(** *** The shape of compiled code *)

Lemma instructions_emit op operand c :
  instructions (emit op operand c) = instructions c ++ Make op operand.
Proof. reflexivity. Qed.

Lemma appends_refl c : appends c c [].
Proof. split; [now rewrite app_nil_r | split; reflexivity]. Qed.

Lemma appends_trans c1 c2 c3 code1 code2 :
  appends c1 c2 code1 -> appends c2 c3 code2 -> appends c1 c3 (code1 ++ code2).
Proof.
  intros (Hi1 & Hk1 & Hs1) (Hi2 & Hk2 & Hs2). split; [|split].
  - now rewrite Hi2, Hi1, app_assoc.
  - now transitivity (constants c2).
  - congruence.
Qed.

Lemma appends_emit op operand c : appends c (emit op operand c) (Make op operand).
Proof. split; [reflexivity | split; reflexivity]. Qed.

Lemma appends_emitConstant obj c :
  appends c (emitConstant obj c) (Make OpConstant (Z.of_nat (length (constants c)))).
Proof. split; [reflexivity | split; [now apply prefix_app_r | reflexivity]]. Qed.

Lemma compileExpression_If condition consequence alternative c :
  compileExpression (IfExpression condition consequence alternative) c
  = and_then (compileExpression condition c) (fun c =>
      let jumpNotTruthyPos := length (instructions c) in
      let c := emit OpJumpNotTruthy placeholder c in
      and_then (compileStatements consequence c) (fun c =>
        let c := removeLastPopIfAny c in
        let jumpPos := length (instructions c) in
        let c := emit OpJump placeholder c in
        let c := changeOperand jumpNotTruthyPos (Z.of_nat (length (instructions c))) c in
        and_then
          match alternative with
          | None => inr (emit OpNull 0 c)
          | Some alt =>
              and_then (compileStatements alt c) (fun c => inr (removeLastPopIfAny c))
          end
          (fun c => inr (changeOperand jumpPos (Z.of_nat (length (instructions c))) c)))).
Proof. reflexivity. Qed.

Lemma coreExpression_If condition consequence alternative :
  coreExpression (IfExpression condition consequence alternative)
  = coreExpression condition
    && (negb (bool_decide (consequence = [])) && coreBranch consequence)
    && match alternative with
       | None => true
       | Some alt => negb (bool_decide (alt = [])) && coreBranch alt
       end.
Proof. reflexivity. Qed.

Lemma stackNeed_If condition consequence alternative :
  stackNeed (IfExpression condition consequence alternative)
  = Nat.max (stackNeed condition)
      (Nat.max (branchNeed consequence)
         match alternative with
         | None => 1%nat
         | Some alt => branchNeed alt
         end).
Proof. reflexivity. Qed.

Lemma length_Make op x y : length (Make op x) = length (Make op y).
Proof. unfold Make. now destruct (operandWidth op) as [|[|[|]]]. Qed.

Lemma Lookup_byte_of op : Lookup (byte_of op) = Some op.
Proof. now destruct op. Qed.

(** Taking back the last [OpPop]. *)
Lemma removeLastPopIfAny_pop c code c' :
  appends c c' (code ++ Make OpPop 0) ->
  lastInstruction c' = Some (mkEmitted OpPop (length (instructions c) + length code)) ->
  appends c (removeLastPopIfAny c') code.
Proof.
  intros (Hi & Hk & Hs) Hlast.
  unfold removeLastPopIfAny, lastInstructionIs, removeLastPop. rewrite Hlast. simpl.
  split; [|split; assumption].
  simpl. rewrite Hi, app_assoc, <- length_app. now rewrite take_app_length.
Qed.

(** Back-patching rewrites the operand in place. *)
Lemma changeOperand_spec pos pre op x y post c :
  pos = length pre ->
  instructions c = pre ++ Make op x ++ post ->
  instructions (changeOperand pos y c) = pre ++ Make op y ++ post
  /\ constants (changeOperand pos y c) = constants c
  /\ symbolTable (changeOperand pos y c) = symbolTable c.
Proof.
  intros -> Hi. unfold changeOperand. rewrite Hi.
  assert ((pre ++ Make op x ++ post) !! length pre = Some (byte_of op)) as ->
    by (unfold Make; simpl; now apply list_lookup_middle).
  rewrite Lookup_byte_of. cbv zeta. split; [|split; reflexivity].
  cbn [instructions]. rewrite take_app_length. do 2 f_equal.
  rewrite drop_app_add, (length_Make op y x). now rewrite drop_app_length.
Qed.

Lemma branch_shape_intro stmts :
  stmts <> [] -> coreBranch stmts = true ->
  Forall (fun s => forall e, s = ExpressionStatement e ->
                             coreExpression e = true -> expression_shape e) stmts ->
  branch_shape stmts.
Proof.
  induction stmts as [|s rest IH]; intros Hne Hcore Hall; [congruence|].
  inversion Hall as [|? ? Hs Hrest]; subst. simpl in Hcore.
  destruct s as [| |e|]; try discriminate.
  apply andb_true_iff in Hcore as [Hcore1 Hcore2].
  intros c c' Hc. simpl in Hc.
  destruct (compileExpression e c) as [|c1] eqn:E1; [discriminate|]. simpl in Hc.
  destruct (Hs e eq_refl Hcore1 c c1 E1) as (code1 & Happ1).
  destruct rest as [|s' rest'].
  - inversion Hc; subst c'. exists code1. split.
    + apply (appends_trans _ _ _ _ _ Happ1), appends_emit.
    + simpl. destruct Happ1 as (-> & _). now rewrite length_app.
  - destruct (IH ltac:(discriminate) Hcore2 Hrest _ _ Hc) as (code2 & Happ2 & Hlast).
    exists (code1 ++ Make OpPop 0 ++ code2). split.
    + rewrite <- !app_assoc.
      apply (appends_trans _ _ _ _ _ Happ1).
      now apply (appends_trans _ (emit OpPop 0 c1) _ _ _ (appends_emit _ _ _)).
    + rewrite Hlast. do 2 f_equal. rewrite instructions_emit.
      destruct Happ1 as (-> & _). rewrite !length_app. simpl. lia.
Qed.

Lemma and_then_inr r k c' :
  and_then r k = inr c' -> exists c1, r = inr c1 /\ k c1 = inr c'.
Proof. destruct r as [|c1]; [discriminate|]. simpl. eauto. Qed.

Lemma length_Make_jump op x :
  operandWidth op = 2%nat -> length (Make op x) = 3%nat.
Proof. intros H. unfold Make. now rewrite H. Qed.

(** The code of a conditional: the condition, a jump over the consequence
    taken when the condition is falsy, the consequence without its last
    [OpPop], a jump over the alternative, and the alternative without its
    last [OpPop] (or [OpNull] when there is none); the targets of the jumps
    are the offsets after the second jump and after the alternative. *)
Lemma if_shape condition consequence alternative c c' :
  expression_shape condition -> branch_shape consequence ->
  match alternative with Some alt => branch_shape alt | None => True end ->
  compileExpression (IfExpression condition consequence alternative) c = inr c' ->
  exists c1 codeC c3 codeT c5 codeF,
    compileExpression condition c = inr c1 /\ appends c c1 codeC
    /\ compileStatements consequence (emit OpJumpNotTruthy placeholder c1) = inr c3
    /\ appends (emit OpJumpNotTruthy placeholder c1) c3 (codeT ++ Make OpPop 0)
    /\ length (instructions c5) = (length (instructions c1) + 3 + length codeT + 3)%nat
    /\ constants c5 = constants c3 /\ symbolTable c5 = symbolTable c
    /\ match alternative with
       | None => codeF = Make OpNull 0 /\ constants c' = constants c3
       | Some alt =>
           exists c6, compileStatements alt c5 = inr c6
                      /\ appends c5 c6 (codeF ++ Make OpPop 0)
                      /\ constants c' = constants c6
       end
    /\ appends c c'
         (codeC
          ++ Make OpJumpNotTruthy
               (Z.of_nat (length (instructions c1) + 3 + length codeT + 3))
          ++ codeT
          ++ Make OpJump
               (Z.of_nat (length (instructions c1) + 3 + length codeT + 3 + length codeF))
          ++ codeF).
Proof.
  intros Hcond Hcons Halt Hc. rewrite compileExpression_If in Hc.
  apply and_then_inr in Hc as (c1 & E1 & Hc). cbv zeta in Hc.
  destruct (Hcond _ _ E1) as (codeC & HappC).
  apply and_then_inr in Hc as (c3 & E3 & Hc). cbv zeta in Hc.
  destruct (Hcons _ _ E3) as (codeT & HappT & HlastT).
  pose proof (removeLastPopIfAny_pop _ _ _ HappT HlastT) as (Hi3 & Hk3 & Hs3).
  rewrite instructions_emit in Hi3.
  set (c3' := removeLastPopIfAny c3) in *.
  set (c4 := emit OpJump placeholder c3') in *.
  assert (Hi4 : instructions c4
                = instructions c1 ++ Make OpJumpNotTruthy placeholder
                  ++ codeT ++ Make OpJump placeholder).
  { unfold c4. rewrite instructions_emit, Hi3. now rewrite <- !app_assoc. }
  assert (Hlen4 : length (instructions c4)
                  = (length (instructions c1) + 3 + length codeT + 3)%nat).
  { rewrite Hi4, !length_app. simpl. lia. }
  destruct (changeOperand_spec (length (instructions c1)) _ _ _
              (Z.of_nat (length (instructions c4))) _ c4 eq_refl Hi4)
    as (Hi5 & Hk5 & Hs5).
  set (c5 := changeOperand (length (instructions c1))
               (Z.of_nat (length (instructions c4))) c4) in *.
  assert (Hlen5 : length (instructions c5) = length (instructions c4)).
  { rewrite Hi5, Hi4, !length_app. simpl. lia. }
  assert (Hk5' : constants c5 = constants c3).
  { rewrite Hk5. unfold c4, c3', removeLastPopIfAny, removeLastPop. simpl.
    destruct (lastInstructionIs OpPop c3); [|reflexivity].
    now destruct (lastInstruction c3). }
  assert (Hs5' : symbolTable c5 = symbolTable c).
  { rewrite Hs5. unfold c4. simpl. rewrite Hs3. simpl. now destruct HappC as (_ & _ & ->). }
  assert (Hpos : length (instructions c3')
                 = length (instructions c1 ++ Make OpJumpNotTruthy
                             (Z.of_nat (length (instructions c4))) ++ codeT)).
  { rewrite Hi3, !length_app. simpl. lia. }
  exists c1, codeC, c3, codeT, c5.
  destruct alternative as [alt|].
  - apply and_then_inr in Hc as (c6'' & Hc6 & Hc).
    apply and_then_inr in Hc6 as (c6 & E6 & Hc6).
    inversion Hc6; subst c6''. clear Hc6.
    destruct (Halt _ _ E6) as (codeF & HappF & HlastF).
    pose proof (removeLastPopIfAny_pop _ _ _ HappF HlastF) as (Hi6 & Hk6 & Hs6).
    set (c6' := removeLastPopIfAny c6) in *.
    assert (Hi6' : instructions c6'
                   = (instructions c1 ++ Make OpJumpNotTruthy
                        (Z.of_nat (length (instructions c4))) ++ codeT)
                     ++ Make OpJump placeholder ++ codeF).
    { rewrite Hi6, Hi5. now rewrite <- !app_assoc. }
    destruct (changeOperand_spec (length (instructions c3')) _ _ _
                (Z.of_nat (length (instructions c6'))) _ c6' Hpos Hi6')
      as (Hi7 & Hk7 & Hs7).
    inversion Hc; subst c'. clear Hc.
    exists codeF.
    split; [exact E1|]. split; [exact HappC|]. split; [exact E3|].
    split; [exact HappT|]. split; [lia|]. split; [exact Hk5'|].
    split; [exact Hs5'|]. split; [|split; [|split]].
    + exists c6. split; [exact E6|]. split; [exact HappF|].
      rewrite Hk7. unfold c6', removeLastPopIfAny, removeLastPop.
      destruct (lastInstructionIs OpPop c6); [|reflexivity].
      now destruct (lastInstruction c6).
    + rewrite Hi7.
      assert (length (instructions c6')
              = (length (instructions c1) + 3 + length codeT + 3 + length codeF)%nat)
        as -> by (rewrite Hi6, length_app, Hlen5, Hlen4; reflexivity).
      rewrite Hlen4. destruct HappC as (-> & _). now rewrite <- !app_assoc.
    + rewrite Hk7. transitivity (constants c1); [apply HappC|].
      transitivity (constants c3); [apply HappT|].
      transitivity (constants c5); [now rewrite Hk5'|]. exact Hk6.
    + rewrite Hs7, Hs6. exact Hs5'.
  - apply and_then_inr in Hc as (c6'' & Hc6 & Hc).
    inversion Hc6; subst c6''. clear Hc6.
    set (c6' := emit OpNull 0 c5) in *.
    assert (Hi6' : instructions c6'
                   = (instructions c1 ++ Make OpJumpNotTruthy
                        (Z.of_nat (length (instructions c4))) ++ codeT)
                     ++ Make OpJump placeholder ++ Make OpNull 0).
    { unfold c6'. rewrite instructions_emit, Hi5. now rewrite <- !app_assoc. }
    destruct (changeOperand_spec (length (instructions c3')) _ _ _
                (Z.of_nat (length (instructions c6'))) _ c6' Hpos Hi6')
      as (Hi7 & Hk7 & Hs7).
    assert (Hc' : c' = changeOperand (length (instructions c3'))
                         (Z.of_nat (length (instructions c6'))) c6')
      by now inversion Hc.
    clear Hc. subst c'.
    exists (Make OpNull 0).
    split; [exact E1|]. split; [exact HappC|]. split; [exact E3|].
    split; [exact HappT|]. split; [lia|]. split; [exact Hk5'|].
    split; [exact Hs5'|]. split; [|split; [|split]].
    + split; [reflexivity|]. rewrite Hk7. unfold c6'. simpl. exact Hk5'.
    + rewrite Hi7.
      assert (length (instructions c6')
              = (length (instructions c1) + 3 + length codeT + 3
                 + length (Make OpNull 0))%nat)
        as -> by (unfold c6'; rewrite instructions_emit, length_app, Hlen5, Hlen4;
                  reflexivity).
      rewrite Hlen4. destruct HappC as (-> & _). now rewrite <- !app_assoc.
    + rewrite Hk7. unfold c6'. simpl. rewrite Hk5'.
      transitivity (constants c1); [apply HappC | apply HappT].
    + rewrite Hs7. unfold c6'. simpl. exact Hs5'.
Qed.

Lemma coreBranch_nonempty (stmts : list Statement) :
  negb (bool_decide (stmts = [])) && coreBranch stmts = true ->
  stmts <> [] /\ coreBranch stmts = true.
Proof.
  intros H. apply andb_true_iff in H as [Hne Hcore]. split; [|exact Hcore].
  apply negb_true_iff, bool_decide_eq_false in Hne. exact Hne.
Qed.

(** Every expression of the fragment compiles to code that is appended. *)
Lemma expression_shape_core :
  forall e, coreExpression e = true -> expression_shape e.
Proof.
  apply (Expression_Statement_ind
           (fun e => coreExpression e = true -> expression_shape e)
           (fun s => forall e, s = ExpressionStatement e ->
                               coreExpression e = true -> expression_shape e));
    try (intros; discriminate).
  - intros name _ c c' Hc. simpl in Hc.
    destruct (Resolve name (symbolTable c)); inversion Hc; subst.
    eexists. apply appends_emit.
  - intros v _ c c' Hc. inversion Hc; subst. eexists. apply appends_emitConstant.
  - intros v _ c c' Hc. inversion Hc; subst. eexists. apply appends_emitConstant.
  - intros v _ c c' Hc. inversion Hc; subst. eexists. apply appends_emitConstant.
  - intros v _ c c' Hc. simpl in Hc.
    destruct v; inversion Hc; subst; eexists; apply appends_emit.
  - intros op r IH Hcore c c' Hc. simpl in Hc, Hcore.
    apply and_then_inr in Hc as (c1 & E1 & Hc).
    destruct (prefixOpcode op); inversion Hc; subst.
    destruct (IH Hcore _ _ E1) as (code & Happ).
    eexists. eapply appends_trans; [exact Happ | apply appends_emit].
  - intros op l r IHl IHr Hcore c c' Hc. simpl in Hc, Hcore.
    apply andb_true_iff in Hcore as [Hl Hr].
    destruct (String.eqb op "<").
    + apply and_then_inr in Hc as (c1 & E1 & Hc).
      apply and_then_inr in Hc as (c2 & E2 & Hc). inversion Hc; subst.
      destruct (IHr Hr _ _ E1) as (code1 & Happ1).
      destruct (IHl Hl _ _ E2) as (code2 & Happ2).
      eexists. eapply appends_trans; [exact Happ1|].
      eapply appends_trans; [exact Happ2 | apply appends_emit].
    + apply and_then_inr in Hc as (c1 & E1 & Hc).
      apply and_then_inr in Hc as (c2 & E2 & Hc).
      destruct (infixOpcode op); inversion Hc; subst.
      destruct (IHl Hl _ _ E1) as (code1 & Happ1).
      destruct (IHr Hr _ _ E2) as (code2 & Happ2).
      eexists. eapply appends_trans; [exact Happ1|].
      eapply appends_trans; [exact Happ2 | apply appends_emit].
  - intros condition consequence alternative IHc IHt IHf Hcore c c' Hc.
    rewrite coreExpression_If in Hcore.
    apply andb_true_iff in Hcore as [Hcore Hf].
    apply andb_true_iff in Hcore as [Hcond Ht].
    apply coreBranch_nonempty in Ht as [Hne Ht].
    assert (Halt : match alternative with
                   | Some alt => branch_shape alt
                   | None => True
                   end).
    { destruct alternative as [alt|]; [|exact I].
      apply coreBranch_nonempty in Hf as [Hnef Hf].
      now apply branch_shape_intro. }
    destruct (if_shape _ _ _ _ _ (IHc Hcond) (branch_shape_intro _ Hne Ht IHt) Halt Hc)
      as (c1 & codeC & c3 & codeT & c5 & codeF & _ & _ & _ & _ & _ & _ & _ & _ & Happ).
    eexists. exact Happ.
  - intros e0 IH e [= <-] Hcore. now apply IH.
Qed.

Lemma branch_shape_core stmts :
  stmts <> [] -> coreBranch stmts = true -> branch_shape stmts.
Proof.
  intros Hne Hcore. apply branch_shape_intro; try assumption.
  apply Forall_forall. intros s _ e _ He. now apply expression_shape_core.
Qed.

(** *** Single instructions *)

Lemma code_at_app_l ins pos a b : code_at ins pos (a ++ b) -> code_at ins pos a.
Proof.
  intros (pre & post & -> & Hlen). exists pre, (b ++ post).
  split; [now rewrite <- app_assoc | assumption].
Qed.

Lemma code_at_app_r ins pos a b :
  code_at ins pos (a ++ b) -> code_at ins (pos + length a) b.
Proof.
  intros (pre & post & -> & Hlen). exists (pre ++ a), post.
  split; [now rewrite <- !app_assoc | rewrite length_app; lia].
Qed.

Lemma code_at_length ins pos code :
  code_at ins pos code -> (pos + length code <= length ins)%nat.
Proof. intros (pre & post & -> & Hlen). rewrite !length_app. lia. Qed.

Lemma code_at_prefix (ins pre code : list Z) :
  (pre ++ code) `prefix_of` ins -> code_at ins (length pre) code.
Proof. intros [rest ->]. exists pre, rest. split; [now rewrite <- app_assoc | reflexivity]. Qed.

Lemma fetch_opcode ins pos op operand :
  code_at ins pos (Make op operand) -> ins !! pos = Some (byte_of op).
Proof.
  intros (pre & post & -> & <-). unfold Make. simpl. now apply list_lookup_middle.
Qed.

Lemma fetch_uint16 ins pos op operand :
  operandWidth op = 2%nat -> 0 <= operand < 65536 ->
  code_at ins pos (Make op operand) ->
  ReadUint16 ins (pos + 1) = Some operand.
Proof.
  intros Hw Hrange (pre & post & -> & <-). unfold ReadUint16, Make. rewrite Hw.
  simpl.
  rewrite (lookup_app_r pre) by lia.
  replace (length pre + 1 - length pre)%nat with 1%nat by lia.
  rewrite (lookup_app_r pre) by lia.
  replace (S (length pre + 1) - length pre)%nat with 2%nat by lia.
  simpl. f_equal.
  rewrite (Z.mod_small (operand / 256)).
  - rewrite Z.mul_comm. symmetry. apply Z.div_mod. lia.
  - split; [apply Z.div_pos; lia | apply Z.div_lt_upper_bound; lia].
Qed.

Lemma push_ok v next bc i stk g lp :
  (length stk < StackSize)%nat ->
  push v next (mkVM bc i stk g lp) = Next (mkVM bc next (v :: stk) g lp).
Proof.
  intros H. unfold push. simpl stack.
  destruct (Nat.leb_spec StackSize (length stk)); [lia | reflexivity].
Qed.

Lemma pushResult_ok v next bc i stk g lp :
  isError (Some v) = false -> (length stk < StackSize)%nat ->
  pushResult v next (mkVM bc i stk g lp) = Next (mkVM bc next (v :: stk) g lp).
Proof.
  intros Hv H. unfold pushResult. destruct v; try discriminate; now apply push_ok.
Qed.

Section Steps.
Variable bc : Bytecode.
Variable pos : nat.

Lemma step_constant idx v stk g lp :
  code_at (Instructions bc) pos (Make OpConstant (Z.of_nat idx)) ->
  Constants bc !! idx = Some v -> Z.of_nat idx < 65536 ->
  (length stk < StackSize)%nat ->
  step (mkVM bc pos stk g lp) = Next (mkVM bc (pos + 3) (v :: stk) g lp).
Proof.
  intros Hcode Hk Hidx Hstk. unfold step. simpl bytecode. simpl ip.
  rewrite (fetch_opcode _ _ _ _ Hcode), Lookup_byte_of.
  rewrite (fetch_uint16 _ _ OpConstant _ eq_refl (conj (Nat2Z.is_nonneg idx) Hidx) Hcode).
  rewrite Nat2Z.id, Hk. simpl operandWidth.
  replace (pos + 1 + 2)%nat with (pos + 3)%nat by lia. now apply push_ok.
Qed.

Lemma step_push op v stk g lp :
  (op = OpTrue /\ v = object.Bool true) \/ (op = OpFalse /\ v = object.Bool false)
  \/ (op = OpNull /\ v = Null) ->
  code_at (Instructions bc) pos (Make op 0) ->
  (length stk < StackSize)%nat ->
  step (mkVM bc pos stk g lp) = Next (mkVM bc (pos + 1) (v :: stk) g lp).
Proof.
  intros Hop Hcode Hstk. unfold step. simpl bytecode. simpl ip.
  rewrite (fetch_opcode _ _ _ _ Hcode), Lookup_byte_of.
  destruct Hop as [[-> ->]|[[-> ->]|[-> ->]]]; simpl operandWidth;
    replace (pos + 1 + 0)%nat with (pos + 1)%nat by lia; now apply push_ok.
Qed.

Lemma step_get_global idx v stk g lp :
  code_at (Instructions bc) pos (Make OpGetGlobal (Z.of_nat idx)) ->
  g !! idx = Some v -> Z.of_nat idx < 65536 ->
  (length stk < StackSize)%nat ->
  step (mkVM bc pos stk g lp) = Next (mkVM bc (pos + 3) (v :: stk) g lp).
Proof.
  intros Hcode Hg Hidx Hstk. unfold step. simpl bytecode. simpl ip.
  rewrite (fetch_opcode _ _ _ _ Hcode), Lookup_byte_of.
  rewrite (fetch_uint16 _ _ OpGetGlobal _ eq_refl (conj (Nat2Z.is_nonneg idx) Hidx) Hcode).
  simpl globals. rewrite Nat2Z.id, Hg. simpl operandWidth.
  replace (pos + 1 + 2)%nat with (pos + 3)%nat by lia. now apply push_ok.
Qed.

Lemma step_set_global idx v stk g lp :
  code_at (Instructions bc) pos (Make OpSetGlobal (Z.of_nat idx)) ->
  Z.of_nat idx < 65536 ->
  step (mkVM bc pos (v :: stk) g lp)
  = Next (mkVM bc (pos + 3) stk (<[idx := v]> g) (Some v)).
Proof.
  intros Hcode Hidx. unfold step. simpl bytecode. simpl ip.
  rewrite (fetch_opcode _ _ _ _ Hcode), Lookup_byte_of.
  rewrite (fetch_uint16 _ _ OpSetGlobal _ eq_refl (conj (Nat2Z.is_nonneg idx) Hidx) Hcode).
  simpl. rewrite Nat2Z.id. do 2 f_equal. lia.
Qed.

Lemma step_pop v stk g lp :
  code_at (Instructions bc) pos (Make OpPop 0) ->
  step (mkVM bc pos (v :: stk) g lp) = Next (mkVM bc (pos + 1) stk g (Some v)).
Proof.
  intros Hcode. unfold step. simpl bytecode. simpl ip.
  rewrite (fetch_opcode _ _ _ _ Hcode), Lookup_byte_of. simpl.
  do 2 f_equal. lia.
Qed.

Lemma step_jump_not_truthy target condition stk g lp :
  code_at (Instructions bc) pos (Make OpJumpNotTruthy (Z.of_nat target)) ->
  Z.of_nat target < 65536 ->
  step (mkVM bc pos (condition :: stk) g lp)
  = Next (mkVM bc (if spec_truthy condition then pos + 3 else target) stk g
            (Some condition)).
Proof.
  intros Hcode Htarget. unfold step. simpl bytecode. simpl ip.
  rewrite (fetch_opcode _ _ _ _ Hcode), Lookup_byte_of.
  rewrite (fetch_uint16 _ _ OpJumpNotTruthy _ eq_refl
             (conj (Nat2Z.is_nonneg target) Htarget) Hcode).
  simpl. rewrite Nat2Z.id. do 2 f_equal.
  destruct (spec_truthy condition); [lia | reflexivity].
Qed.

Lemma step_jump target stk g lp :
  code_at (Instructions bc) pos (Make OpJump (Z.of_nat target)) ->
  Z.of_nat target < 65536 ->
  step (mkVM bc pos stk g lp) = Next (mkVM bc target stk g lp).
Proof.
  intros Hcode Htarget. unfold step. simpl bytecode. simpl ip.
  rewrite (fetch_opcode _ _ _ _ Hcode), Lookup_byte_of.
  rewrite (fetch_uint16 _ _ OpJump _ eq_refl
             (conj (Nat2Z.is_nonneg target) Htarget) Hcode).
  simpl. now rewrite Nat2Z.id.
Qed.

Lemma step_infix operator op l r v stk g lp :
  infixOpcode operator = Some op ->
  code_at (Instructions bc) pos (Make op 0) ->
  spec_infix operator l r = Some v -> isError (Some v) = false ->
  (S (length stk) < StackSize)%nat ->
  step (mkVM bc pos (r :: l :: stk) g lp)
  = Next (mkVM bc (pos + 1) (v :: stk) g (Some l)).
Proof.
  intros Hop Hcode Hv Hok Hstk. unfold step. simpl bytecode. simpl ip.
  rewrite (fetch_opcode _ _ _ _ Hcode), Lookup_byte_of.
  unfold infixOpcode in Hop.
  repeat match type of Hop with
         | (if String.eqb operator ?s then _ else _) = _ =>
             destruct (String.eqb_spec operator s)
         end; inversion Hop; subst; simpl stack; cbv beta iota;
    simpl operatorOf; rewrite Hv; simpl operandWidth;
    replace (pos + 1 + 0)%nat with (pos + 1)%nat by lia;
    apply pushResult_ok; (assumption || lia).
Qed.

Lemma step_prefix operator op r v stk g lp :
  prefixOpcode operator = Some op ->
  code_at (Instructions bc) pos (Make op 0) ->
  (if decide (op = OpMinus) then spec_minus r else spec_bang r) = v ->
  isError (Some v) = false ->
  (length stk < StackSize)%nat ->
  step (mkVM bc pos (r :: stk) g lp)
  = Next (mkVM bc (pos + 1) (v :: stk) g (Some r)).
Proof.
  intros Hop Hcode Hv Hok Hstk. unfold step. simpl bytecode. simpl ip.
  rewrite (fetch_opcode _ _ _ _ Hcode), Lookup_byte_of.
  unfold prefixOpcode in Hop.
  repeat match type of Hop with
         | (if String.eqb operator ?s then _ else _) = _ =>
             destruct (String.eqb_spec operator s)
         end; inversion Hop; subst; simpl stack; cbv beta iota;
    simpl operandWidth; replace (pos + 1 + 0)%nat with (pos + 1)%nat by lia;
    apply pushResult_ok; (assumption || lia).
Qed.

End Steps.

Lemma stepN_app n k m m1 :
  stepN n m = Next m1 -> stepN (n + k) m = stepN k m1.
Proof.
  revert m. induction n as [|n IH]; intros m H; simpl in *.
  - now inversion H.
  - destruct (step m); try discriminate. now apply IH.
Qed.

Lemma stepN_one m m1 : step m = Next m1 -> stepN 1 m = Next m1.
Proof. intros H. simpl. now rewrite H. Qed.

Lemma isTruthy_spec v : isTruthy (Some v) = spec_truthy v.
Proof. now destruct v as [| |[]| | | | | | | |]. Qed.

Lemma stackNeed_pos e : (1 <= stackNeed e)%nat.
Proof.
  induction e; simpl; try lia.
  destruct (String.eqb _ "<"); lia.
Qed.

Lemma stepN_trans n k m m1 m2 :
  stepN n m = Next m1 -> stepN k m1 = Next m2 -> stepN (n + k) m = Next m2.
Proof. intros H1 H2. now rewrite (stepN_app _ _ _ _ H1). Qed.

Lemma stepN_at n bc p p' q q' stk stk' g g' lp lp' :
  p = p' -> q = q' ->
  stepN n (mkVM bc p' stk g lp) = Next (mkVM bc q' stk' g' lp') ->
  stepN n (mkVM bc p stk g lp) = Next (mkVM bc q stk' g' lp').
Proof. now intros -> ->. Qed.

Lemma stepN_at_one bc p q q' stk stk' g g' lp lp' :
  q = q' ->
  step (mkVM bc p stk g lp) = Next (mkVM bc q' stk' g' lp') ->
  step (mkVM bc p stk g lp) = Next (mkVM bc q stk' g' lp').
Proof. now intros ->. Qed.

Lemma length_Make_prefix operator op :
  prefixOpcode operator = Some op -> length (Make op 0) = 1%nat.
Proof.
  unfold prefixOpcode. intros H.
  repeat match type of H with
         | (if ?b then _ else _) = _ => destruct b
         end; now inversion H.
Qed.

Lemma length_Make_infix operator op :
  infixOpcode operator = Some op -> length (Make op 0) = 1%nat.
Proof.
  unfold infixOpcode. intros H.
  repeat match type of H with
         | (if ?b then _ else _) = _ => destruct b
         end; now inversion H.
Qed.

Lemma appends_code c c' code1 code2 :
  appends c c' code1 -> appends c c' code2 -> code1 = code2.
Proof.
  intros (H1 & _) (H2 & _). rewrite H1 in H2. now apply app_inv_head in H2.
Qed.

Lemma coreValue_passes_block v :
  coreValue v = true ->
  bool_decide (Type_ v = RETURN_VALUE) || bool_decide (Type_ v = ERROR) = false.
Proof. destruct v; try discriminate; reflexivity. Qed.

Lemma statement_shape s c c' :
  coreStatement s = true ->
  compileStatement s c = inr c' ->
  exists code,
    instructions c' = instructions c ++ code
    /\ constants c `prefix_of` constants c'
    /\ (numDefinitions (symbolTable c') <= S (numDefinitions (symbolTable c)))%nat.
Proof.
  destruct s as [name value|value|e|stmts]; simpl; try discriminate; intros Hcore Hc.
  - apply and_then_inr in Hc as (c1 & E1 & Hc). simpl in Hc.
    inversion Hc; subst c'. clear Hc.
    destruct (expression_shape_core value Hcore c c1 E1) as (codeE & Hi & Hk & Hs).
    eexists. rewrite instructions_emit. simpl. rewrite Hi, Hs, <- app_assoc.
    split; [reflexivity|]. split; [assumption | lia].
  - apply and_then_inr in Hc as (c1 & E1 & Hc).
    inversion Hc; subst c'. clear Hc.
    destruct (expression_shape_core e Hcore c c1 E1) as (codeE & Hi & Hk & Hs).
    eexists. rewrite instructions_emit. simpl. rewrite Hi, Hs, <- app_assoc.
    split; [reflexivity|]. split; [assumption | lia].
Qed.

Lemma program_shape stmts : forall c c',
  forallb coreStatement stmts = true ->
  compileStatements stmts c = inr c' ->
  exists code,
    instructions c' = instructions c ++ code
    /\ constants c `prefix_of` constants c'.
Proof.
  induction stmts as [|s stmts IH]; intros c c' Hcore H; simpl in H, Hcore.
  - inversion H; subst. exists []. now rewrite app_nil_r.
  - apply andb_true_iff in Hcore as [Hcore1 Hcore2].
    apply and_then_inr in H as (c1 & E1 & H).
    destruct (statement_shape _ _ _ Hcore1 E1) as (code1 & Hi & Hk & _).
    destruct (IH _ _ Hcore2 H) as (code2 & Hi' & Hk').
    exists (code1 ++ code2). rewrite Hi', Hi, <- app_assoc.
    split; [reflexivity | etransitivity; eassumption].
Qed.

(** *** Expressions *)

Section Simulation.
Variable bc : Bytecode.
Hypothesis Hconstants : Z.of_nat (length (Constants bc)) <= 65536.
Hypothesis Hinstructions : Z.of_nat (length (Instructions bc)) < 65536.

Lemma sim_constant obj c stk g lp :
  code_at (Instructions bc) (length (instructions c))
    (Make OpConstant (Z.of_nat (length (constants c)))) ->
  constants (emitConstant obj c) `prefix_of` Constants bc ->
  (length stk + 1 <= StackSize)%nat ->
  stepN 1 (mkVM bc (length (instructions c)) stk g lp)
  = Next (mkVM bc (length (instructions c) + 3) (obj :: stk) g lp).
Proof.
  unfold emitConstant. simpl. intros Hi Hk Hstk.
  apply stepN_one, (step_constant bc _ (length (constants c)) obj);
    try assumption; try lia.
  - destruct Hk as [rest ->]. rewrite <- app_assoc. now apply list_lookup_middle.
  - apply prefix_length in Hk. rewrite length_app in Hk. simpl in Hk. lia.
Qed.

Lemma sim_branch fuel stmts :
  (forall f, (f < fuel)%nat -> expression_simulated bc f) ->
  forall c c' code h r ov h' g,
    stmts <> [] -> coreBranch stmts = true ->
    compileStatements stmts c = inr c' ->
    appends c c' (code ++ Make OpPop 0) ->
    evalBlockStatement_from (Eval no_builtins fuel) stmts (Env 0 None) r h
    = (Ret ov, h') ->
    isError ov = false ->
    related h (symbolTable c) g ->
    Z.of_nat (numDefinitions (symbolTable c)) <= 65536 ->
    code_at (Instructions bc) (length (instructions c)) code ->
    constants c' `prefix_of` Constants bc ->
    h' = h
    /\ exists v, ov = Some v /\ coreValue v = true
       /\ forall stk lp, (length stk + branchNeed stmts <= StackSize)%nat ->
            exists n lp',
              stepN n (mkVM bc (length (instructions c)) stk g lp)
              = Next (mkVM bc (length (instructions c) + length code) (v :: stk) g lp').
Proof.
  intros IH. induction stmts as [|s rest IHs]; [congruence|].
  intros c c' code h r ov h' g _ Hcore Hc Happ Hev Hok Hrel Hdefs Hi Hk.
  destruct s as [| |e|]; try discriminate Hcore.
  simpl in Hcore. apply andb_true_iff in Hcore as [Hcore1 Hcore2].
  simpl in Hc. apply and_then_inr in Hc as (c2 & E2 & Hc).
  apply and_then_inr in E2 as (c1 & E1 & E2). inversion E2; subst c2. clear E2.
  destruct (expression_shape_core e Hcore1 c c1 E1) as (codeE & HappE).
  simpl in Hev. unfold bind in Hev.
  destruct (Eval no_builtins fuel (Stmt (ExpressionStatement e)) (Env 0 None) h)
    as [[r1| |] h1] eqn:Es; try discriminate.
  destruct fuel as [|f]; [discriminate Es|].
  rewrite Eval_S in Es. cbn [Eval_switch] in Es.
  assert (Hr1 : isError r1 = false).
  { destruct r1 as [[]|]; try reflexivity. inversion Hev; subst. discriminate. }
  assert (HlenE : length (instructions c1)
                  = (length (instructions c) + length codeE)%nat).
  { destruct HappE as (-> & _). now rewrite length_app. }
  assert (Htable : symbolTable c1 = symbolTable c) by apply HappE.
  destruct rest as [|s' rest'].
  - (* the last statement of the branch *)
    inversion Hc; subst c'. clear Hc IHs.
    assert (code = codeE) as ->.
    { apply (app_inv_tail (Make OpPop 0)).
      apply (appends_code c (emit OpPop 0 c1)); [exact Happ|].
      eapply appends_trans; [exact HappE | apply appends_emit]. }
    destruct (IH f (Nat.lt_succ_diag_r f) e c c1 codeE h r1 h1 g Hcore1 E1 HappE Es Hr1
                Hrel Hdefs Hi Hk) as (-> & v & -> & Hv & Hsteps).
    assert (ov = Some v /\ h' = h) as [-> ->].
    { simpl in Hev. destruct (_ || _); now inversion Hev. }
    split; [reflexivity|]. exists v. split; [reflexivity|]. split; [exact Hv|].
    intros stk lp Hstk. apply Hsteps. simpl in Hstk. lia.
  - (* a statement that others follow *)
    destruct (branch_shape_core (s' :: rest') ltac:(discriminate) Hcore2 _ _ Hc)
      as (codeR & HappR & _).
    assert (code = codeE ++ Make OpPop 0 ++ codeR) as ->.
    { apply (app_inv_tail (Make OpPop 0)). rewrite <- !app_assoc.
      apply (appends_code c c'); [exact Happ|].
      eapply appends_trans; [exact HappE|].
      eapply appends_trans; [apply appends_emit | exact HappR]. }
    assert (Hk1 : constants c1 `prefix_of` Constants bc).
    { transitivity (constants c'); [apply HappR | exact Hk]. }
    destruct (IH f (Nat.lt_succ_diag_r f) e c c1 codeE h r1 h1 g Hcore1 E1 HappE Es Hr1
                Hrel Hdefs (code_at_app_l _ _ _ _ Hi) Hk1)
      as (-> & v & -> & Hv & Hsteps).
    rewrite (coreValue_passes_block v Hv) in Hev.
    assert (HiP : code_at (Instructions bc) (length (instructions c) + length codeE)
                    (Make OpPop 0)).
    { apply code_at_app_r in Hi. now apply code_at_app_l in Hi. }
    assert (HiR : code_at (Instructions bc)
                    (length (instructions (emit OpPop 0 c1))) codeR).
    { rewrite instructions_emit, length_app, HlenE.
      apply code_at_app_r in Hi. now apply code_at_app_r in Hi. }
    destruct (IHs (emit OpPop 0 c1) c' codeR h (Some v) ov h' g ltac:(discriminate)
                Hcore2 Hc HappR Hev Hok) as (-> & w & -> & Hw & HstepsR);
      try assumption; [simpl; now rewrite Htable | simpl; now rewrite Htable |].
    split; [reflexivity|]. exists w. split; [reflexivity|]. split; [exact Hw|].
    intros stk lp Hstk.
    change (branchNeed (ExpressionStatement e :: s' :: rest'))
      with (Nat.max (stackNeed e) (branchNeed (s' :: rest'))) in Hstk.
    destruct (Hsteps stk lp) as (n1 & lp1 & Hn1); [lia|].
    destruct (HstepsR stk (Some v)) as (n2 & lp2 & Hn2); [lia|].
    exists (n1 + (1 + n2))%nat, lp2.
    apply (stepN_trans _ _ _ _ _ Hn1).
    eapply stepN_trans; [apply stepN_one, step_pop; exact HiP|].
    rewrite instructions_emit, length_app, HlenE in Hn2.
    eapply stepN_at; [| |exact Hn2]; rewrite ?length_app; simpl; lia.
Qed.

Lemma sim_expr_step fuel :
  (forall f, (f < fuel)%nat -> expression_simulated bc f) ->
  expression_simulated bc fuel.
Proof.
  intros IH e c c' code h ov h' g Hcore Hc Happ Hev Hok Hrel Hdefs Hi Hk.
  destruct fuel as [|fuel]; [discriminate Hev|].
  pose proof (IH fuel (Nat.lt_succ_diag_r fuel)) as IH1.
  rewrite Eval_S in Hev.
  destruct e; try discriminate Hcore; cbn [Eval_switch] in Hev.
  - (* identifier *)
    simpl in Hc.
    destruct (Resolve Value (symbolTable c)) as [idx|] eqn:Eres; inversion Hc; subst c'.
    pose proof (appends_code _ _ _ _ Happ (appends_emit _ _ _)) as ->.
    destruct (proj2 Hrel _ _ Eres) as (Hidx & v & Hh & Hg & Hv).
    unfold evalIdentifier in Hev. simpl in Hev. rewrite Hh in Hev.
    inversion Hev; subst. split; [reflexivity|]. exists v. repeat split; try assumption.
    intros stk lp Hstk. exists 1%nat, lp.
    apply stepN_one, (step_get_global bc _ idx); try assumption; simpl in Hstk; lia.
  - (* integer *)
    inversion Hc; subst c'. inversion Hev; subst.
    pose proof (appends_code _ _ _ _ Happ (appends_emitConstant _ _)) as ->.
    split; [reflexivity|].
    eexists. repeat split. intros stk lp Hstk. exists 1%nat, lp.
    now apply sim_constant.
  - (* float *)
    inversion Hc; subst c'. inversion Hev; subst.
    pose proof (appends_code _ _ _ _ Happ (appends_emitConstant _ _)) as ->.
    split; [reflexivity|].
    eexists. repeat split. intros stk lp Hstk. exists 1%nat, lp.
    now apply sim_constant.
  - (* string *)
    inversion Hc; subst c'. inversion Hev; subst.
    pose proof (appends_code _ _ _ _ Happ (appends_emitConstant _ _)) as ->.
    split; [reflexivity|].
    eexists. repeat split. intros stk lp Hstk. exists 1%nat, lp.
    now apply sim_constant.
  - (* boolean *)
    inversion Hev; subst. split; [reflexivity|].
    eexists. repeat split. intros stk lp Hstk. exists 1%nat, lp.
    assert (Hc' : c' = emit (if Value then OpTrue else OpFalse) 0 c)
      by (destruct Value; now inversion Hc).
    subst c'.
    pose proof (appends_code _ _ _ _ Happ (appends_emit _ _ _)) as ->.
    apply stepN_one. simpl in Hstk.
    destruct Value; [apply (step_push bc _ OpTrue) | apply (step_push bc _ OpFalse)];
      auto; lia.
  - (* prefix *)
    simpl in Hcore, Hc.
    apply and_then_inr in Hc as (c1 & E1 & Hc).
    destruct (prefixOpcode Operator) as [op|] eqn:Eop; inversion Hc; subst c'. clear Hc.
    destruct (expression_shape_core e Hcore c c1 E1) as (codeR & HappR).
    assert (code = codeR ++ Make op 0) as ->.
    { apply (appends_code c (emit op 0 c1)); [exact Happ|].
      eapply appends_trans; [exact HappR | apply appends_emit]. }
    unfold bind in Hev.
    destruct (Eval no_builtins fuel (Expr e) (Env 0 None) h) as [[right| |] h1] eqn:Er;
      try discriminate.
    destruct (isError right) eqn:Eright.
    { inversion Hev; subst. congruence. }
    destruct (IH1 e c c1 codeR h right h1 g Hcore E1 HappR Er Eright Hrel Hdefs
                (code_at_app_l _ _ _ _ Hi) Hk) as (-> & r & -> & Hr & Hsteps).
    unfold lift in Hev.
    destruct (evalPrefixExpression Operator (Some r)) as [v| |] eqn:Ev; try discriminate.
    inversion Hev; subst.
    destruct (prefix_agree _ _ _ _ Eop Ev Hok) as (Hspec & Hv).
    split; [reflexivity|]. exists v. repeat split; try assumption.
    intros stk lp Hstk. simpl in Hstk.
    destruct (Hsteps stk lp Hstk) as (n & lp' & Hn).
    exists (n + 1)%nat, (Some r). apply (stepN_trans _ _ _ _ _ Hn).
    apply stepN_one.
    eapply stepN_at_one;
      [| apply (step_prefix bc _ Operator op r v); try eassumption].
    + rewrite length_app, (length_Make_prefix _ _ Eop). lia.
    + now apply code_at_app_r in Hi.
    + pose proof (stackNeed_pos e). lia.
  - (* infix *)
    simpl in Hcore. apply andb_true_iff in Hcore as [Hcore1 Hcore2].
    unfold bind in Hev.
    destruct (Eval no_builtins fuel (Expr e1) (Env 0 None) h) as [[left| |] h1] eqn:El;
      try discriminate.
    destruct (isError left) eqn:Eleft.
    { inversion Hev; subst. congruence. }
    destruct (Eval no_builtins fuel (Expr e2) (Env 0 None) h1) as [[right| |] h2] eqn:Er;
      try discriminate.
    destruct (isError right) eqn:Eright.
    { inversion Hev; subst. congruence. }
    unfold lift in Hev.
    destruct (evalInfixExpression Operator left right) as [v| |] eqn:Ev; try discriminate.
    inversion Hev; subst ov h'. clear Hev.
    simpl stackNeed. simpl in Hc.
    pose proof (stackNeed_pos e1) as Hpos1. pose proof (stackNeed_pos e2) as Hpos2.
    destruct (String.eqb_spec Operator "<") as [->|Hne].
    + apply and_then_inr in Hc as (c1 & E1 & Hc).
      apply and_then_inr in Hc as (c2 & E2 & Hc). inversion Hc; subst c'. clear Hc.
      destruct (expression_shape_core e2 Hcore2 c c1 E1) as (code1 & Happ1).
      destruct (expression_shape_core e1 Hcore1 c1 c2 E2) as (code2 & Happ2).
      assert (code = code1 ++ code2 ++ Make OpGreaterThan 0) as ->.
      { apply (appends_code c (emit OpGreaterThan 0 c2)); [exact Happ|].
        eapply appends_trans; [exact Happ1|].
        eapply appends_trans; [exact Happ2 | apply appends_emit]. }
      assert (Hlen1 : length (instructions c1)
                      = (length (instructions c) + length code1)%nat).
      { destruct Happ1 as (-> & _). now rewrite length_app. }
      assert (Htable : symbolTable c1 = symbolTable c) by apply Happ1.
      simpl in Hk.
      assert (Hi2 : code_at (Instructions bc) (length (instructions c1)) code2).
      { rewrite Hlen1. apply code_at_app_r in Hi. now apply code_at_app_l in Hi. }
      destruct (IH1 e1 c1 c2 code2 h left h1 g Hcore1 E2 Happ2 El Eleft)
        as (-> & l & -> & Hl & Hsteps1); try assumption;
        [now rewrite Htable | now rewrite Htable |].
      destruct (IH1 e2 c c1 code1 h right h2 g Hcore2 E1 Happ1 Er Eright Hrel Hdefs
                  (code_at_app_l _ _ _ _ Hi))
        as (-> & r & -> & Hr & Hsteps2);
        [transitivity (constants c2); [apply Happ2 | exact Hk] |].
      split; [reflexivity|]. exists v.
      split; [reflexivity|]. split; [now apply (infix_core "<" l r)|].
      intros stk lp Hstk.
      destruct (Hsteps2 stk lp) as (n2 & lp2 & Hn2); [lia|].
      destruct (Hsteps1 (r :: stk) lp2) as (n1 & lp1 & Hn1); [simpl; lia|].
      rewrite Hlen1 in Hn1.
      exists (n2 + (n1 + 1))%nat, (Some r).
      apply (stepN_trans _ _ _ _ _ Hn2), (stepN_trans _ _ _ _ _ Hn1).
      apply stepN_one.
      eapply stepN_at_one;
        [| apply (step_infix bc _ ">" OpGreaterThan r l v);
           try assumption; try reflexivity; try lia].
      * rewrite !length_app. simpl. lia.
      * apply code_at_app_r in Hi. now apply code_at_app_r in Hi.
      * now apply less_than_swapped.
    + apply and_then_inr in Hc as (c1 & E1 & Hc).
      apply and_then_inr in Hc as (c2 & E2 & Hc).
      destruct (infixOpcode Operator) as [op|] eqn:Eop; inversion Hc; subst c'. clear Hc.
      destruct (expression_shape_core e1 Hcore1 c c1 E1) as (code1 & Happ1).
      destruct (expression_shape_core e2 Hcore2 c1 c2 E2) as (code2 & Happ2).
      assert (code = code1 ++ code2 ++ Make op 0) as ->.
      { apply (appends_code c (emit op 0 c2)); [exact Happ|].
        eapply appends_trans; [exact Happ1|].
        eapply appends_trans; [exact Happ2 | apply appends_emit]. }
      assert (Hlen1 : length (instructions c1)
                      = (length (instructions c) + length code1)%nat).
      { destruct Happ1 as (-> & _). now rewrite length_app. }
      assert (Htable : symbolTable c1 = symbolTable c) by apply Happ1.
      simpl in Hk.
      assert (Hi2 : code_at (Instructions bc) (length (instructions c1)) code2).
      { rewrite Hlen1. apply code_at_app_r in Hi. now apply code_at_app_l in Hi. }
      destruct (IH1 e1 c c1 code1 h left h1 g Hcore1 E1 Happ1 El Eleft Hrel Hdefs
                  (code_at_app_l _ _ _ _ Hi))
        as (-> & l & -> & Hl & Hsteps1);
        [transitivity (constants c2); [apply Happ2 | exact Hk] |].
      destruct (IH1 e2 c1 c2 code2 h right h2 g Hcore2 E2 Happ2 Er Eright)
        as (-> & r & -> & Hr & Hsteps2); try assumption;
        [now rewrite Htable | now rewrite Htable |].
      split; [reflexivity|]. exists v.
      split; [reflexivity|]. split; [now apply (infix_core Operator l r)|].
      intros stk lp Hstk.
      destruct (Hsteps1 stk lp) as (n1 & lp1 & Hn1); [lia|].
      destruct (Hsteps2 (l :: stk) lp1) as (n2 & lp2 & Hn2); [simpl; lia|].
      rewrite Hlen1 in Hn2.
      exists (n1 + (n2 + 1))%nat, (Some l).
      apply (stepN_trans _ _ _ _ _ Hn1), (stepN_trans _ _ _ _ _ Hn2).
      apply stepN_one.
      eapply stepN_at_one;
        [| apply (step_infix bc _ Operator op l r v);
           try assumption; try lia].
      * rewrite !length_app, (length_Make_infix _ _ Eop). lia.
      * apply code_at_app_r in Hi. now apply code_at_app_r in Hi.
      * now apply infix_agree.
  - (* conditional *)
    rename e into condition.
    rewrite coreExpression_If in Hcore.
    apply andb_true_iff in Hcore as [Hcore Hf].
    apply andb_true_iff in Hcore as [Hcond Ht].
    apply coreBranch_nonempty in Ht as [Hne Ht].
    assert (Halt : match Alternative with
                   | Some alt => alt <> [] /\ coreBranch alt = true
                   | None => True
                   end).
    { destruct Alternative; [now apply coreBranch_nonempty | exact I]. }
    assert (HaltS : match Alternative with
                    | Some alt => branch_shape alt
                    | None => True
                    end).
    { destruct Alternative; [apply branch_shape_core; apply Halt | exact I]. }
    destruct (if_shape _ _ _ _ _ (expression_shape_core _ Hcond)
                (branch_shape_core _ Hne Ht) HaltS Hc)
      as (c1 & codeC & c3 & codeT & c5 & codeF & E1 & HappC & E3 & HappT & Hlen5
          & Hk5 & Htable5 & Hfalse & Hall).
    pose proof (appends_code _ _ _ _ Happ Hall) as ->.
    assert (Hlen1 : length (instructions c1)
                    = (length (instructions c) + length codeC)%nat).
    { destruct HappC as (-> & _). now rewrite length_app. }
    assert (Htable1 : symbolTable c1 = symbolTable c) by apply HappC.
    assert (Hk3 : constants c3 `prefix_of` Constants bc).
    { destruct Alternative as [alt|].
      - destruct Hfalse as (c6 & _ & Happ6 & Hk6).
        transitivity (constants c6); [rewrite <- Hk5; apply Happ6 | now rewrite <- Hk6].
      - destruct Hfalse as [_ Hk']. now rewrite <- Hk'. }
    assert (Hk1 : constants c1 `prefix_of` Constants bc).
    { transitivity (constants c3); [apply HappT | exact Hk3]. }
    pose proof (code_at_length _ _ _ Hi) as Hend.
    rewrite !length_app, !length_Make_jump in Hend by reflexivity.
    rewrite Hlen1 in Hi, Hlen5.
    pose proof (code_at_app_l _ _ _ _ Hi) as HiC.
    apply code_at_app_r in Hi.
    pose proof (code_at_app_l _ _ _ _ Hi) as HiJ.
    apply code_at_app_r in Hi. rewrite length_Make_jump in Hi by reflexivity.
    pose proof (code_at_app_l _ _ _ _ Hi) as HiT.
    apply code_at_app_r in Hi.
    pose proof (code_at_app_l _ _ _ _ Hi) as HiJ2.
    apply code_at_app_r in Hi. rewrite length_Make_jump in Hi by reflexivity.
    unfold evalIfExpression, bind in Hev.
    destruct (Eval no_builtins fuel (Expr condition) (Env 0 None) h)
      as [[cv| |] h1] eqn:Ec; try discriminate.
    destruct (isError cv) eqn:Ecv.
    { inversion Hev; subst. congruence. }
    destruct (IH1 condition c c1 codeC h cv h1 g Hcond E1 HappC Ec Ecv Hrel Hdefs
                HiC Hk1) as (-> & vc & -> & Hvc & HstepsC).
    rewrite isTruthy_spec in Hev.
    assert (Hfinal : forall x y,
               (length (instructions c)
                + length (codeC ++ Make OpJumpNotTruthy x ++ codeT
                          ++ Make OpJump y ++ codeF))%nat
               = (length (instructions c) + length codeC + 3 + length codeT + 3
                  + length codeF)%nat).
    { intros x y. rewrite !length_app, !length_Make_jump by reflexivity. lia. }
    rewrite Hfinal. clear Hfinal.
    pose proof (fun stk lp =>
                  step_jump_not_truthy bc _ _ vc stk g lp HiJ ltac:(lia)) as HJ.
    pose proof (fun stk lp => step_jump bc _ _ stk g lp HiJ2 ltac:(lia)) as HJ2.
    rewrite stackNeed_If.
    destruct (spec_truthy vc) eqn:Etruthy.
    + (* the consequence *)
      destruct fuel as [|f1]; [discriminate Hev|].
      rewrite Eval_S in Hev. cbn [Eval_switch] in Hev. unfold evalBlockStatement in Hev.
      destruct (sim_branch f1 Consequence (fun f Hlt => IH f ltac:(lia))
                  (emit OpJumpNotTruthy placeholder c1) c3 codeT h None ov h' g
                  Hne Ht E3 HappT Hev Hok) as (-> & v & -> & Hv & HstepsT).
      * simpl. now rewrite Htable1.
      * simpl. now rewrite Htable1.
      * rewrite instructions_emit, length_app, length_Make_jump, Hlen1 by reflexivity.
        exact HiT.
      * exact Hk3.
      * split; [reflexivity|]. exists v. split; [reflexivity|]. split; [exact Hv|].
        intros stk lp Hstk.
        destruct (HstepsC stk lp) as (n1 & lp1 & Hn1); [lia|].
        destruct (HstepsT stk (Some vc)) as (n2 & lp2 & Hn2); [lia|].
        rewrite instructions_emit, length_app, length_Make_jump, Hlen1 in Hn2
          by reflexivity.
        exists (n1 + (1 + (n2 + 1)))%nat, lp2.
        apply (stepN_trans _ _ _ _ _ Hn1).
        apply (stepN_trans _ _ _ _ _ (stepN_one _ _ (HJ stk lp1))).
        apply (stepN_trans _ _ _ _ _ Hn2).
        apply stepN_one, HJ2.
    + (* the alternative *)
      destruct Alternative as [alt|].
      * destruct Hfalse as (c6 & E6 & Happ6 & Hk6). destruct Halt as [Hnef Hcoref].
        destruct fuel as [|f1]; [discriminate Hev|].
        rewrite Eval_S in Hev. cbn [Eval_switch] in Hev.
        unfold evalBlockStatement in Hev.
        destruct (sim_branch f1 alt (fun f Hlt => IH f ltac:(lia))
                    c5 c6 codeF h None ov h' g
                    Hnef Hcoref E6 Happ6 Hev Hok) as (-> & v & -> & Hv & HstepsF).
        -- now rewrite Htable5.
        -- now rewrite Htable5.
        -- rewrite Hlen5. exact Hi.
        -- now rewrite <- Hk6.
        -- split; [reflexivity|]. exists v. split; [reflexivity|]. split; [exact Hv|].
           intros stk lp Hstk.
           destruct (HstepsC stk lp) as (n1 & lp1 & Hn1); [lia|].
           destruct (HstepsF stk (Some vc)) as (n2 & lp2 & Hn2); [lia|].
           rewrite Hlen5 in Hn2.
           exists (n1 + (1 + n2))%nat, lp2.
           apply (stepN_trans _ _ _ _ _ Hn1).
           apply (stepN_trans _ _ _ _ _ (stepN_one _ _ (HJ stk lp1))).
           exact Hn2.
      * destruct Hfalse as [-> Hk']. inversion Hev; subst ov h'. clear Hev.
        split; [reflexivity|]. exists Null.
        split; [reflexivity|]. split; [reflexivity|].
        intros stk lp Hstk.
        destruct (HstepsC stk lp) as (n1 & lp1 & Hn1); [lia|].
        exists (n1 + (1 + 1))%nat, (Some vc).
        apply (stepN_trans _ _ _ _ _ Hn1).
        apply (stepN_trans _ _ _ _ _ (stepN_one _ _ (HJ stk lp1))).
        apply stepN_one, (step_push bc _ OpNull); auto. lia.
Qed.

Lemma sim_expr fuel : expression_simulated bc fuel.
Proof.
  induction (lt_wf fuel) as [fuel _ IH]. apply sim_expr_step. exact IH.
Qed.

(** *** Statements and programs *)

Lemma sim_stmt s : forall fuel c c' code h res h' g lp,
  coreStatement s = true ->
  compileStatement s c = inr c' ->
  instructions c' = instructions c ++ code ->
  Eval no_builtins fuel (Stmt s) (Env 0 None) h = (Ret res, h') ->
  isError res = false ->
  related h (symbolTable c) g ->
  Z.of_nat (numDefinitions (symbolTable c)) < 65536 ->
  code_at (Instructions bc) (length (instructions c)) code ->
  constants c' `prefix_of` Constants bc ->
  (statementNeed s <= StackSize)%nat ->
  (res = None \/ exists v, res = Some v /\ coreValue v = true)
  /\ exists n g' lp',
       stepN n (mkVM bc (length (instructions c)) [] g lp)
       = Next (mkVM bc (length (instructions c) + length code) [] g' lp')
       /\ related h' (symbolTable c') g'
       /\ (forall v, res = Some v -> lp' = Some v).
Proof.
  destruct s as [name value|value|e|stmts];
    intros fuel c c' code h res h' g lp Hcore Hc Hcode Hev Hok Hrel Hdefs Hi Hk Hneed;
    try discriminate Hcore;
    (destruct fuel as [|fuel]; [discriminate Hev|]);
    rewrite Eval_S in Hev; cbn [Eval_switch] in Hev; simpl in Hc, Hcore, Hneed.
  - (* let *)
    apply and_then_inr in Hc as (c1 & E1 & Hc). simpl in Hc.
    inversion Hc; subst c'. clear Hc.
    destruct (expression_shape_core value Hcore c c1 E1) as (codeE & HappE).
    assert (Htable : symbolTable c1 = symbolTable c) by apply HappE.
    assert (code = codeE ++ Make OpSetGlobal (Z.of_nat (numDefinitions (symbolTable c1))))
      as ->.
    { rewrite instructions_emit in Hcode. simpl in Hcode.
      destruct HappE as (HiE & _). rewrite HiE, <- app_assoc in Hcode.
      now apply app_inv_head in Hcode. }
    simpl in Hk.
    unfold bind in Hev.
    destruct (Eval no_builtins fuel (Expr value) (Env 0 None) h) as [[val| |] h1] eqn:Ev;
      try discriminate.
    destruct (isError val) eqn:Eval.
    { inversion Hev; subst. congruence. }
    destruct (sim_expr fuel value c c1 codeE h val h1 g Hcore E1 HappE Ev Eval Hrel
                ltac:(lia) (code_at_app_l _ _ _ _ Hi) Hk)
      as (-> & v & -> & Hv & Hsteps).
    simpl in Hev. inversion Hev; subst res h'. clear Hev.
    split; [now left|].
    destruct (Hsteps [] lp) as (n & lp1 & Hn); [simpl; lia|].
    exists (n + 1)%nat, (<[numDefinitions (symbolTable c1) := v]> g), (Some v).
    split; [|split; [|discriminate]].
    + apply (stepN_trans _ _ _ _ _ Hn). apply stepN_one.
      eapply stepN_at_one; [|apply step_set_global].
      * rewrite length_app, length_Make_jump by reflexivity. lia.
      * now apply code_at_app_r in Hi.
      * rewrite Htable. lia.
    + destruct Hrel as [Hlive Hrel]. split.
      * simpl. now rewrite length_alter.
      * intros y idx. unfold Resolve. simpl. rewrite Htable.
        destruct (decide (name = y)) as [->|Hne].
        -- rewrite lookup_insert_eq. intros Hy. inversion Hy; subst idx.
           split; [lia|]. exists v. repeat split; try assumption.
           ++ unfold store_lookup. simpl. rewrite list_lookup_alter_eq.
              destruct (lookup_lt_is_Some_2 (stores h) 0 Hlive) as [st ->]. simpl.
              apply lookup_insert_eq.
           ++ apply lookup_insert_eq.
        -- rewrite lookup_insert_ne by assumption. intros Hy.
           destruct (Hrel y idx Hy) as (Hidx & w & Hh & Hg & Hw).
           split; [lia|]. exists w. repeat split; try assumption.
           ++ unfold store_lookup in *. simpl. rewrite list_lookup_alter_eq.
              destruct (stores h !! 0%nat) as [st|]; [|discriminate]. simpl.
              now rewrite lookup_insert_ne.
           ++ rewrite lookup_insert_ne by lia. exact Hg.
  - (* expression statement *)
    apply and_then_inr in Hc as (c1 & E1 & Hc).
    inversion Hc; subst c'. clear Hc.
    destruct (expression_shape_core e Hcore c c1 E1) as (codeE & HappE).
    assert (Htable : symbolTable c1 = symbolTable c) by apply HappE.
    assert (code = codeE ++ Make OpPop 0) as ->.
    { rewrite instructions_emit in Hcode.
      destruct HappE as (HiE & _). rewrite HiE, <- app_assoc in Hcode.
      now apply app_inv_head in Hcode. }
    simpl in Hk.
    destruct (sim_expr fuel e c c1 codeE h res h' g Hcore E1 HappE Hev Hok Hrel
                ltac:(lia) (code_at_app_l _ _ _ _ Hi) Hk)
      as (-> & v & -> & Hv & Hsteps).
    split; [right; eauto|].
    destruct (Hsteps [] lp) as (n & lp1 & Hn); [simpl; lia|].
    exists (n + 1)%nat, g, (Some v). split; [|split].
    + apply (stepN_trans _ _ _ _ _ Hn). apply stepN_one.
      eapply stepN_at_one; [|apply step_pop].
      * rewrite length_app. simpl. lia.
      * now apply code_at_app_r in Hi.
    + simpl. now rewrite Htable.
    + now intros w [= ->].
Qed.

Lemma sim_program stmts : forall fuel c c' code h r res hf g lp,
  forallb coreStatement stmts = true ->
  compileStatements stmts c = inr c' ->
  instructions c' = instructions c ++ code ->
  evalProgram_from (Eval no_builtins fuel) stmts (Env 0 None) r h = (Ret res, hf) ->
  isError res = false ->
  related h (symbolTable c) g ->
  Z.of_nat (numDefinitions (symbolTable c) + length stmts) <= 65536 ->
  code_at (Instructions bc) (length (instructions c)) code ->
  constants c' `prefix_of` Constants bc ->
  Forall (fun s => (statementNeed s <= StackSize)%nat) stmts ->
  (forall v, r = Some v -> lp = Some v) ->
  exists n g' lp',
    stepN n (mkVM bc (length (instructions c)) [] g lp)
    = Next (mkVM bc (length (instructions c) + length code) [] g' lp')
    /\ (forall v, res = Some v -> lp' = Some v).
Proof.
  induction stmts as [|s stmts IH];
    intros fuel c c' code h r res hf g lp Hcore Hc Hcode Hev Hok Hrel Hdefs Hi Hk
      Hneed Hlp;
    simpl in Hc, Hev, Hcore.
  - inversion Hc; subst. inversion Hev; subst.
    assert (code = []) as ->.
    { apply (app_inv_head (instructions c')). now rewrite app_nil_r. }
    exists 0%nat, g, lp. split; [|exact Hlp].
    simpl. do 2 f_equal. lia.
  - apply andb_true_iff in Hcore as [Hcore1 Hcore2].
    apply and_then_inr in Hc as (c1 & E1 & Hc).
    destruct (statement_shape _ _ _ Hcore1 E1) as (code1 & Hi1 & Hk1 & Hd1).
    destruct (program_shape _ _ _ Hcore2 Hc) as (code2 & Hi2 & Hk2).
    assert (code = code1 ++ code2) as ->.
    { rewrite Hi2, Hi1, <- app_assoc in Hcode. now apply app_inv_head in Hcode. }
    inversion Hneed as [|? ? Hneed1 Hneed2]; subst.
    unfold bind in Hev.
    destruct (Eval no_builtins fuel (Stmt s) (Env 0 None) h) as [[r1| |] h1] eqn:Es;
      try discriminate.
    assert (Hr1 : isError r1 = false).
    { destruct r1 as [[]|]; try reflexivity. inversion Hev; subst. discriminate. }
    simpl in Hdefs.
    destruct (sim_stmt s fuel c c1 code1 h r1 h1 g lp Hcore1 E1 Hi1 Es Hr1 Hrel)
      as (Hshape & n1 & g1 & lp1 & Hn1 & Hrel1 & Hlp1); try assumption; try lia;
      [now apply code_at_app_l in Hi | now transitivity (constants c') |].
    assert (Hrest : evalProgram_from (Eval no_builtins fuel) stmts (Env 0 None) r1 h1
                    = (Ret res, hf)).
    { destruct Hshape as [->|(v & -> & Hv)]; [exact Hev|].
      destruct v; try discriminate; exact Hev. }
    destruct (IH fuel c1 c' code2 h1 r1 res hf g1 lp1 Hcore2 Hc Hi2 Hrest Hok Hrel1)
      as (n2 & g2 & lp2 & Hn2 & Hlp2); try assumption; try lia.
    { rewrite Hi1, length_app. now apply code_at_app_r in Hi. }
    exists (n1 + n2)%nat, g2, lp2. split; [|exact Hlp2].
    apply (stepN_trans _ _ _ _ _ Hn1).
    eapply stepN_at; [| |exact Hn2]; rewrite ?Hi1, ?length_app; lia.
Qed.

End Simulation.

(** A run goes through the turns of the loop and halts where the
    instructions end. *)
Lemma Run_stepN n : forall m m',
  stepN n m = Next m' ->
  (length (Instructions (bytecode m')) <= ip m')%nat ->
  forall k, Run (n + k) m = Halted m'.
Proof.
  induction n as [|n IH]; intros m m' Hn Hend k; simpl in Hn.
  - inversion Hn; subst. destruct k; simpl;
      now destruct (Nat.leb_spec (length (Instructions (bytecode m'))) (ip m')); try lia.
  - destruct (step m) as [m1| |] eqn:Es; try discriminate.
    simpl. destruct (Nat.leb_spec (length (Instructions (bytecode m))) (ip m)) as [Hge|Hlt].
    + unfold step in Es. rewrite lookup_ge_None_2 in Es by lia. discriminate.
    + rewrite Es. now apply IH.
Qed.

(** The machine of the specification passes the test the sources have
    for it: on each input of [TestIntegerArithmetic] the run halts and the
    value it exposes is the integer the test expects. *)
Lemma machine_passes_TestIntegerArithmetic :
  Forall (fun tt =>
            option_map (fun r => LastPoppedStackElem r) (execute 4 (fst tt))
            = Some (Some (Integer (snd tt))))
    TestIntegerArithmetic.
Proof. repeat constructor. Qed.

(** Where the evaluator and the machine of the specification part.  The
    program [1; let x = 2] has no value in the evaluator (its result is
    nil), while the machine, having run its bytecode, exposes the value [2]
    it popped last.  The program [-1.5] is an [Error] in the evaluator,
    whose [-] takes integers only, and the negated float in the machine,
    which follows the prefix rule of section 4.3. *)
Lemma evaluator_and_vm_differ :
  (run no_builtins 4 ends_in_let = Ret None
   /\ option_map (fun r => LastPoppedStackElem r) (execute 4 ends_in_let)
      = Some (Some (Integer 2)))
  /\ (run no_builtins 4 minus_float = Ret (Some (Error "unknown operator: -FLOAT"))
      /\ option_map (fun r => LastPoppedStackElem r) (execute 4 minus_float)
         = Some (Some (Float (float_neg one_and_a_half)))).
Proof. repeat split; reflexivity. Qed.

(** On the part of the language for which the specification fixes the
    compiler and the machine, they compute what the evaluator computes.  For
    every program made of [let] and expression statements over integer,
    float, string and boolean literals, identifiers, prefix and infix
    operators and conditionals whose branches are non-empty sequences of
    expression statements, that compiles within the resource bounds of the
    machine (65536 constants and globals, instructions that 16-bit jump
    targets can address, 2048 stack slots): if the evaluator, run in a fresh
    environment, yields a value that is not an [Error], then the machine
    halts on the compiled bytecode and the last value it popped is that same
    value. *)
Theorem evaluator_vm_agree stmts bc fuel v
    (Hcore : forallb coreStatement stmts = true)
    (Hcompile : Compile stmts = inr bc)
    (Hev : run no_builtins fuel stmts = Ret (Some v))
    (Hok : isError (Some v) = false)
    (Hlen : Z.of_nat (length stmts) <= 65536)
    (Hconstants : Z.of_nat (length (Constants bc)) <= 65536)
    (Hinstructions : Z.of_nat (length (Instructions bc)) < 65536)
    (Hstack : Forall (fun s => (statementNeed s <= StackSize)%nat) stmts) :
  exists n, forall k, LastPoppedStackElem (Run (n + k) (vm.New bc)) = Some v.
Proof.
  unfold Compile in Hcompile.
  destruct (compileStatements stmts compiler.New) as [|c'] eqn:Ec; [discriminate|].
  inversion Hcompile; subst bc. clear Hcompile. simpl in Hconstants, Hinstructions.
  unfold run, bind, NewEnvironment in Hev. simpl in Hev.
  destruct fuel as [|fuel]; [discriminate Hev|].
  rewrite Eval_S in Hev. cbn [Eval_switch] in Hev. unfold evalProgram in Hev.
  destruct (evalProgram_from (Eval no_builtins fuel) stmts (Env 0 None) None
              (mkHeap [∅] 0)) as [res hf] eqn:Eprog.
  simpl in Hev. subst res.
  destruct (program_shape _ _ _ Hcore Ec) as (code & Hcode & _).
  simpl in Hcode.
  destruct (sim_program (mkBytecode (instructions c') (constants c')) Hconstants
              Hinstructions stmts fuel compiler.New c' code heap0 None (Some v) hf ∅
              None Hcore Ec Hcode Eprog Hok)
    as (n & g' & lp' & Hn & Hlp); try assumption; try reflexivity.
  - split; [simpl; lia|]. intros name idx H. unfold Resolve in H. simpl in H.
    now rewrite lookup_empty in H.
  - exists [], []. simpl. rewrite Hcode, app_nil_r. now split.
  - discriminate.
  - exists n. intros k.
    rewrite (Run_stepN n _ _ Hn) by (simpl; rewrite Hcode; simpl; lia).
    simpl. now apply Hlp.
Qed.

Lemma evaluator_vm_agree_witness :
  exists n, forall k,
    LastPoppedStackElem (Run (n + k) (vm.New five_if_greater_bytecode))
    = Some (Integer 6).
Proof.
  apply (evaluator_vm_agree five_if_greater five_if_greater_bytecode 8 (Integer 6)).
  - reflexivity.
  - reflexivity.
  - reflexivity.
  - reflexivity.
  - simpl. lia.
  - simpl. lia.
  - simpl. lia.
  - repeat constructor; simpl; unfold StackSize; lia.
Defined.

End vm_facts.
(** ** Operators of the evaluator *)

Module operator_facts.
Import golang ast object evaluator samples evaluator_facts.

(** Indexing an array with an integer inside its bounds yields the element
    at that index; outside (negative, or at or beyond the length) it yields
    [NULL].  The slice is never read out of range. *)
Theorem array_index_bounds ptr elems idx
    (Hlen : Z.of_nat (length elems) < 2 ^ 63) :
  (0 <= idx < Z.of_nat (length elems) ->
     exists e, elems !! Z.to_nat idx = Some e
               /\ evalIndexExpression (Some (Array ptr elems)) (Some (Integer idx))
                  = Ret e)
  /\ (idx < 0 \/ Z.of_nat (length elems) <= idx ->
        evalIndexExpression (Some (Array ptr elems)) (Some (Integer idx))
        = Ret (Some NULL)).
Proof.
  assert (Hmax : int64_wrap (Z.of_nat (length elems) - 1)
                 = Z.of_nat (length elems) - 1).
  { unfold int64_wrap. rewrite Z.mod_small; lia. }
  simpl. unfold evalArrayIndexExpression. rewrite Hmax. split.
  - intros Hin.
    destruct (lookup_lt_is_Some_2 elems (Z.to_nat idx)) as [e He]; [lia|].
    exists e. split; [exact He|]. rewrite He.
    destruct (Z.ltb_spec idx 0); [lia|].
    destruct (Z.gtb_spec idx (Z.of_nat (length elems) - 1)); [lia|]. reflexivity.
  - intros [Hneg|Hbig].
    + destruct (Z.ltb_spec idx 0); [reflexivity | lia].
    + destruct (Z.gtb_spec idx (Z.of_nat (length elems) - 1)); [|lia].
      now rewrite orb_true_r.
Qed.

Lemma array_index_bounds_witness :
  (exists e, [Some (Integer 7); Some (Integer 8)] !! Z.to_nat 1 = Some e
             /\ evalIndexExpression
                  (Some (Array 0 [Some (Integer 7); Some (Integer 8)]))
                  (Some (Integer 1)) = Ret e)
  /\ evalIndexExpression (Some (Array 0 [Some (Integer 7); Some (Integer 8)]))
       (Some (Integer 2)) = Ret (Some NULL).
Proof.
  destruct (array_index_bounds 0 [Some (Integer 7); Some (Integer 8)] 1
              ltac:(simpl; lia)) as [Hin _].
  destruct (array_index_bounds 0 [Some (Integer 7); Some (Integer 8)] 2
              ltac:(simpl; lia)) as [_ Hout].
  split; [apply Hin; simpl; lia | apply Hout; simpl; lia].
Defined.

(** *** Hashes *)

(** A key that [Hashable] accepts is equal ([==] on interface values) only
    to itself. *)
Lemma go_eq_Hashable (k0 k : Object) :
  Hashable k = true -> go_eq k0 k = Ret true -> k0 = k.
Proof.
  destruct k; try discriminate; intros _; destruct k0; simpl; try discriminate;
    intros [= H].
  - apply Z.eqb_eq in H. now subst.
  - apply eqb_prop in H. now subst.
  - apply String.eqb_eq in H. now subst.
Qed.

Lemma go_eq_Hashable_refl (k : Object) : Hashable k = true -> go_eq k k = Ret true.
Proof.
  destruct k; try discriminate; intros _; simpl.
  - now rewrite Z.eqb_refl.
  - now rewrite eqb_reflx.
  - now rewrite String.eqb_refl.
Qed.

Lemma Hashable_unhashable (k : Object) : Hashable k = true -> unhashable k = None.
Proof. now destruct k. Qed.

Lemma map_index_update_eq m (k : Object) v :
  Hashable k = true -> map_index (map_update m (Some k) v) (Some k) = Some v.
Proof.
  intros Hk. induction m as [|[k0 v0] m IH]; simpl.
  - now rewrite (go_eq_Hashable_refl k Hk).
  - destruct (iface_eq k0 (Some k)) as [[]| |] eqn:E; simpl; rewrite ?E; auto.
Qed.

Lemma map_index_update_ne m (k k' : Object) v :
  Hashable k = true -> Hashable k' = true -> k' <> k ->
  map_index (map_update m (Some k) v) (Some k') = map_index m (Some k').
Proof.
  intros Hk Hk' Hne. induction m as [|[k0 v0] m IH]; simpl.
  - destruct (go_eq k k') as [[]| |] eqn:E; try reflexivity.
    apply go_eq_Hashable in E; [congruence | assumption].
  - destruct (iface_eq k0 (Some k)) as [[]| |] eqn:E; simpl;
      destruct (iface_eq k0 (Some k')) as [[]| |] eqn:E'; try reflexivity;
      try exact IH.
    destruct k0 as [k0|]; [|discriminate]. simpl in E, E'.
    apply go_eq_Hashable in E; [|assumption].
    apply go_eq_Hashable in E'; [|assumption]. congruence.
Qed.

(** Indexing a hash never panics, whatever the index: an index that is not
    [Hashable] (a hash among them, which the run time could not hash) is
    answered by an [Error], a key that is not in the hash by [NULL]. *)
Theorem hash_index_never_panics pairs (index : Object) :
  (exists r, evalIndexExpression (Some (Hash pairs)) (Some index) = Ret r)
  /\ (Hashable index = false ->
        evalIndexExpression (Some (Hash pairs)) (Some index)
        = Ret (Some (newError ("unusable as hash key: "
                               +:+ ObjectType_String (Type_ index)))))
  /\ (Hashable index = true ->
        Forall (fun kv => kv.1 <> Some index) pairs ->
        evalIndexExpression (Some (Hash pairs)) (Some index) = Ret (Some NULL)).
Proof.
  simpl. unfold evalHashIndexExpression. split; [|split].
  - destruct (Hashable index); simpl; [|eauto].
    destruct (map_index pairs (Some index)); eauto.
  - now intros ->.
  - intros Hk Habsent. rewrite Hk. simpl.
    assert (map_index pairs (Some index) = None) as ->; [|reflexivity].
    induction Habsent as [|[k0 v0] m Hne _ IH]; [reflexivity|]. simpl in *.
    destruct (iface_eq k0 (Some index)) as [[]| |] eqn:E; try exact IH.
    destruct k0 as [k0|]; [|discriminate]. simpl in E.
    apply go_eq_Hashable in E; [congruence | assumption].
Qed.

Lemma hash_index_never_panics_witness :
  evalIndexExpression (Some (Hash [(Some (Integer 1), Some (Integer 2))]))
    (Some (Hash []))
  = Ret (Some (newError ("unusable as hash key: " +:+ ObjectType_String HASH)))
  /\ evalIndexExpression (Some (Hash [(Some (Integer 1), Some (Integer 2))]))
       (Some (Integer 3))
     = Ret (Some NULL).
Proof.
  destruct (hash_index_never_panics [(Some (Integer 1), Some (Integer 2))] (Hash []))
    as (_ & Hbad & _).
  destruct (hash_index_never_panics [(Some (Integer 1), Some (Integer 2))] (Integer 3))
    as (_ & _ & Habsent).
  split; [apply Hbad; reflexivity | apply Habsent; [reflexivity|]].
  repeat constructor. discriminate.
Defined.

(** What the assignment [m[key] = value] of a hash literal stores under a
    [Hashable] key is what indexing the hash with that key yields (the last
    assignment wins), and every other [Hashable] key is answered as before
    the assignment. *)
Theorem hash_assign_then_index m (k : Object) v
    (Hk : Hashable k = true) :
  exists m', map_assign m (Some k) v = Ret m'
    /\ evalIndexExpression (Some (Hash m')) (Some k) = Ret v
    /\ forall k' : Object, Hashable k' = true -> k' <> k ->
         evalIndexExpression (Some (Hash m')) (Some k')
         = evalIndexExpression (Some (Hash m)) (Some k').
Proof.
  exists (map_update m (Some k) v). unfold map_assign.
  rewrite (Hashable_unhashable k Hk). split; [reflexivity|].
  simpl. unfold evalHashIndexExpression. rewrite Hk. simpl. split.
  - now rewrite map_index_update_eq.
  - intros k' Hk' Hne. rewrite Hk'. simpl.
    now rewrite map_index_update_ne.
Qed.

Lemma hash_assign_then_index_witness :
  exists m', map_assign [(Some (Integer 1), Some (Integer 2))] (Some (Integer 1))
               (Some (Integer 5)) = Ret m'
    /\ evalIndexExpression (Some (Hash m')) (Some (Integer 1)) = Ret (Some (Integer 5))
    /\ forall k' : Object, Hashable k' = true -> k' <> Integer 1 ->
         evalIndexExpression (Some (Hash m')) (Some k')
         = evalIndexExpression (Some (Hash [(Some (Integer 1), Some (Integer 2))]))
             (Some k').
Proof.
  apply (hash_assign_then_index [(Some (Integer 1), Some (Integer 2))] (Integer 1)
           (Some (Integer 5))).
  reflexivity.
Defined.

(** *** Prefix operators *)

(** [!] negates truthiness: [!x] is [TRUE] exactly when [isTruthy] says that
    [x] is not truthy, so [!!x] is the truthiness of [x] as a [Bool]. *)
Theorem bang_negates_truthiness (x : option Object) :
  evalBangOperatorExpression x = object.Bool (negb (isTruthy x))
  /\ evalBangOperatorExpression (Some (evalBangOperatorExpression x))
     = object.Bool (isTruthy x).
Proof. destruct x as [[| |[]| | | | | | | |]|]; split; reflexivity. Qed.

Lemma int64_wrap_small z : - 2 ^ 63 <= z < 2 ^ 63 -> int64_wrap z = z.
Proof. intros H. unfold int64_wrap. rewrite Z.mod_small; lia. Qed.

(** Negating an [Integer] twice gives the [Integer] back, for every value of
    the 64-bit range: the least one, whose negation wraps around to itself,
    included. *)
Theorem minus_twice (i : Z)
    (Hrange : - 2 ^ 63 <= i < 2 ^ 63) :
  exists j, evalPrefixExpression "-" (Some (Integer i)) = Ret (Integer j)
            /\ - 2 ^ 63 <= j < 2 ^ 63
            /\ evalPrefixExpression "-" (Some (Integer j)) = Ret (Integer i).
Proof.
  assert (Hminus : forall x, evalPrefixExpression "-" (Some (Integer x))
                             = Ret (Integer (int64_wrap (-1 * x)))) by reflexivity.
  exists (int64_wrap (-1 * i)). rewrite !Hminus.
  destruct (Z.eq_dec i (- 2 ^ 63)) as [->|Hne].
  - repeat split; vm_compute; congruence.
  - rewrite (int64_wrap_small (-1 * i)) by lia.
    repeat split; try lia. do 2 f_equal.
    rewrite int64_wrap_small by lia. lia.
Qed.

Lemma minus_twice_witness :
  exists j, evalPrefixExpression "-" (Some (Integer (- 2 ^ 63))) = Ret (Integer j)
            /\ - 2 ^ 63 <= j < 2 ^ 63
            /\ evalPrefixExpression "-" (Some (Integer j)) = Ret (Integer (- 2 ^ 63)).
Proof. apply (minus_twice (- 2 ^ 63)). lia. Defined.

(** *** Infix operators *)

(** Dividing an [Integer] by the [Integer] zero is not answered by an
    [Error]: it panics, in the evaluator as in the Go run time, and the
    panic leaves the infix expression. *)
Theorem integer_division_by_zero builtins fuel leftNode rightNode env h a h1 h2
    (Hleft : Eval builtins fuel (Expr leftNode) env h = (Ret (Some (Integer a)), h1))
    (Hright : Eval builtins fuel (Expr rightNode) env h1
              = (Ret (Some (Integer 0)), h2)) :
  Eval builtins (S fuel) (Expr (InfixExpression "/" leftNode rightNode)) env h
  = (Panic divide_by_zero, h2).
Proof.
  rewrite Eval_S. cbn [Eval_switch].
  rewrite (bind_Ret _ _ _ _ _ Hleft).
  change (isError (Some (Integer a))) with false. cbv iota.
  rewrite (bind_Ret _ _ _ _ _ Hright). reflexivity.
Qed.

Lemma integer_division_by_zero_witness :
  Eval no_builtins 2 (Expr (InfixExpression "/" (IntegerLiteral 1) (IntegerLiteral 0)))
    env0 heap0
  = (Panic divide_by_zero, heap0).
Proof.
  apply (integer_division_by_zero no_builtins 1 (IntegerLiteral 1) (IntegerLiteral 0)
           env0 heap0 1 heap0 heap0); reflexivity.
Defined.

(** Operands of two different types, not both numbers: [==] answers
    [FALSE] and [!=] answers [TRUE]; every other operator is answered by the
    [Error] "type mismatch".  (An [Integer] next to a [Float] is converted
    and computed with.) *)
Theorem infix_on_different_types operator (l r : Object)
    (Hdiff : Type_ l <> Type_ r)
    (Hnum : (Type_ l <> INTEGER /\ Type_ l <> FLOAT)
            \/ (Type_ r <> INTEGER /\ Type_ r <> FLOAT)) :
  evalInfixExpression operator (Some l) (Some r)
  = Ret (if String.eqb operator "==" then FALSE
         else if String.eqb operator "!=" then TRUE
         else type_mismatch (Type_ l) operator (Type_ r)).
Proof.
  destruct l, r; simpl in Hdiff, Hnum; try congruence;
    try (exfalso; destruct Hnum as [[H1 H2]|[H1 H2]]; congruence);
    unfold evalInfixExpression;
    destruct (String.eqb operator "=="); try reflexivity;
    destruct (String.eqb operator "!="); reflexivity.
Qed.

Lemma infix_on_different_types_witness :
  evalInfixExpression "==" (Some (Integer 1)) (Some (object.Bool true)) = Ret FALSE
  /\ evalInfixExpression "+" (Some (Integer 1)) (Some (object.Bool true))
     = Ret (type_mismatch INTEGER "+" BOOL).
Proof.
  split.
  - apply (infix_on_different_types "==" (Integer 1) (object.Bool true));
      [discriminate | right; split; discriminate].
  - apply (infix_on_different_types "+" (Integer 1) (object.Bool true));
      [discriminate | right; split; discriminate].
Defined.

(** Two strings can be concatenated and nothing else: every operator but
    [+], the comparisons [==] and [!=] among them, is answered by the
    [Error] "unknown operator". *)
Theorem string_infix operator s t :
  evalInfixExpression operator (Some (object.String s)) (Some (object.String t))
  = Ret (if String.eqb operator "+" then object.String (s +:+ t)
         else newError ("unknown operator: STRING " +:+ operator +:+ " STRING")).
Proof.
  unfold evalInfixExpression, evalStringInfixExpression.
  now destruct (String.eqb operator "+").
Qed.

(** Comparing two hashes with [==] or [!=] panics: a Go map is not
    comparable, and nothing recovers from the panic. *)
Theorem hash_comparison_panics builtins fuel operator leftNode rightNode env
    h a h1 b h2
    (Hop : operator = "==" \/ operator = "!=")
    (Hleft : Eval builtins fuel (Expr leftNode) env h = (Ret (Some (Hash a)), h1))
    (Hright : Eval builtins fuel (Expr rightNode) env h1 = (Ret (Some (Hash b)), h2)) :
  Eval builtins (S fuel) (Expr (InfixExpression operator leftNode rightNode)) env h
  = (Panic (uncomparable_type "object.Hash"), h2).
Proof.
  rewrite Eval_S. cbn [Eval_switch].
  rewrite (bind_Ret _ _ _ _ _ Hleft).
  change (isError (Some (Hash a))) with false. cbv iota.
  rewrite (bind_Ret _ _ _ _ _ Hright).
  change (isError (Some (Hash b))) with false. cbv iota.
  destruct Hop as [-> | ->]; reflexivity.
Qed.

Lemma hash_comparison_panics_witness :
  Eval no_builtins 2 (Expr (InfixExpression "==" (HashLiteral []) (HashLiteral [])))
    env0 heap0
  = (Panic (uncomparable_type "object.Hash"), heap0).
Proof.
  apply (hash_comparison_panics no_builtins 1 "==" (HashLiteral []) (HashLiteral [])
           env0 heap0 [] heap0 [] heap0); [now left | reflexivity | reflexivity].
Defined.

End operator_facts.
(** ** The loops of the evaluator *)

Module loop_facts.
Import golang ast object evaluator samples evaluator_facts program_facts error_facts.

Section Loops.
Variable ev : Node -> Environment -> M (option Object).

Lemma evalExpressions_from_shape exps env : forall acc h vs h',
  evalExpressions_from ev exps env acc h = (Ret vs, h') ->
  Forall (fun v => isError v = false) acc ->
  (exists msg, vs = [Some (Error msg)])
  \/ (length vs = (length acc + length exps)%nat
      /\ Forall (fun v => isError v = false) vs).
Proof.
  induction exps as [|e exps IH]; intros acc h vs h' Hev Hacc; simpl in Hev.
  - inversion Hev; subst. right. split; [simpl; lia | exact Hacc].
  - unfold bind in Hev.
    destruct (ev (Expr e) env h) as [[v| |] h1] eqn:Ee; try discriminate.
    destruct (isError v) eqn:Ev.
    + inversion Hev; subst. left.
      destruct (isError_true_inv v Ev) as [msg ->]. eauto.
    + destruct (IH _ _ _ _ Hev) as [Herr|[Hlen Hok]].
      * apply Forall_app. split; [exact Hacc | now constructor].
      * now left.
      * right. split; [|exact Hok]. rewrite Hlen, length_app. simpl. lia.
Qed.

End Loops.

(** [evalExpressions] returns either one [Error] alone -- the first that an
    expression evaluated to -- or one value for each expression, in order,
    none of them an [Error]. *)
Theorem evalExpressions_shape builtins fuel exps env h vs h'
    (Hev : evalExpressions (Eval builtins fuel) exps env h = (Ret vs, h')) :
  (exists msg, vs = [Some (Error msg)])
  \/ (length vs = length exps /\ Forall (fun v => isError v = false) vs).
Proof.
  apply (evalExpressions_from_shape _ exps env [] h vs h' Hev). constructor.
Qed.

Lemma evalExpressions_shape_witness :
  (exists msg, [Some (Integer 1); Some (Integer 2)] = [Some (Error msg)])
  \/ (length [Some (Integer 1); Some (Integer 2)]
      = length [IntegerLiteral 1; IntegerLiteral 2]
      /\ Forall (fun v => isError v = false) [Some (Integer 1); Some (Integer 2)]).
Proof.
  apply (evalExpressions_shape no_builtins 1 [IntegerLiteral 1; IntegerLiteral 2]
           env0 heap0 [Some (Integer 1); Some (Integer 2)] heap0).
  reflexivity.
Defined.

(** A hash literal never panics: a panic of one of its key or value
    expressions -- a division by zero, a call with too few arguments -- is
    recovered and comes out as the [Error] "unhashable key", with the
    message of the panic. *)
Theorem hash_literal_reports_panics builtins fuel pre keyNode valueNode post env
    h m h1 r h2
    (Hpre : evalHashLiteral_from (Eval builtins fuel) pre env [] h
            = (Ret (Some (Hash m)), h1))
    (Hpanic : Eval builtins fuel (Expr keyNode) env h1 = (Panic r, h2)
              \/ exists key h',
                   Eval builtins fuel (Expr keyNode) env h1 = (Ret key, h')
                   /\ isError key = false
                   /\ Eval builtins fuel (Expr valueNode) env h' = (Panic r, h2)) :
  Eval builtins (S fuel)
    (Expr (HashLiteral (pre ++ (keyNode, valueNode) :: post))) env h
  = (Ret (Some (newError ("unhashable key: " +:+ r))), h2).
Proof.
  rewrite Eval_S. cbn [Eval_switch]. unfold evalHashLiteral, recover.
  rewrite (evalHashLiteral_from_app _ pre _ env [] h m h1 Hpre).
  simpl. unfold bind.
  destruct Hpanic as [Hk|(key & h' & Hk & Hok & Hv)].
  - now rewrite Hk.
  - rewrite Hk, Hok. now rewrite Hv.
Qed.

Lemma hash_literal_reports_panics_witness :
  Eval no_builtins 3
    (Expr (HashLiteral [(InfixExpression "/" (IntegerLiteral 1) (IntegerLiteral 0),
                         IntegerLiteral 1)])) env0 heap0
  = (Ret (Some (newError ("unhashable key: " +:+ divide_by_zero))), heap0).
Proof.
  apply (hash_literal_reports_panics no_builtins 2 []
           (InfixExpression "/" (IntegerLiteral 1) (IntegerLiteral 0))
           (IntegerLiteral 1) [] env0 heap0 [] heap0 divide_by_zero heap0).
  - reflexivity.
  - left. reflexivity.
Defined.

(** A block ends at the first statement that yields a [ReturnValue] and
    passes it on with its wrapper, so that the blocks around it end as well:
    the statements after it are not evaluated, and an [if] whose chosen
    branch ends this way yields the wrapped value too. *)
Theorem block_stops_at_return builtins fuel pre s post env h h1 v h2
    (Hpre : runsThrough (Eval builtins fuel) pre env h = Some h1)
    (Hs : Eval builtins fuel (Stmt s) env h1 = (Ret (Some (ReturnValue v)), h2)) :
  Eval builtins (S fuel) (Stmt (BlockStatement (pre ++ s :: post))) env h
  = (Ret (Some (ReturnValue v)), h2)
  /\ forall condition alternative h0 c,
       Eval builtins (S fuel) (Expr condition) env h0 = (Ret c, h) ->
       isError c = false -> isTruthy c = true ->
       Eval builtins (S (S fuel))
         (Expr (IfExpression condition (pre ++ s :: post) alternative)) env h0
       = (Ret (Some (ReturnValue v)), h2).
Proof.
  assert (Hblock : Eval builtins (S fuel) (Stmt (BlockStatement (pre ++ s :: post)))
                     env h = (Ret (Some (ReturnValue v)), h2)).
  { rewrite Eval_S. cbn [Eval_switch]. unfold evalBlockStatement.
    destruct (evalBlockStatement_from_runsThrough _ pre (s :: post) env None h h1 Hpre)
      as [r' ->].
    simpl. now rewrite (bind_Ret _ _ _ _ _ Hs). }
  split; [exact Hblock|].
  intros condition alternative h0 c Hc Herr Htruthy.
  rewrite Eval_S. cbn [Eval_switch]. unfold evalIfExpression.
  rewrite (bind_Ret _ _ _ _ _ Hc), Herr, Htruthy. exact Hblock.
Qed.

Lemma block_stops_at_return_witness :
  Eval no_builtins 3
    (Stmt (BlockStatement ([ExpressionStatement (IntegerLiteral 1)]
                           ++ ReturnStatement (IntegerLiteral 2)
                              :: [ExpressionStatement (IntegerLiteral 3)]))) env0 heap0
  = (Ret (Some (ReturnValue (Some (Integer 2)))), heap0)
  /\ forall condition alternative h0 c,
       Eval no_builtins 3 (Expr condition) env0 h0 = (Ret c, heap0) ->
       isError c = false -> isTruthy c = true ->
       Eval no_builtins 4
         (Expr (IfExpression condition
                  ([ExpressionStatement (IntegerLiteral 1)]
                   ++ ReturnStatement (IntegerLiteral 2)
                      :: [ExpressionStatement (IntegerLiteral 3)]) alternative))
         env0 h0
       = (Ret (Some (ReturnValue (Some (Integer 2)))), heap0).
Proof.
  apply (block_stops_at_return no_builtins 2 [ExpressionStatement (IntegerLiteral 1)]
           (ReturnStatement (IntegerLiteral 2))
           [ExpressionStatement (IntegerLiteral 3)] env0 heap0 heap0
           (Some (Integer 2)) heap0); reflexivity.
Defined.

End loop_facts.
(** ** Allocation: pointers and stores *)

Module heap_facts.
Import golang ast object evaluator samples evaluator_facts heap_order.

Lemma heap_le_refl h : heap_le h h.
Proof. split; lia. Qed.

Lemma heap_le_trans h1 h2 h3 : heap_le h1 h2 -> heap_le h2 h3 -> heap_le h1 h3.
Proof. intros [? ?] [? ?]. split; lia. Qed.

Lemma grows_ret {A} (a : A) : grows (ret a).
Proof. intros h o h' [= _ <-]. apply heap_le_refl. Qed.

Lemma grows_panic {A} r : grows (@panic A r).
Proof. intros h o h' [= _ <-]. apply heap_le_refl. Qed.

Lemma grows_diverge {A} : grows (@diverge A).
Proof. intros h o h' [= _ <-]. apply heap_le_refl. Qed.

Lemma grows_lift {A} (o : outcome A) : grows (lift o).
Proof. intros h o' h' [= _ <-]. apply heap_le_refl. Qed.

Lemma grows_bind {A B} (m : M A) (k : A -> M B) :
  grows m -> (forall a, grows (k a)) -> grows (bind m k).
Proof.
  intros Hm Hk h o h' H. unfold bind in H.
  destruct (m h) as [[a| |] h1] eqn:Em.
  - eapply heap_le_trans; [eapply Hm; exact Em | eapply Hk; exact H].
  - inversion H; subst. eapply Hm; exact Em.
  - inversion H; subst. eapply Hm; exact Em.
Qed.

Lemma grows_recover {A} (m : M A) handler : grows m -> grows (recover m handler).
Proof.
  intros Hm h o h' H. unfold recover in H.
  destruct (m h) as [[a| |] h1] eqn:Em; inversion H; subst; eapply Hm; exact Em.
Qed.

Lemma grows_newPtr : grows newPtr.
Proof. intros h o h' [= _ <-]. split; simpl; lia. Qed.

Lemma grows_Set_ e name val : grows (Set_ e name val).
Proof.
  destruct e. intros h o h' [= _ <-]. split; simpl; [|lia].
  now rewrite length_alter.
Qed.

Lemma grows_NewEnclosedEnvironment parent : grows (NewEnclosedEnvironment parent).
Proof. intros h o h' [= _ <-]. split; simpl; [|lia]. rewrite length_app. lia. Qed.

Lemma grows_bindParameters env params : forall idx args,
  grows (bindParameters env idx params args).
Proof.
  induction params as [|p ps IH]; intros idx args; simpl.
  - apply grows_ret.
  - destruct (args !! idx); [|apply grows_panic].
    apply grows_bind; [apply grows_Set_ | intros _; apply IH].
Qed.

Lemma grows_evalIdentifier builtins name env : grows (evalIdentifier builtins name env).
Proof.
  intros h o h' H. unfold evalIdentifier in H.
  destruct (Get h env name); [|destruct (builtins name)]; inversion H; subst;
    apply heap_le_refl.
Qed.

Section Grows.
Variable builtins : string -> option BuiltinFunction.
Hypothesis builtins_grow : forall name Fn args,
  builtins name = Some Fn -> grows (Fn args).

Section Step.
Variable ev : Node -> Environment -> M (option Object).
Hypothesis ev_grows : forall node env, grows (ev node env).

Lemma grows_evalExpressions_from exps env : forall acc,
  grows (evalExpressions_from ev exps env acc).
Proof.
  induction exps as [|e exps IH]; intros acc; simpl.
  - apply grows_ret.
  - apply grows_bind; [apply ev_grows|]. intros v.
    destruct (isError v); [apply grows_ret | apply IH].
Qed.

Lemma grows_evalProgram_from stmts env : forall r,
  grows (evalProgram_from ev stmts env r).
Proof.
  induction stmts as [|s stmts IH]; intros r; simpl.
  - apply grows_ret.
  - apply grows_bind; [apply ev_grows|]. intros [[]|]; try apply IH; apply grows_ret.
Qed.

Lemma grows_evalBlockStatement_from stmts env : forall r,
  grows (evalBlockStatement_from ev stmts env r).
Proof.
  induction stmts as [|s stmts IH]; intros r; simpl.
  - apply grows_ret.
  - apply grows_bind; [apply ev_grows|]. intros [v|]; [|apply IH].
    destruct (_ || _); [apply grows_ret | apply IH].
Qed.

Lemma grows_evalHashLiteral_from pairs env : forall m,
  grows (evalHashLiteral_from ev pairs env m).
Proof.
  induction pairs as [|[k v] pairs IH]; intros m; simpl.
  - apply grows_ret.
  - apply grows_bind; [apply ev_grows|]. intros key.
    destruct (isError key); [apply grows_ret|].
    apply grows_bind; [apply ev_grows|]. intros value.
    destruct (isError value); [apply grows_ret|].
    apply grows_bind; [apply grows_lift | intros m'; apply IH].
Qed.

Lemma grows_applyFunction fn args : grows (applyFunction builtins ev fn args).
Proof.
  unfold applyFunction. destruct fn as [[]|]; try apply grows_ret;
    try apply grows_panic.
  - apply grows_bind.
    + unfold extendFunctionEnv.
      apply grows_bind; [apply grows_NewEnclosedEnvironment|]. intros e.
      apply grows_bind; [apply grows_bindParameters | intros _; apply grows_ret].
    + intros e. apply grows_bind; [apply ev_grows | intros v; apply grows_ret].
  - destruct (builtins name) as [Fn|] eqn:E; [|apply grows_panic].
    now apply (builtins_grow name).
Qed.

Lemma grows_Eval_switch node env : grows (Eval_switch builtins ev node env).
Proof.
  destruct node as [stmts|[]|[]]; cbn [Eval_switch];
    unfold evalProgram, evalBlockStatement, evalExpressions, evalIfExpression,
      evalHashLiteral;
    repeat first
      [ apply grows_ret | apply grows_lift | apply grows_newPtr | apply grows_Set_
      | apply ev_grows | apply grows_evalIdentifier
      | apply grows_evalProgram_from | apply grows_evalBlockStatement_from
      | apply grows_evalExpressions_from | apply grows_applyFunction
      | apply grows_recover, grows_evalHashLiteral_from
      | apply grows_bind; [|intros ?]
      | match goal with
        | |- grows (if ?b then _ else _) => destruct b
        | |- grows (match ?x with _ => _ end) => destruct x
        end ].
Qed.

End Step.

Lemma grows_Eval fuel : forall node env, grows (Eval builtins fuel node env).
Proof.
  induction fuel as [|fuel IH]; intros node env.
  - apply grows_diverge.
  - rewrite Eval_S. now apply grows_Eval_switch.
Qed.

End Grows.

(** The pointer of the array that an array literal evaluates to is taken
    during its evaluation. *)
Lemma array_literal_pointer builtins fuel elements env h p elems h' :
  (forall name Fn args, builtins name = Some Fn -> grows (Fn args)) ->
  Eval builtins fuel (Expr (ArrayLiteral elements)) env h
  = (Ret (Some (Array p elems)), h') ->
  (nextPtr h <= p < nextPtr h')%nat.
Proof.
  intros Hb Hev. destruct fuel as [|fuel]; [discriminate Hev|].
  rewrite Eval_S in Hev. cbn [Eval_switch] in Hev. unfold bind in Hev.
  destruct (evalExpressions (Eval builtins fuel) elements env h)
    as [[vs| |] h1] eqn:Ees; try discriminate.
  assert (Hle : heap_le h h1).
  { eapply (grows_evalExpressions_from (Eval builtins fuel)); [|exact Ees].
    intros node e. now apply grows_Eval. }
  destruct Hle as [_ Hle].
  destruct vs as [|a [|b vs]]; [| destruct (isError a) eqn:Ea |];
    unfold newPtr, ret in Hev; simpl in Hev; inversion Hev; subst; simpl; try lia.
  destruct (isError_true_inv _ Ea) as [msg Hmsg]. discriminate.
Qed.

(** Arrays are compared by identity, not by contents: two array literals
    are never [==], whatever their elements, while a name bound to an array
    is [==] to itself. *)
Theorem arrays_compare_by_identity builtins fuel env
    (Hbuiltins : forall name Fn args, builtins name = Some Fn -> grows (Fn args)) :
  (forall ls rs h p es h1 q fs h2,
      Eval builtins fuel (Expr (ArrayLiteral ls)) env h
      = (Ret (Some (Array p es)), h1) ->
      Eval builtins fuel (Expr (ArrayLiteral rs)) env h1
      = (Ret (Some (Array q fs)), h2) ->
      Eval builtins (S fuel)
        (Expr (InfixExpression "==" (ArrayLiteral ls) (ArrayLiteral rs))) env h
      = (Ret (Some FALSE), h2))
  /\ (forall name h p es,
        Get h env name = Some (Some (Array p es)) ->
        Eval builtins (S (S fuel))
          (Expr (InfixExpression "==" (Identifier name) (Identifier name))) env h
        = (Ret (Some TRUE), h)).
Proof.
  split.
  - intros ls rs h p es h1 q fs h2 Hl Hr.
    pose proof (array_literal_pointer _ _ _ _ _ _ _ _ Hbuiltins Hl) as Hp.
    pose proof (array_literal_pointer _ _ _ _ _ _ _ _ Hbuiltins Hr) as Hq.
    rewrite Eval_S. cbn [Eval_switch].
    rewrite (bind_Ret _ _ _ _ _ Hl).
    change (isError (Some (Array p es))) with false. cbv iota.
    rewrite (bind_Ret _ _ _ _ _ Hr).
    change (isError (Some (Array q fs))) with false. cbv iota.
    unfold bind, lift, ret. simpl.
    destruct (Nat.eqb_spec p q); [lia | reflexivity].
  - intros name h p es Hget.
    assert (Hid : Eval builtins (S fuel) (Expr (Identifier name)) env h
                  = (Ret (Some (Array p es)), h)).
    { rewrite Eval_S. cbn [Eval_switch]. unfold evalIdentifier. now rewrite Hget. }
    rewrite Eval_S. cbn [Eval_switch].
    rewrite (bind_Ret _ _ _ _ _ Hid).
    change (isError (Some (Array p es))) with false. cbv iota.
    rewrite (bind_Ret _ _ _ _ _ Hid).
    change (isError (Some (Array p es))) with false. cbv iota.
    unfold bind, lift, ret. simpl. now rewrite Nat.eqb_refl.
Qed.

Lemma arrays_compare_by_identity_witness :
  Eval no_builtins 3
    (Expr (InfixExpression "==" (ArrayLiteral [IntegerLiteral 1])
             (ArrayLiteral [IntegerLiteral 1]))) env0 heap0
  = (Ret (Some FALSE), mkHeap [∅] 2)
  /\ Eval no_builtins 2
       (Expr (InfixExpression "==" (Identifier "a") (Identifier "a"))) env0
       (mkHeap [{["a" := Some (Array 0 [Some (Integer 1)])]}] 1)
     = (Ret (Some TRUE), mkHeap [{["a" := Some (Array 0 [Some (Integer 1)])]}] 1).
Proof.
  assert (Hb : forall name Fn args, no_builtins name = Some Fn -> grows (Fn args))
    by discriminate.
  destruct (arrays_compare_by_identity no_builtins 2 env0 Hb) as [Hdiff _].
  destruct (arrays_compare_by_identity no_builtins 0 env0 Hb) as [_ Hsame].
  split.
  - apply (Hdiff [IntegerLiteral 1] [IntegerLiteral 1] heap0 0%nat
             [Some (Integer 1)] (mkHeap [∅] 1) 1%nat [Some (Integer 1)]);
      reflexivity.
  - apply (Hsame "a" _ 0%nat [Some (Integer 1)]). reflexivity.
Defined.

End heap_facts.
(** ** Environments *)

Module environment_facts.
Import golang ast object evaluator samples evaluator_facts closure_facts heap_order.

(** Lookup through an allocated chain reads allocated stores only. *)
Lemma Get_allocated h h' name : forall e,
  allocated h e ->
  (forall l, (l < length (stores h))%nat ->
             store_lookup h' l name = store_lookup h l name) ->
  Get h' e name = Get h e name.
Proof.
  fix IH 1. intros [l parent] [Hl Hp] Hsame. simpl. rewrite (Hsame l Hl).
  destruct (store_lookup h l name); [reflexivity|].
  destruct parent as [p|]; [|reflexivity]. now apply IH.
Qed.

Lemma store_lookup_push h l name :
  (l < length (stores h))%nat ->
  store_lookup (mkHeap (stores h ++ [∅]) (nextPtr h)) l name = store_lookup h l name.
Proof. intros Hl. unfold store_lookup. simpl. now rewrite lookup_app_l. Qed.

Lemma store_lookup_Set_ne l parent name val h l' name' :
  l' <> l \/ name' <> name ->
  store_lookup (snd (Set_ (Env l parent) name val h)) l' name'
  = store_lookup h l' name'.
Proof.
  intros Hor. unfold store_lookup. simpl.
  destruct (decide (l' = l)) as [->|Hne].
  - rewrite list_lookup_alter_eq. destruct (stores h !! l) as [st|]; [|reflexivity].
    simpl. apply lookup_insert_ne. destruct Hor; congruence.
  - now rewrite list_lookup_alter_ne by congruence.
Qed.

Lemma Get_Set_other l parent name val h e name' :
  name' <> name ->
  Get (snd (Set_ (Env l parent) name val h)) e name' = Get h e name'.
Proof.
  intros Hne. apply Get_agree. intros l'. apply store_lookup_Set_ne. now right.
Qed.

(** [Set] then [Get]: the environment holds the value under the name, and
    no environment sees a change under any other name. *)
Theorem Set_then_Get l parent name val h
    (Hl : (l < length (stores h))%nat) :
  Get (snd (Set_ (Env l parent) name val h)) (Env l parent) name = Some val
  /\ forall e name', name' <> name ->
       Get (snd (Set_ (Env l parent) name val h)) e name' = Get h e name'.
Proof.
  split; [now apply Get_Set_|].
  intros e name' Hne. now apply Get_Set_other.
Qed.

Lemma Set_then_Get_witness :
  Get (snd (Set_ env0 "x" (Some (Integer 1)) heap0)) env0 "x" = Some (Some (Integer 1))
  /\ forall e name', name' <> "x" ->
       Get (snd (Set_ env0 "x" (Some (Integer 1)) heap0)) e name' = Get heap0 e name'.
Proof. apply (Set_then_Get 0 None "x" (Some (Integer 1)) heap0). simpl. lia. Defined.

(** An enclosed environment starts out showing what its parent holds; a
    binding made in it shadows the parent's and is seen through it, and
    nothing that is set in it changes what the parent holds. *)
Theorem enclosed_environment_shadows outer h
    (Houter : allocated h outer) :
  exists inner h1,
    NewEnclosedEnvironment outer h = (Ret inner, h1)
    /\ (forall name, Get h1 inner name = Get h outer name)
    /\ forall name val,
         Get (snd (Set_ inner name val h1)) inner name = Some val
         /\ (forall name', name' <> name ->
               Get (snd (Set_ inner name val h1)) inner name' = Get h outer name')
         /\ (forall name',
               Get (snd (Set_ inner name val h1)) outer name' = Get h outer name').
Proof.
  exists (Env (length (stores h)) (Some outer)), (mkHeap (stores h ++ [∅]) (nextPtr h)).
  split; [reflexivity|].
  assert (Hfresh : forall name,
             store_lookup (mkHeap (stores h ++ [∅]) (nextPtr h)) (length (stores h)) name
             = None).
  { intros name. unfold store_lookup. simpl.
    rewrite list_lookup_middle by reflexivity. apply lookup_empty. }
  assert (Hpush : forall name,
             Get (mkHeap (stores h ++ [∅]) (nextPtr h)) outer name = Get h outer name).
  { intros name. apply Get_allocated; [exact Houter|].
    intros l Hl. now apply store_lookup_push. }
  split.
  - intros name. simpl. rewrite Hfresh. apply Hpush.
  - intros name val. split; [|split].
    + apply Get_Set_. simpl. rewrite length_app. simpl. lia.
    + intros name' Hne. rewrite Get_Set_other by exact Hne.
      simpl. rewrite Hfresh. apply Hpush.
    + intros name'. apply Get_allocated; [exact Houter|].
      intros l Hl. rewrite store_lookup_Set_ne by (left; lia).
      now apply store_lookup_push.
Qed.

Lemma enclosed_environment_shadows_witness :
  exists inner h1,
    NewEnclosedEnvironment env0 heap0 = (Ret inner, h1)
    /\ (forall name, Get h1 inner name = Get heap0 env0 name)
    /\ forall name val,
         Get (snd (Set_ inner name val h1)) inner name = Some val
         /\ (forall name', name' <> name ->
               Get (snd (Set_ inner name val h1)) inner name' = Get heap0 env0 name')
         /\ (forall name',
               Get (snd (Set_ inner name val h1)) env0 name' = Get heap0 env0 name').
Proof. apply (enclosed_environment_shadows env0 heap0). simpl. split; [lia | exact I]. Defined.

(** Binding parameters writes each parameter's argument into the store of
    the call frame. *)
Lemma bindParameters_binds l parent params : forall idx args h,
  NoDup params ->
  (idx + length params <= length args)%nat ->
  (l < length (stores h))%nat ->
  exists h', bindParameters (Env l parent) idx params args h = (Ret tt, h')
    /\ forall i p, params !! i = Some p ->
         exists a, args !! (idx + i)%nat = Some a /\ store_lookup h' l p = Some a.
Proof.
  induction params as [|p ps IH]; intros idx args h Hnodup Hlen Hl; simpl in *.
  - exists h. split; [reflexivity|]. intros i q Hq. now rewrite lookup_nil in Hq.
  - apply NoDup_cons in Hnodup as [Hp Hnodup].
    destruct (lookup_lt_is_Some_2 args idx) as [a Ea]; [lia|]. rewrite Ea.
    unfold bind. simpl.
    set (h1 := mkHeap (alter (fun st => <[p := a]> st) l (stores h)) (nextPtr h)).
    destruct (IH (S idx) args h1 Hnodup) as (h' & Hb & Hbound);
      [lia | simpl; now rewrite length_alter |].
    exists h'. split; [exact Hb|].
    intros [|i] q Hq; simpl in Hq.
    + inversion Hq; subst q. exists a. rewrite Nat.add_0_r. split; [exact Ea|].
      destruct (bindParameters_frame l parent ps (S idx) args h1) as (h'' & Hb' & _ & Hsame);
        [lia|].
      rewrite Hb in Hb'. inversion Hb'; subst h''.
      rewrite Hsame by now right.
      unfold store_lookup, h1. simpl. rewrite list_lookup_alter_eq.
      destruct (lookup_lt_is_Some_2 (stores h) l Hl) as [st ->]. simpl.
      apply lookup_insert_eq.
    + destruct (Hbound i q Hq) as (b & Eb & Hb''). exists b.
      split; [|exact Hb'']. now replace (idx + S i)%nat with (S idx + i)%nat by lia.
Qed.

(** The frame of a call binds the parameters to the arguments by position;
    every other name is looked up in the environment the function captured;
    and no environment that existed before the call sees any change. *)
Theorem call_frame_binds_parameters params fnEnv args h
    (Hargs : (length params <= length args)%nat)
    (Hnodup : NoDup params)
    (HfnEnv : allocated h fnEnv) :
  exists callEnv h',
    extendFunctionEnv params fnEnv args h = (Ret callEnv, h')
    /\ (forall i p, params !! i = Some p ->
          exists a, args !! i = Some a /\ Get h' callEnv p = Some a)
    /\ (forall name, name ∉ params -> Get h' callEnv name = Get h fnEnv name)
    /\ (forall e name, allocated h e -> Get h' e name = Get h e name).
Proof.
  unfold extendFunctionEnv, NewEnclosedEnvironment, bind.
  set (l := length (stores h)).
  set (h1 := mkHeap (stores h ++ [∅]) (nextPtr h)).
  destruct (bindParameters_binds l (Some fnEnv) params 0 args h1 Hnodup)
    as (h' & Hb & Hbound);
    [simpl; lia | unfold h1, l; simpl; rewrite length_app; simpl; lia |].
  destruct (bindParameters_frame l (Some fnEnv) params 0 args h1)
    as (h'' & Hb' & _ & Hsame); [simpl; lia|].
  rewrite Hb in Hb'. inversion Hb'; subst h''. clear Hb'.
  rewrite Hb. exists (Env l (Some fnEnv)), h'. split; [reflexivity|].
  assert (Hold : forall e name, allocated h e -> Get h' e name = Get h e name).
  { intros e name He. apply Get_allocated; [exact He|].
    intros l' Hl'. rewrite Hsame by (left; unfold l; lia).
    now apply store_lookup_push. }
  split; [|split; [|exact Hold]].
  - intros i p Hp. destruct (Hbound i p Hp) as (a & Ea & Hl). exists a.
    split; [exact Ea|]. simpl. now rewrite Hl.
  - intros name Hname. simpl. rewrite Hsame by now right.
    assert (store_lookup h1 l name = None) as ->.
    { unfold store_lookup, h1, l. simpl.
      rewrite list_lookup_middle by reflexivity. apply lookup_empty. }
    now apply Hold.
Qed.

Lemma call_frame_binds_parameters_witness :
  exists callEnv h',
    extendFunctionEnv ["a"; "b"] env0 [Some (Integer 1); Some (Integer 2)] heap0
    = (Ret callEnv, h')
    /\ (forall i p, ["a"; "b"] !! i = Some p ->
          exists a, [Some (Integer 1); Some (Integer 2)] !! i = Some a
                    /\ Get h' callEnv p = Some a)
    /\ (forall name, name ∉ ["a"; "b"] -> Get h' callEnv name = Get heap0 env0 name)
    /\ (forall e name, allocated heap0 e -> Get h' e name = Get heap0 e name).
Proof.
  apply (call_frame_binds_parameters ["a"; "b"] env0
           [Some (Integer 1); Some (Integer 2)] heap0).
  - simpl. lia.
  - apply NoDup_ListNoDup. repeat constructor; simpl; intuition discriminate.
  - simpl. split; [lia | exact I].
Defined.

End environment_facts.
(** ** Inspect *)

Module inspect_facts.
Import golang ast object evaluator samples evaluator_facts hash_and_call_facts
  inspect_loops.

Lemma append_nil_r (a : string) : a +:+ "" = a.
Proof. induction a as [|x a IH]; [reflexivity|]. now rewrite append_cons, IH. Qed.

Lemma concat_nil_cons (a : string) (l : list string) :
  String.concat "" (a :: l) = a +:+ String.concat "" l.
Proof. destruct l; [simpl; now rewrite append_nil_r | reflexivity]. Qed.

(** Joining with a separator writes the first string and then every other
    one after the separator. *)
Lemma concat_cons sep s rest :
  String.concat sep (s :: rest)
  = s +:+ String.concat "" (map (fun t => sep +:+ t) rest).
Proof.
  revert s. induction rest as [|t rest IH]; intros s.
  - simpl. now rewrite append_nil_r.
  - change (String.concat sep (s :: t :: rest))
      with (s +:+ sep +:+ String.concat sep (t :: rest)).
    rewrite IH. simpl map. now rewrite concat_nil_cons, !append_assoc.
Qed.

Section Inspect.
Variable format_float : float64 -> string.
Variable Identifier_String : string -> string.
Variable BlockStatement_String : list Statement -> string.

Lemma Inspect_Array ptr elems :
  Inspect format_float Identifier_String BlockStatement_String (Array ptr elems)
  = Array_Inspect_from format_float Identifier_String BlockStatement_String 0 elems "[".
Proof. reflexivity. Qed.

Lemma Array_Inspect_from_S elems rendered :
  Forall2 (fun e s =>
             iface_call (Inspect format_float Identifier_String BlockStatement_String) e
             = Ret s) elems rendered ->
  forall i out,
    Array_Inspect_from format_float Identifier_String BlockStatement_String (S i) elems out
    = Ret (out +:+ String.concat "" (map (fun t => ", " +:+ t) rendered) +:+ "]").
Proof.
  induction 1 as [|e s elems rendered He _ IH]; intros i out.
  - reflexivity.
  - simpl Array_Inspect_from. rewrite He, IH. f_equal. simpl map.
    now rewrite concat_nil_cons, !append_assoc.
Qed.

(** [Array.Inspect] prints the elements between brackets, joined by [", "];
    a nil element -- the value of an empty block -- makes it panic. *)
Theorem Array_Inspect_joins ptr elems rendered
    (Hrendered : Forall2 (fun e s =>
                   iface_call
                     (Inspect format_float Identifier_String BlockStatement_String) e
                   = Ret s) elems rendered) :
  Inspect format_float Identifier_String BlockStatement_String (Array ptr elems)
  = Ret ("[" +:+ String.concat ", " rendered +:+ "]")
  /\ forall post,
       Inspect format_float Identifier_String BlockStatement_String
         (Array ptr (elems ++ None :: post))
       = Panic nil_dereference.
Proof.
  split.
  - rewrite Inspect_Array. destruct Hrendered as [|e s elems rendered He Hrest].
    + reflexivity.
    + simpl Array_Inspect_from. rewrite He.
      rewrite (Array_Inspect_from_S _ _ Hrest). f_equal.
      now rewrite concat_cons, !append_assoc.
  - intros post. rewrite Inspect_Array.
    generalize 0%nat as i. generalize "[" as out.
    induction Hrendered as [|e s elems rendered He _ IH]; intros out i.
    + simpl. now destruct (0 <? i)%nat.
    + simpl. rewrite He. apply IH.
Qed.

(** [Function.Inspect] with its loop over the parameters prints what the
    version of the file that joins them with [strings.Join] prints. *)
Theorem Function_Inspect_versions_agree ptr params body env :
  Inspect format_float Identifier_String BlockStatement_String (Function ptr params body env)
  = Ret (Function_Inspect_Join Identifier_String BlockStatement_String params body).
Proof.
  simpl. unfold Function_Inspect_Join. f_equal.
  assert (Hloop : forall ps i out,
             join_params Identifier_String (S i) ps out
             = out +:+ String.concat "" (map (fun t => ", " +:+ t)
                                           (map Identifier_String ps))).
  { induction ps as [|p ps IH]; intros i out.
    - simpl. now rewrite append_nil_r.
    - simpl join_params. rewrite IH. simpl map.
      now rewrite concat_nil_cons, !append_assoc. }
  destruct params as [|p ps].
  - reflexivity.
  - simpl join_params. rewrite Hloop. simpl map. rewrite concat_cons.
    now rewrite !append_assoc.
Qed.

End Inspect.

Lemma Array_Inspect_joins_witness :
  Inspect format_float_stub Identifier_String_stub BlockStatement_String_stub
    (Array 0 [Some (Integer 1); Some (Integer 2); Some (Integer 3)])
  = Ret ("[" +:+ String.concat ", " ["1"; "2"; "3"] +:+ "]")
  /\ forall post,
       Inspect format_float_stub Identifier_String_stub BlockStatement_String_stub
         (Array 0 ([Some (Integer 1); Some (Integer 2); Some (Integer 3)] ++ None :: post))
       = Panic nil_dereference.
Proof.
  apply (Array_Inspect_joins format_float_stub Identifier_String_stub
           BlockStatement_String_stub 0
           [Some (Integer 1); Some (Integer 2); Some (Integer 3)] ["1"; "2"; "3"]).
  repeat constructor.
Defined.

End inspect_facts.
(** ** The lexer: positions, loops and tokens *)

Module lexer_state_facts.
Import golang lexer lexer_invariants.

Lemma byte_at_Some s i b : byte_at s i = Some b -> (i < String.length s)%nat.
Proof.
  unfold byte_at. revert i. induction s as [|c s IH]; intros [|i]; simpl;
    try discriminate; try lia.
  intros H. apply IH in H. lia.
Qed.

Lemma byte_at_None s i : byte_at s i = None -> (String.length s <= i)%nat.
Proof.
  unfold byte_at. revert i. induction s as [|c s IH]; intros [|i]; simpl;
    try discriminate; try lia.
  intros H. apply IH in H. lia.
Qed.

(** A decoded rune is at least one byte wide and lies inside the string. *)
Lemma DecodeRuneInString_size s i r size :
  (i < String.length s)%nat ->
  DecodeRuneInString s i = (r, size) ->
  (1 <= size)%nat /\ (i + size <= String.length s)%nat.
Proof.
  intros Hi. unfold DecodeRuneInString.
  destruct (byte_at s i) as [b0|] eqn:E0;
    [|apply byte_at_None in E0; lia].
  repeat match goal with
         | |- (if ?b then _ else _) = _ -> _ => destruct b
         | |- (let lo := _ in _) = _ -> _ => cbv zeta
         | |- match byte_at s ?j with _ => _ end = _ -> _ =>
             let E := fresh "E" in
             destruct (byte_at s j) eqn:E; [apply byte_at_Some in E|]
         end;
    intros [= <- <-]; lia.
Qed.

Lemma coherent_initState input : coherent (initState input).
Proof. unfold coherent. simpl. repeat split; lia. Qed.

Lemma coherent_peek s r e s' :
  coherent s -> peek s = ((r, e), s') ->
  coherent s' /\ lookahead r s'
  /\ input s' = input s /\ tokPos s' = tokPos s /\ readPos s' = readPos s
  /\ runePos s' = runePos s.
Proof.
  intros (Hpos & Hpeek). unfold peek.
  destruct (peeked s) eqn:Ep.
  - intros [= <- <- <-]. unfold coherent, lookahead. rewrite Ep. intuition congruence.
  - destruct Hpeek as [Hsize Hlen].
    destruct (Nat.leb_spec (String.length (input s)) (readPos s)) as [Hend|Hin].
    + intros [= <- <- <-]. unfold coherent, lookahead. rewrite Ep. intuition congruence.
    + destruct (DecodeRuneInString (input s) (readPos s)) as [r0 size] eqn:Ed.
      destruct (Z.eqb_spec r0 RuneError) as [Hr0|_]; intros [= <- <- <-];
        unfold coherent, lookahead; simpl; rewrite Ed. all: intuition congruence.
Qed.

Lemma coherent_readRune s r e s' :
  coherent s -> readRune s = ((r, e), s') ->
  coherent s' /\ lookahead r s'
  /\ input s' = input s /\ tokPos s' = tokPos s
  /\ (readPos s <= readPos s')%nat.
Proof.
  intros Hs. unfold readRune.
  destruct (peek s) as [[p [err|]] s1] eqn:E1.
  - intros [= <- <- <-].
    destruct (coherent_peek _ _ _ _ Hs E1) as (H1 & Hl & Hi & Ht & Hr & _).
    split; [exact H1|]. split; [exact Hl|]. split; [exact Hi|].
    split; [exact Ht | lia].
  - destruct (coherent_peek _ _ _ _ Hs E1) as (((Ht1 & Hr1) & Hp1) & _ & Hi & Ht & Hr & Hu).
    intros E2.
    set (s2 := mkState (input s1) (tokPos s1) (peekRune s1) (peekSize s1)
                 (readPos s1) false 0 0 (readPos s1 + peekSize s1)) in E2.
    assert (H2 : coherent s2).
    { unfold coherent, s2. simpl. split; [lia|]. split; [reflexivity|].
      destruct (peeked s1).
      - destruct Hp1 as [Hlt Hd]. symmetry in Hd.
        apply DecodeRuneInString_size in Hd; [lia | exact Hlt].
      - destruct Hp1 as [-> ?]. lia. }
    destruct (coherent_peek _ _ _ _ H2 E2) as (H3 & Hl3 & Hi3 & Ht3 & Hr3 & _).
    split; [exact H3|]. split; [exact Hl3|].
    split; [now rewrite Hi3|]. split; [now rewrite Ht3|].
    rewrite Hr3. unfold s2. simpl. lia.
Qed.

Lemma coherent_reset s : coherent s -> coherent (reset s).
Proof.
  intros (Hpos & Hpeek). unfold coherent, reset. simpl. split; [lia | exact Hpeek].
Qed.

Section Unicode.
Variable IsDigit IsLetter IsSpace : rune -> bool.




Lemma lexString_unfold s : lexString s = lexString_from (loop_fuel s) s.
Proof. reflexivity. Qed.










(** Reading a rune that has been looked at moves the read position on. *)
Lemma readRune_advances s r e s' :
  coherent s -> peeked s = true -> readRune s = ((r, e), s') ->
  (readPos s < readPos s')%nat.
Proof.
  intros (Hpos & Hpeek) Ep. rewrite Ep in Hpeek. destruct Hpeek as [Hlt Hd].
  symmetry in Hd. apply DecodeRuneInString_size in Hd; [|exact Hlt].
  unfold readRune, peek at 1. rewrite Ep.
  set (s2 := mkState _ _ _ _ _ _ _ _ _). intros E2.
  assert (readPos s' = readPos s2) as ->; [|unfold s2; simpl; lia].
  revert E2. unfold peek. simpl.
  destruct (_ <=? _)%nat; [now intros [= _ _ <-]|].
  destruct (DecodeRuneInString _ _) as [r0 size].
  destruct (Z.eqb r0 RuneError); now intros [= _ _ <-].
Qed.

(** Reading a rune moves the read position on, unless the input has ended
    or cannot be decoded. *)
Lemma readRune_progress s r s' :
  coherent s -> readRune s = ((r, None), s') -> r <> 0 ->
  (readPos s < readPos s')%nat.
Proof.
  intros Hs E Hr. unfold readRune in E.
  destruct (peek s) as [[p [err|]] s1] eqn:E1; [discriminate|].
  destruct (coherent_peek _ _ _ _ Hs E1) as (H1 & Hl1 & Hi1 & Ht1 & Hr1 & _).
  destruct (peeked s1) eqn:Ep1.
  - rewrite <- Hr1. apply (readRune_advances s1 r None s' H1 Ep1).
    unfold readRune, peek at 1. now rewrite Ep1.
  - exfalso. unfold lookahead in Hl1. rewrite Ep1 in Hl1. destruct Hl1 as [_ Hend].
    destruct H1 as [_ Hpeek1]. rewrite Ep1 in Hpeek1. destruct Hpeek1 as [Hsize _].
    revert E. rewrite Hsize. unfold peek. simpl.
    destruct (Nat.leb_spec (String.length (input s1)) (readPos s1 + 0)); [|lia].
    intros [= <- _]. congruence.
Qed.

Lemma lookahead_peeked next s : lookahead next s -> next <> 0 -> peeked s = true.
Proof. unfold lookahead. destruct (peeked s); [reflexivity | intros [-> _]; congruence]. Qed.

Lemma readWhile_enough cond (Hzero : cond 0 = false) fuel : forall fuel' next err s,
  coherent s -> lookahead next s ->
  (remaining s < fuel)%nat -> (remaining s < fuel')%nat ->
  readWhile cond fuel next err s = readWhile cond fuel' next err s.
Proof.
  induction fuel as [|fuel IH]; intros fuel' next err s Hs Hnext Hfuel Hfuel'; [lia|].
  destruct fuel' as [|fuel']; [lia|]. simpl.
  destruct err; [reflexivity|].
  destruct (cond next) eqn:Ec; [|reflexivity].
  assert (Hp : peeked s = true).
  { apply (lookahead_peeked next); [exact Hnext | congruence]. }
  destruct (readRune s) as [[next' err'] s1] eqn:E1.
  pose proof (readRune_advances _ _ _ _ Hs Hp E1) as Hadv.
  destruct (coherent_readRune _ _ _ _ Hs E1) as (H1 & Hl1 & Hi1 & _).
  assert (Hlt : (readPos s < String.length (input s))%nat).
  { destruct Hs as [_ Hpeek]. rewrite Hp in Hpeek. apply Hpeek. }
  destruct err' as [e'|].
  - now destruct fuel, fuel'.
  - apply IH; try assumption; unfold remaining in *; rewrite Hi1; lia.
Qed.

Lemma lexString_from_enough fuel : forall fuel' s,
  coherent s ->
  (remaining s < fuel)%nat -> (remaining s < fuel')%nat ->
  lexString_from fuel s = lexString_from fuel' s.
Proof.
  induction fuel as [|fuel IH]; intros fuel' s Hs Hfuel Hfuel'; [lia|].
  destruct fuel' as [|fuel']; [lia|]. simpl.
  destruct (readRune s) as [[next [err|]] s1] eqn:E1; [reflexivity|].
  destruct (Z.eqb_spec next 0) as [|Hnz]; [reflexivity|].
  destruct (Z.eqb next 34); [reflexivity|].
  destruct (coherent_readRune _ _ _ _ Hs E1) as (H1 & Hl1 & Hi1 & _ & Hle).
  pose proof (readRune_progress _ _ _ Hs E1 Hnz) as Hadv.
  pose proof (lookahead_peeked _ _ Hl1 Hnz) as Hp1.
  destruct H1 as (Hpos1 & Hpeek1). pose proof Hpeek1 as Hlt. rewrite Hp1 in Hlt.
  destruct Hlt as [Hlt _].
  apply IH; [split; assumption | |]; unfold remaining in *; rewrite Hi1 in *; lia.
Qed.

(** The loops of the lexer end by themselves: every turn but the last
    consumes at least one byte of the input, so the bound on the turns that
    the model gives them -- one more than the length of the input -- is
    never reached, and a larger bound changes nothing. *)
Theorem lexer_loops_terminate cond next s extra
    (Hzero : cond 0 = false)
    (Hs : coherent s)
    (Hnext : lookahead next s) :
  readWhile cond (loop_fuel s + extra) next None s
  = readWhile cond (loop_fuel s) next None s
  /\ lexString_from (loop_fuel s + extra) s = lexString s.
Proof.
  split.
  - apply readWhile_enough; try assumption; unfold remaining, loop_fuel; lia.
  - rewrite lexString_unfold.
    apply lexString_from_enough; try assumption; unfold remaining, loop_fuel; lia.
Qed.

End Unicode.

Lemma lexer_loops_terminate_witness :
  readWhile ascii_IsDigit (loop_fuel (snd (peek (initState "12"))) + 5) 49 None
    (snd (peek (initState "12")))
  = readWhile ascii_IsDigit (loop_fuel (snd (peek (initState "12")))) 49 None
      (snd (peek (initState "12")))
  /\ lexString_from (loop_fuel (snd (peek (initState "12"))) + 5)
       (snd (peek (initState "12")))
     = lexString (snd (peek (initState "12"))).
Proof.
  apply (lexer_loops_terminate ascii_IsDigit 49 (snd (peek (initState "12"))) 5).
  - reflexivity.
  - unfold coherent. simpl. repeat split; lia.
  - reflexivity.
Defined.

End lexer_state_facts.
(** ** The lexer: tokens of ASCII text *)

Module lexer_token_facts.
Import golang lexer lexer_invariants hash_and_call_facts lexer_state_facts.

Lemma append_empty_r (a : string) : a +:+ "" = a.
Proof. induction a as [|x a IH]; [reflexivity|]. now rewrite append_cons, IH. Qed.

Lemma byte_at_app pre rest i :
  byte_at (pre +:+ rest) (String.length pre + i) = byte_at rest i.
Proof.
  unfold byte_at. induction pre as [|x pre IH]; [reflexivity|].
  rewrite append_cons. exact IH.
Qed.

Lemma substring_app pre run rest :
  String.substring (String.length pre) (String.length run) (pre +:+ run +:+ rest) = run.
Proof.
  induction pre as [|x pre IH]; [|rewrite append_cons; exact IH].
  change ("" +:+ run +:+ rest) with (run +:+ rest). simpl String.length.
  induction run as [|y run IH].
  - now destruct rest.
  - rewrite append_cons. simpl. now rewrite IH.
Qed.

Lemma rune_of_range c : 0 <= rune_of c < 256.
Proof.
  unfold rune_of. pose proof (Ascii.nat_ascii_bounded c). lia.
Qed.

Lemma DecodeRuneInString_ascii s i c :
  (Ascii.nat_of_ascii c < 128)%nat ->
  byte_at s i = Some (rune_of c) ->
  DecodeRuneInString s i = (rune_of c, 1%nat).
Proof.
  intros Hc Hb. unfold DecodeRuneInString. rewrite Hb.
  destruct (Z.ltb_spec (rune_of c) 128); [reflexivity|]. unfold rune_of in *. lia.
Qed.

Lemma first_rune_not_RuneError rest : ascii_next rest -> first_rune rest <> RuneError.
Proof.
  destruct rest as [|c rest]; simpl; [discriminate|]. intros Hc.
  unfold rune_of, RuneError. lia.
Qed.

Lemma DecodeRuneInString_at pre c rest :
  (Ascii.nat_of_ascii c < 128)%nat ->
  DecodeRuneInString (pre +:+ String.String c rest) (String.length pre)
  = (rune_of c, 1%nat).
Proof.
  intros Hc. apply DecodeRuneInString_ascii; [exact Hc|].
  rewrite <- (Nat.add_0_r (String.length pre)), byte_at_app. reflexivity.
Qed.

(** Looking at the next rune, at a position before ASCII text. *)
Lemma peek_at s pre rest :
  at_position s pre rest -> ascii_next rest ->
  exists s1, peek s = ((first_rune rest, None), s1)
    /\ at_position s1 pre rest
    /\ tokPos s1 = tokPos s /\ runePos s1 = runePos s
    /\ (peeked s1 = true <-> rest <> "")
    /\ (peeked s1 = true -> peekRune s1 = first_rune rest /\ peekSize s1 = 1%nat).
Proof.
  intros (Hs & Hi & Hr) Hrest.
  destruct (peek s) as [[r e] s1] eqn:E.
  destruct (coherent_peek _ _ _ _ Hs E) as (H1 & Hl1 & Hi1 & Ht1 & Hr1 & Hu1).
  assert (Hat : at_position s1 pre rest).
  { split; [exact H1|]. split; congruence. }
  assert (Hp : peeked s1 = true <-> rest <> "").
  { destruct H1 as [_ Hpeek]. rewrite Hi1, Hr1, Hi, Hr, length_append in Hpeek.
    destruct rest as [|c rest].
    - split; [|congruence]. intros Ep. rewrite Ep in Hpeek. simpl in Hpeek. lia.
    - split; [discriminate|]. intros _.
      revert E. unfold peek. destruct (peeked s) eqn:Ep0; [now intros [= _ _ <-]|].
      rewrite Hi, Hr, length_append. simpl String.length.
      destruct (Nat.leb_spec (String.length pre + S (String.length rest))
                  (String.length pre)); [lia|].
      destruct (DecodeRuneInString _ _) as [r0 size].
      destruct (Z.eqb r0 RuneError); now intros [= _ _ <-]. }
  assert (Hcache : peeked s1 = true ->
                   peekRune s1 = first_rune rest /\ peekSize s1 = 1%nat).
  { intros Ep. destruct H1 as [_ Hpeek]. rewrite Ep in Hpeek.
    destruct Hpeek as [_ Hd]. rewrite Hi1, Hr1, Hi, Hr in Hd.
    destruct rest as [|c rest]; [now apply Hp in Ep|].
    rewrite (DecodeRuneInString_at pre c rest Hrest) in Hd. now inversion Hd. }
  assert (Hrune : r = first_rune rest).
  { unfold lookahead in Hl1. destruct (peeked s1) eqn:Ep.
    - rewrite Hl1. now apply Hcache.
    - destruct rest as [|c rest]; [apply Hl1|].
      exfalso. assert (Hft : false = true) by (apply Hp; discriminate).
      discriminate Hft. }
  assert (He : e = None).
  { revert E. unfold peek. destruct (peeked s); [now intros [= _ <- _]|].
    destruct (_ <=? _)%nat; [now intros [= _ <- _]|].
    destruct (DecodeRuneInString _ _) as [r0 size] eqn:Ed.
    destruct (Z.eqb_spec r0 RuneError) as [->|_]; [|now intros [= _ <- _]].
    intros [= <- _ _]. now destruct (first_rune_not_RuneError rest Hrest). }
  subst r e. exists s1. repeat split; try assumption; try apply Hat; try apply Hp;
    try (apply Hcache; assumption).
Qed.

(** Reading one ASCII character, at a position before ASCII text. *)
Lemma readRune_at s pre c rest :
  at_position s pre (String.String c rest) ->
  (Ascii.nat_of_ascii c < 128)%nat -> ascii_next rest ->
  exists s2, readRune s = ((first_rune rest, None), s2)
    /\ at_position s2 (pre +:+ String.String c "") rest
    /\ tokPos s2 = tokPos s /\ runePos s2 = String.length pre
    /\ (peeked s2 = true <-> rest <> "").
Proof.
  intros Hat Hc Hrest.
  destruct (peek_at s pre (String.String c rest) Hat Hc)
    as (s1 & E1 & (H1 & Hi1 & Hr1) & Ht1 & Hu1 & Hp1 & Hcache1).
  destruct (Hcache1 (proj2 Hp1 ltac:(discriminate))) as [Hrune1 Hsize1].
  unfold readRune. rewrite E1.
  set (s2 := mkState _ _ _ _ _ _ _ _ _).
  assert (Hat2 : at_position s2 (pre +:+ String.String c "") rest).
  { unfold s2. split; [|split]; simpl.
    - unfold coherent. simpl. destruct H1 as [Hpos _].
      rewrite Hi1, Hr1, Hsize1, length_append. simpl. repeat split; lia.
    - rewrite Hi1, append_assoc. reflexivity.
    - rewrite Hr1, Hsize1, length_append. reflexivity. }
  destruct (peek_at s2 _ rest Hat2 Hrest) as (s3 & E3 & Hat3 & Ht3 & Hu3 & Hp3 & _).
  exists s3. split; [exact E3|]. split; [exact Hat3|].
  split; [rewrite Ht3; unfold s2; simpl; congruence|].
  split; [rewrite Hu3; unfold s2; simpl; congruence | exact Hp3].
Qed.

Lemma ends_run_ascii_next cond rest : ends_run cond rest -> ascii_next rest.
Proof. destruct rest; simpl; [auto | intros [? _]; assumption]. Qed.

Lemma run_of_ascii_next cond run rest :
  run_of cond run -> ascii_next rest -> ascii_next (run +:+ rest).
Proof.
  destruct run; [intros _ H; exact H | intros [? _] _; rewrite append_cons; assumption].
Qed.

Lemma ends_run_first cond rest : ends_run cond rest -> cond (first_rune rest) = false.
Proof. destruct rest; simpl; [auto | intros [_ ?]; assumption]. Qed.

(** The loop [for err == nil && cond(next)] over a run of ASCII characters
    that satisfy [cond]: it reads the run and stops before what follows. *)
Lemma readWhile_run cond run : forall s pre rest fuel,
  run_of cond run -> ends_run cond rest ->
  at_position s pre (run +:+ rest) ->
  (String.length run < fuel)%nat ->
  exists s', readWhile cond fuel (first_rune (run +:+ rest)) None s
             = ((first_rune rest, None), s')
    /\ at_position s' (pre +:+ run) rest
    /\ tokPos s' = tokPos s
    /\ (run = "" -> s' = s).
Proof.
  induction run as [|c run IH]; intros s pre rest fuel Hrun Hend Hat Hfuel.
  - change ("" +:+ rest) with rest in *. rewrite append_empty_r.
    destruct fuel as [|fuel]; [simpl in Hfuel; lia|]. simpl.
    rewrite (ends_run_first _ _ Hend). exists s. auto.
  - destruct Hrun as (Hc & Hcond & Hrun).
    destruct fuel as [|fuel]; [simpl in Hfuel; lia|].
    rewrite append_cons in *. simpl readWhile. simpl first_rune. rewrite Hcond.
    destruct (readRune_at s pre c (run +:+ rest) Hat Hc)
      as (s2 & E2 & Hat2 & Ht2 & _).
    { apply (run_of_ascii_next cond); [exact Hrun|].
      now apply (ends_run_ascii_next cond). }
    rewrite E2.
    destruct (IH s2 (pre +:+ String.String c "") rest fuel Hrun Hend Hat2)
      as (s' & E' & Hat' & Ht' & _); [simpl in Hfuel; lia|].
    exists s'. split; [exact E'|]. rewrite append_assoc in Hat'.
    split; [exact Hat'|]. split; [congruence | discriminate].
Qed.

Lemma DecodeRuneInString_invalid pre c rest :
  invalid_start c ->
  DecodeRuneInString (pre +:+ String.String c rest) (String.length pre)
  = (RuneError, 1%nat).
Proof.
  intros Hc. unfold DecodeRuneInString.
  rewrite <- (Nat.add_0_r (String.length pre)) at 1. rewrite byte_at_app.
  change (byte_at (String.String c rest) 0) with (Some (rune_of c)). cbv beta iota.
  assert (Hb : 128 <= rune_of c < 194 \/ 245 <= rune_of c).
  { unfold invalid_start in Hc. unfold rune_of. lia. }
  destruct (Z.ltb_spec (rune_of c) 128); [lia|].
  destruct (byte_at _ (String.length pre + 1)) as [b1|]; [|reflexivity].
  destruct (Z.leb_spec 194 (rune_of c)), (Z.leb_spec (rune_of c) 223);
    simpl andb; cbv iota; try lia.
  - cbv zeta. destruct (negb _); [reflexivity|].
    destruct (byte_at _ (String.length pre + 2)) as [b2|]; [|reflexivity].
    destruct (negb (is_cont b2)); [reflexivity|].
    destruct (Z.leb_spec 224 (rune_of c)), (Z.leb_spec (rune_of c) 239);
      simpl andb; cbv iota; try lia.
    destruct (Z.leb_spec 240 (rune_of c)), (Z.leb_spec (rune_of c) 244);
      simpl andb; cbv iota; try lia; reflexivity.
  - cbv zeta. destruct (negb _); [reflexivity|].
    destruct (byte_at _ (String.length pre + 2)) as [b2|]; [|reflexivity].
    destruct (negb (is_cont b2)); [reflexivity|].
    destruct (Z.leb_spec 224 (rune_of c)), (Z.leb_spec (rune_of c) 239);
      simpl andb; cbv iota; try lia.
    destruct (Z.leb_spec 240 (rune_of c)), (Z.leb_spec (rune_of c) 244);
      simpl andb; cbv iota; try lia; reflexivity.
Qed.

(** Looking at a byte that starts no encoding, for the first time. *)
Lemma peek_at_invalid s pre c rest :
  at_position s pre (String.String c rest) -> peeked s = false ->
  invalid_start c ->
  exists s1, peek s = ((RuneError, Some (decode_error (String.length pre))), s1).
Proof.
  intros (Hs & Hi & Hr) Hp Hc. unfold peek. rewrite Hp, Hi, Hr, length_append.
  simpl String.length.
  destruct (Nat.leb_spec (String.length pre + S (String.length rest))
              (String.length pre)); [lia|].
  rewrite (DecodeRuneInString_invalid pre c rest Hc).
  change (Z.eqb RuneError RuneError) with true. cbv iota. eauto.
Qed.

(** Reading an ASCII character that such a byte follows. *)
Lemma readRune_at_invalid s pre c bad rest :
  at_position s pre (String.String c (String.String bad rest)) ->
  (Ascii.nat_of_ascii c < 128)%nat -> invalid_start bad ->
  exists s2,
    readRune s
    = ((RuneError, Some (decode_error (String.length (pre +:+ String.String c "")))), s2).
Proof.
  intros Hat Hc Hbad.
  destruct (peek_at s pre _ Hat Hc)
    as (s1 & E1 & (H1 & Hi1 & Hr1) & Ht1 & Hu1 & Hp1 & Hcache1).
  destruct (Hcache1 (proj2 Hp1 ltac:(discriminate))) as [Hrune1 Hsize1].
  unfold readRune. rewrite E1.
  set (s2 := mkState _ _ _ _ _ _ _ _ _).
  apply (peek_at_invalid s2 _ bad rest); [|reflexivity | exact Hbad].
  unfold s2. split; [|split]; simpl.
  - unfold coherent. simpl. destruct H1 as [Hpos _].
    rewrite Hi1, Hr1, Hsize1, length_append. simpl. repeat split; lia.
  - rewrite Hi1, append_assoc. reflexivity.
  - rewrite Hr1, Hsize1, length_append. reflexivity.
Qed.

Lemma readWhile_run_invalid cond c run : forall s pre bad rest fuel,
  run_of cond (String.String c run) -> invalid_start bad ->
  at_position s pre (String.String c run +:+ String.String bad rest) ->
  (String.length run < fuel)%nat ->
  exists s',
    readWhile cond (S fuel) (rune_of c) None s
    = ((RuneError,
        Some (decode_error (String.length (pre +:+ String.String c run)))), s').
Proof.
  revert c. induction run as [|d run IH];
    intros c s pre bad rest fuel (Hc & Hcond & Hrun) Hbad Hat Hfuel;
    rewrite append_cons in Hat; simpl readWhile; rewrite Hcond.
  - change ("" +:+ String.String bad rest) with (String.String bad rest) in Hat.
    destruct (readRune_at_invalid s pre c bad rest Hat Hc Hbad) as (s2 & E2).
    rewrite E2. destruct fuel; simpl; eauto.
  - destruct Hrun as (Hd & Hdcond & Hrun'). rewrite append_cons in Hat.
    destruct (readRune_at s pre c _ Hat Hc Hd) as (s2 & E2 & Hat2 & _).
    rewrite E2. simpl first_rune.
    destruct fuel as [|fuel]; [simpl in Hfuel; lia|].
    destruct (IH d s2 (pre +:+ String.String c "") bad rest fuel) as (s' & E');
      try assumption.
    + split; [exact Hd | split; assumption].
    + simpl in Hfuel. lia.
    + rewrite E'. rewrite append_assoc. eauto.
Qed.

Lemma run_of_agree (cond cond' : rune -> bool) run :
  (forall r, 0 <= r < 128 -> cond' r = cond r) ->
  run_of cond run -> run_of cond' run.
Proof.
  intros Hagree. induction run as [|c run IH]; [trivial|].
  intros (Hc & Hcond & Hrun). split; [exact Hc|]. split; [|now apply IH].
  rewrite Hagree; [exact Hcond|]. unfold rune_of. lia.
Qed.

Lemma ends_run_agree (cond cond' : rune -> bool) rest :
  (forall r, 0 <= r < 128 -> cond' r = cond r) ->
  ends_run cond rest -> ends_run cond' rest.
Proof.
  intros Hagree. destruct rest as [|c rest]; simpl.
  - intros H. rewrite Hagree; [exact H | lia].
  - intros [Hc Hcond]. split; [exact Hc|].
    rewrite Hagree; [exact Hcond|]. unfold rune_of. lia.
Qed.

Lemma curLit_at s pre lit rest :
  at_position s (pre +:+ lit) rest -> tokPos s = String.length pre ->
  curLit s = lit.
Proof.
  intros (_ & Hi & Hr) Ht. unfold curLit, slice.
  rewrite Hi, Hr, Ht, length_append, append_assoc.
  replace (String.length pre + String.length lit - String.length pre)%nat
    with (String.length lit) by lia.
  apply substring_app.
Qed.

Lemma ascii_IsDigit_spec r : ascii_IsDigit r = true <-> 48 <= r <= 57.
Proof. unfold ascii_IsDigit. rewrite andb_true_iff, !Z.leb_le. tauto. Qed.

Lemma ascii_IsSpace_spec r : ascii_IsSpace r = true <-> 9 <= r <= 13 \/ r = 32.
Proof.
  unfold ascii_IsSpace. rewrite orb_true_iff, andb_true_iff, !Z.leb_le, Z.eqb_eq. tauto.
Qed.

Lemma ascii_IsLetter_spec r :
  ascii_IsLetter r = true <-> 65 <= r <= 90 \/ 97 <= r <= 122.
Proof.
  unfold ascii_IsLetter. rewrite orb_true_iff, !andb_true_iff, !Z.leb_le. tauto.
Qed.

Lemma not_true_false (b : bool) : ~ b = true -> b = false.
Proof. now destruct b. Qed.

(** No digit and no letter is a key of the table [lexFuncs]. *)
Lemma lexFuncs_None r :
  48 <= r <= 57 \/ 65 <= r <= 90 \/ 97 <= r <= 122 \/ r = 95 \/ r = 46 ->
  lexFuncs r = None.
Proof.
  intros Hr. unfold lexFuncs.
  repeat match goal with
         | |- (if Z.eqb r ?k then _ else _) = _ => destruct (Z.eqb_spec r k); [lia|]
         end.
  reflexivity.
Qed.

Lemma string_char_spec r : string_char r = true <-> r <> 34 /\ r <> 0.
Proof.
  unfold string_char. rewrite andb_true_iff, !negb_true_iff, !Z.eqb_neq. tauto.
Qed.

(** The loop of [lexString], standing before a character [c] and the rest
    of a string literal: it reads up to and including the closing quote. *)
Lemma lexString_from_body body : forall c s P rest fuel,
  (Ascii.nat_of_ascii c < 128)%nat ->
  run_of string_char body -> ascii_next rest ->
  at_position s P (String.String c (body +:+ String.String quote rest)) ->
  (String.length body < fuel)%nat ->
  exists s',
    lexString_from fuel s
    = ((token.mkToken token.STRING (slice (input s') (tokPos s' + 1) (runePos s')),
        None), s')
    /\ at_position s' (P +:+ String.String c (body +:+ String.String quote "")) rest
    /\ tokPos s' = tokPos s
    /\ runePos s' = String.length (P +:+ String.String c body).
Proof.
  induction body as [|b body IH]; intros c s P rest fuel Hc Hbody Hrest Hat Hfuel;
    (destruct fuel as [|fuel]; [simpl in Hfuel; lia|]); simpl lexString_from.
  - change ("" +:+ String.String quote rest) with (String.String quote rest) in Hat.
    destruct (readRune_at s P c _ Hat Hc) as (s1 & E1 & Hat1 & Ht1 & _);
      [vm_compute; lia|].
    rewrite E1. simpl first_rune.
    change (Z.eqb (rune_of quote) 0) with false.
    change (Z.eqb (rune_of quote) 34) with true. cbv iota.
    destruct (readRune_at s1 _ quote rest Hat1) as (s2 & E2 & Hat2 & Ht2 & Hu2 & _);
      [vm_compute; lia | exact Hrest |].
    rewrite E2. exists s2. split; [reflexivity|].
    rewrite append_assoc in Hat2. split; [exact Hat2|]. split; congruence.
  - destruct Hbody as (Hb & Hb1 & Hbody). apply string_char_spec in Hb1.
    rewrite append_cons in Hat.
    destruct (readRune_at s P c _ Hat Hc) as (s1 & E1 & Hat1 & Ht1 & _); [exact Hb|].
    rewrite E1. simpl first_rune.
    rewrite (proj2 (Z.eqb_neq _ _) (proj2 Hb1)), (proj2 (Z.eqb_neq _ _) (proj1 Hb1)).
    destruct (IH b s1 _ rest fuel Hb Hbody Hrest Hat1) as (s' & E' & Hat' & Ht' & Hu');
      [simpl in Hfuel; lia|].
    exists s'. split; [exact E'|].
    rewrite !append_assoc in Hat'. rewrite !append_assoc in Hu'.
    split; [exact Hat'|]. split; [congruence | exact Hu'].
Qed.

(** The same loop when the input ends before a closing quote. *)
Lemma lexString_from_open body : forall c s P fuel,
  (Ascii.nat_of_ascii c < 128)%nat ->
  run_of string_char body ->
  at_position s P (String.String c body) ->
  (String.length body < fuel)%nat ->
  exists s',
    lexString_from fuel s
    = failed ("unterminated string at position "
              +:+ format_int (Z.of_nat (tokPos s)) +:+ ":"
              +:+ format_int (Z.of_nat (String.length (P +:+ String.String c body)))) s'
    /\ at_position s' (P +:+ String.String c body) "".
Proof.
  induction body as [|b body IH]; intros c s P fuel Hc Hbody Hat Hfuel;
    (destruct fuel as [|fuel]; [simpl in Hfuel; lia|]); simpl lexString_from.
  - destruct (readRune_at s P c _ Hat Hc) as (s1 & E1 & Hat1 & Ht1 & _); [exact I|].
    rewrite E1. simpl first_rune. change (Z.eqb 0 0) with true. cbv iota.
    exists s1. split; [|exact Hat1].
    destruct Hat1 as (_ & _ & ->). now rewrite Ht1.
  - destruct Hbody as (Hb & Hb1 & Hbody). apply string_char_spec in Hb1.
    destruct (readRune_at s P c _ Hat Hc) as (s1 & E1 & Hat1 & Ht1 & _); [exact Hb|].
    rewrite E1. simpl first_rune.
    rewrite (proj2 (Z.eqb_neq _ _) (proj2 Hb1)), (proj2 (Z.eqb_neq _ _) (proj1 Hb1)).
    destruct (IH b s1 _ fuel Hb Hbody Hat1) as (s' & E' & Hat'); [simpl in Hfuel; lia|].
    exists s'. rewrite !append_assoc in Hat'. rewrite !append_assoc in E'.
    split; [|exact Hat']. rewrite E', Ht1. reflexivity.
Qed.

Section Tokens.
Variable IsDigit IsLetter IsSpace : rune -> bool.
Hypothesis IsDigit_ascii : forall r, 0 <= r < 128 -> IsDigit r = ascii_IsDigit r.
Hypothesis IsLetter_ascii : forall r, 0 <= r < 128 -> IsLetter r = ascii_IsLetter r.
Hypothesis IsSpace_ascii : forall r, 0 <= r < 128 -> IsSpace r = ascii_IsSpace r.

(** Skipping white space, at a position before ASCII text: the state
    stands before what follows the white space, and a token starts there. *)
Lemma skipWhitespace_at s pre ws rest :
  at_position s pre (ws +:+ rest) ->
  run_of ascii_IsSpace ws -> ends_run ascii_IsSpace rest ->
  exists s1, skipWhitespace IsSpace s = ((first_rune rest, None), s1)
    /\ at_position s1 (pre +:+ ws) rest
    /\ tokPos s1 = String.length (pre +:+ ws).
Proof.
  intros Hat Hws Hrest.
  assert (Hnext : ascii_next (ws +:+ rest)).
  { apply (run_of_ascii_next ascii_IsSpace); [exact Hws|].
    now apply (ends_run_ascii_next ascii_IsSpace). }
  destruct (peek_at s pre _ Hat Hnext) as (s0 & E0 & Hat0 & Ht0 & _).
  unfold skipWhitespace, readWhitespace. rewrite E0.
  destruct (readWhile_run IsSpace ws s0 pre rest (loop_fuel s)) as (s1 & E1 & Hat1 & Ht1 & _).
  - now apply (run_of_agree ascii_IsSpace).
  - now apply (ends_run_agree ascii_IsSpace).
  - exact Hat0.
  - unfold loop_fuel. destruct Hat as (_ & -> & _). rewrite !length_append. lia.
  - rewrite E1. exists (reset s1). split; [reflexivity|].
    destruct Hat1 as (H1 & Hi1 & Hr1).
    split; [|simpl; exact Hr1].
    split; [now apply coherent_reset|]. split; [exact Hi1 | exact Hr1].
Qed.

(** A run of decimal digits, after any white space and before something
    that is no digit, no [.] and no exponent marker, is one [INT] token: its
    literal is the digits, and the lexer stands right after them. *)
Theorem lexNext_integer s pre ws digits rest
    (Hat : at_position s pre (ws +:+ digits +:+ rest))
    (Hws : run_of ascii_IsSpace ws)
    (Hdigits : run_of ascii_IsDigit digits)
    (Hsome : digits <> "")
    (Hrest : ends_run ascii_IsDigit rest)
    (Hplain : first_rune rest <> 46 /\ first_rune rest <> 101 /\ first_rune rest <> 69) :
  exists s',
    lexNext IsDigit IsLetter IsSpace s = ((token.mkToken token.INT digits, None), s')
    /\ at_position s' (pre +:+ ws +:+ digits) rest.
Proof.
  destruct digits as [|d ds]; [congruence|]. clear Hsome.
  pose proof Hdigits as (Hd & Hd1 & Hds). apply ascii_IsDigit_spec in Hd1.
  destruct (skipWhitespace_at s pre ws _ Hat Hws) as (s1 & E1 & Hat1 & Ht1).
  { rewrite append_cons. split; [exact Hd|]. apply not_true_false.
    rewrite ascii_IsSpace_spec. lia. }
  unfold lexNext. rewrite E1. rewrite append_cons. simpl first_rune.
  rewrite lexFuncs_None by lia.
  assert (Hnext : ascii_next (String.String d ds +:+ rest)) by (rewrite append_cons; exact Hd).
  destruct (peek_at s1 _ _ Hat1 Hnext) as (s2 & E2 & Hat2 & Ht2 & _).
  unfold lexDefault. rewrite E2. rewrite append_cons. simpl first_rune.
  assert (Hrange : 0 <= rune_of d < 128) by lia.
  assert (isLetter IsLetter (rune_of d) = false) as ->.
  { unfold isLetter. rewrite (IsLetter_ascii _ Hrange).
    apply orb_false_iff. split.
    - apply not_true_false. rewrite ascii_IsLetter_spec. lia.
    - apply Z.eqb_neq. lia. }
  assert (isDecimal IsDigit (rune_of d) = true) as ->.
  { unfold isDecimal. rewrite (IsDigit_ascii _ Hrange). apply ascii_IsDigit_spec. lia. }
  rewrite orb_true_r.
  unfold lexNumber, readDecimals.
  destruct (peek_at s2 _ _ Hat2 Hnext) as (s3 & E3 & Hat3 & Ht3 & _).
  rewrite E3.
  destruct (readWhile_run (isDecimal IsDigit) (String.String d ds) s3 (pre +:+ ws) rest
              (loop_fuel s2)) as (s4 & E4 & Hat4 & Ht4 & _).
  - now apply (run_of_agree ascii_IsDigit).
  - now apply (ends_run_agree ascii_IsDigit).
  - exact Hat3.
  - unfold loop_fuel. destruct Hat2 as (_ & -> & _). rewrite !length_append. lia.
  - rewrite E4. unfold lexNumber_fraction, lexNumber_exponent.
    destruct Hplain as (Hdot & He & HE).
    rewrite (proj2 (Z.eqb_neq _ _) Hdot), (proj2 (Z.eqb_neq _ _) He),
      (proj2 (Z.eqb_neq _ _) HE). simpl orb. cbv iota.
    exists s4. split.
    + do 3 f_equal. apply (curLit_at s4 (pre +:+ ws) _ rest Hat4). congruence.
    + now rewrite <- append_assoc.
Qed.

Lemma isLetter_ascii r :
  0 <= r < 128 -> isLetter IsLetter r = isLetter ascii_IsLetter r.
Proof. intros Hr. unfold isLetter. now rewrite IsLetter_ascii. Qed.

Lemma isLetter_spec r :
  isLetter ascii_IsLetter r = true <-> 65 <= r <= 90 \/ 97 <= r <= 122 \/ r = 95.
Proof.
  unfold isLetter. rewrite orb_true_iff, ascii_IsLetter_spec, Z.eqb_eq. tauto.
Qed.

(** A run of letters and underscores, after any white space and before
    something that is neither -- a digit, for one -- is one token: its
    literal is the run, its type what [LookupIdent] says of it. *)
Theorem lexNext_identifier s pre ws name rest
    (Hat : at_position s pre (ws +:+ name +:+ rest))
    (Hws : run_of ascii_IsSpace ws)
    (Hname : run_of (isLetter ascii_IsLetter) name)
    (Hsome : name <> "")
    (Hrest : ends_run (isLetter ascii_IsLetter) rest) :
  exists s',
    lexNext IsDigit IsLetter IsSpace s
    = ((token.mkToken (token.LookupIdent name) name, None), s')
    /\ at_position s' (pre +:+ ws +:+ name) rest.
Proof.
  destruct name as [|c cs]; [congruence|]. clear Hsome.
  pose proof Hname as (Hc & Hc1 & Hcs). apply isLetter_spec in Hc1.
  destruct (skipWhitespace_at s pre ws _ Hat Hws) as (s1 & E1 & Hat1 & Ht1).
  { rewrite append_cons. split; [exact Hc|]. apply not_true_false.
    rewrite ascii_IsSpace_spec. lia. }
  unfold lexNext. rewrite E1. rewrite append_cons. simpl first_rune.
  rewrite lexFuncs_None by lia.
  assert (Hnext : ascii_next (String.String c cs +:+ rest)) by (rewrite append_cons; exact Hc).
  destruct (peek_at s1 _ _ Hat1 Hnext) as (s2 & E2 & Hat2 & Ht2 & _).
  unfold lexDefault. rewrite E2. rewrite append_cons. simpl first_rune.
  assert (Hrange : 0 <= rune_of c < 128) by (unfold rune_of; lia).
  assert (isLetter IsLetter (rune_of c) = true) as ->.
  { rewrite (isLetter_ascii _ Hrange). now apply isLetter_spec. }
  unfold lexIdentifier.
  destruct (peek_at s2 _ _ Hat2 Hnext) as (s3 & E3 & Hat3 & Ht3 & _).
  rewrite E3.
  destruct (readWhile_run (isLetter IsLetter) (String.String c cs) s3 (pre +:+ ws) rest
              (loop_fuel s2)) as (s4 & E4 & Hat4 & Ht4 & _).
  - apply (run_of_agree (isLetter ascii_IsLetter)); [apply isLetter_ascii | exact Hname].
  - apply (ends_run_agree (isLetter ascii_IsLetter)); [apply isLetter_ascii | exact Hrest].
  - exact Hat3.
  - unfold loop_fuel. destruct Hat2 as (_ & -> & _). rewrite !length_append. lia.
  - rewrite E4. exists s4.
    rewrite (curLit_at s4 (pre +:+ ws) _ rest Hat4) by congruence.
    split; [reflexivity | now rewrite <- append_assoc].
Qed.

(** A string literal -- a quote, characters other than the quote and NUL,
    a quote -- after any white space is one [STRING] token whose literal is
    the characters between the quotes, a backslash being a character like
    any other. *)
Theorem lexNext_string s pre ws body rest
    (Hat : at_position s pre
             (ws +:+ String.String quote (body +:+ String.String quote rest)))
    (Hws : run_of ascii_IsSpace ws)
    (Hbody : run_of string_char body)
    (Hrest : ascii_next rest) :
  exists s',
    lexNext IsDigit IsLetter IsSpace s = ((token.mkToken token.STRING body, None), s')
    /\ at_position s'
         (pre +:+ ws +:+ String.String quote (body +:+ String.String quote "")) rest.
Proof.
  destruct (skipWhitespace_at s pre ws _ Hat Hws) as (s1 & E1 & Hat1 & Ht1).
  { split; [vm_compute; lia | reflexivity]. }
  unfold lexNext. rewrite E1. simpl first_rune.
  change (lexFuncs (rune_of quote)) with (Some lexString). cbv iota beta.
  rewrite lexString_unfold.
  destruct (lexString_from_body body quote s1 (pre +:+ ws) rest (loop_fuel s1))
    as (s2 & E2 & Hat2 & Ht2 & Hu2); try assumption.
  - vm_compute; lia.
  - unfold loop_fuel. destruct Hat1 as (_ & -> & _).
    rewrite !length_append. simpl. rewrite length_append. lia.
  - rewrite E2. exists s2. split; [|now rewrite <- append_assoc].
    do 3 f_equal. unfold slice. destruct Hat2 as (_ & Hi2 & _).
    assert (Hin : input s2 = ((pre +:+ ws) +:+ String.String quote "")
                             +:+ body +:+ String.String quote rest).
    { rewrite Hi2, !append_assoc, !append_cons, !append_assoc. reflexivity. }
    rewrite Hin, Hu2, Ht2, Ht1.
    replace (String.length ((pre +:+ ws) +:+ String.String quote body)
             - (String.length (pre +:+ ws) + 1))%nat
      with (String.length body)
      by (rewrite !length_append; simpl; lia).
    replace (String.length (pre +:+ ws) + 1)%nat
      with (String.length ((pre +:+ ws) +:+ String.String quote ""))
      by (rewrite !length_append; simpl; lia).
    apply substring_app.
Qed.

(** A string literal that the input ends in, with no closing quote, is an
    error that names the position of the opening quote and the end of the
    input. *)
Theorem lexNext_string_unterminated s pre ws body
    (Hat : at_position s pre (ws +:+ String.String quote body))
    (Hws : run_of ascii_IsSpace ws)
    (Hbody : run_of string_char body) :
  exists s',
    lexNext IsDigit IsLetter IsSpace s
    = ((token.zero,
        Some ("unterminated string at position "
              +:+ format_int (Z.of_nat (String.length (pre +:+ ws))) +:+ ":"
              +:+ format_int (Z.of_nat (String.length (input s))))), s').
Proof.
  destruct (skipWhitespace_at s pre ws _ Hat Hws) as (s1 & E1 & Hat1 & Ht1).
  { split; [vm_compute; lia | reflexivity]. }
  unfold lexNext. rewrite E1. simpl first_rune.
  change (lexFuncs (rune_of quote)) with (Some lexString). cbv iota beta.
  rewrite lexString_unfold.
  destruct (lexString_from_open body quote s1 (pre +:+ ws) (loop_fuel s1))
    as (s2 & E2 & Hat2); try assumption.
  - vm_compute; lia.
  - unfold loop_fuel. destruct Hat1 as (_ & -> & _).
    rewrite !length_append. simpl. lia.
  - rewrite E2. exists s2. unfold failed. rewrite Ht1.
    destruct Hat as (_ & -> & _). now rewrite append_assoc.
Qed.

Lemma readDecimals_run s pre digits rest :
  at_position s pre (digits +:+ rest) ->
  run_of ascii_IsDigit digits -> ends_run ascii_IsDigit rest ->
  exists s', readDecimals IsDigit s = ((first_rune rest, None), s')
    /\ at_position s' (pre +:+ digits) rest
    /\ tokPos s' = tokPos s.
Proof.
  intros Hat Hdigits Hrest.
  assert (Hnext : ascii_next (digits +:+ rest)).
  { apply (run_of_ascii_next ascii_IsDigit); [exact Hdigits|].
    now apply (ends_run_ascii_next ascii_IsDigit). }
  destruct (peek_at s pre _ Hat Hnext) as (s0 & E0 & Hat0 & Ht0 & _).
  unfold readDecimals. rewrite E0.
  destruct (readWhile_run (isDecimal IsDigit) digits s0 pre rest (loop_fuel s))
    as (s1 & E1 & Hat1 & Ht1 & _).
  - now apply (run_of_agree ascii_IsDigit).
  - now apply (ends_run_agree ascii_IsDigit).
  - exact Hat0.
  - unfold loop_fuel. destruct Hat as (_ & -> & _). rewrite !length_append. lia.
  - exists s1. split; [exact E1|]. split; [exact Hat1 | congruence].
Qed.

(** Digits, a decimal point and at least one digit, after any white space
    and before something that is no digit and no exponent marker, are one
    [FLOAT] token; there need be no digit before the point. *)
Theorem lexNext_float s pre ws whole frac rest
    (Hat : at_position s pre (ws +:+ whole +:+ String.String dot (frac +:+ rest)))
    (Hws : run_of ascii_IsSpace ws)
    (Hwhole : run_of ascii_IsDigit whole)
    (Hfrac : run_of ascii_IsDigit frac)
    (Hsome : frac <> "")
    (Hrest : ends_run ascii_IsDigit rest)
    (Hplain : first_rune rest <> 101 /\ first_rune rest <> 69) :
  exists s',
    lexNext IsDigit IsLetter IsSpace s
    = ((token.mkToken token.FLOAT (whole +:+ String.String dot frac), None), s')
    /\ at_position s' (pre +:+ ws +:+ whole +:+ String.String dot frac) rest.
Proof.
  set (text := whole +:+ String.String dot (frac +:+ rest)) in *.
  assert (Hfirst : ascii_next text /\ 0 <= first_rune text < 128
                   /\ (48 <= first_rune text <= 57 \/ first_rune text = 46)).
  { unfold text. destruct whole as [|d ds].
    - change ("" +:+ String.String dot (frac +:+ rest))
        with (String.String dot (frac +:+ rest)).
      simpl. unfold rune_of. vm_compute Ascii.nat_of_ascii. lia.
    - destruct Hwhole as (Hd & Hd1 & _). apply ascii_IsDigit_spec in Hd1.
      rewrite append_cons. simpl. unfold rune_of in *. lia. }
  destruct Hfirst as (Hnext & Hrange & Hkind).
  assert (Hdot : ends_run ascii_IsDigit (String.String dot (frac +:+ rest))).
  { split; [vm_compute; lia | reflexivity]. }
  destruct (skipWhitespace_at s pre ws text Hat Hws) as (s1 & E1 & Hat1 & Ht1).
  { unfold text. destruct whole as [|d ds].
    - split; [vm_compute; lia | reflexivity].
    - destruct Hwhole as (Hd & Hd1 & _). apply ascii_IsDigit_spec in Hd1.
      rewrite append_cons. split; [exact Hd|]. apply not_true_false.
      rewrite ascii_IsSpace_spec. lia. }
  unfold lexNext. rewrite E1. rewrite lexFuncs_None by lia.
  destruct (peek_at s1 _ _ Hat1 Hnext) as (s2 & E2 & Hat2 & Ht2 & _).
  unfold lexDefault. rewrite E2.
  assert (isLetter IsLetter (first_rune text) = false) as ->.
  { unfold isLetter. rewrite (IsLetter_ascii _ Hrange).
    apply orb_false_iff. split.
    - apply not_true_false. rewrite ascii_IsLetter_spec. lia.
    - apply Z.eqb_neq. lia. }
  assert (Z.eqb (first_rune text) 46 || isDecimal IsDigit (first_rune text) = true) as ->.
  { unfold isDecimal. rewrite (IsDigit_ascii _ Hrange).
    apply orb_true_iff. destruct Hkind as [Hk|Hk].
    - right. apply ascii_IsDigit_spec. lia.
    - left. apply Z.eqb_eq. exact Hk. }
  unfold lexNumber.
  destruct (readDecimals_run s2 (pre +:+ ws) whole _ Hat2 Hwhole Hdot)
    as (s3 & E3 & Hat3 & Ht3).
  rewrite E3. simpl first_rune. unfold lexNumber_fraction.
  change (Z.eqb (rune_of dot) 46) with true. cbv iota.
  destruct frac as [|f fs]; [congruence|].
  pose proof Hfrac as (Hf & Hf1 & _).
  destruct (readRune_at s3 _ dot _ Hat3) as (s4 & E4 & Hat4 & Ht4 & _).
  { vm_compute; lia. }
  { rewrite append_cons. exact Hf. }
  rewrite E4. rewrite append_cons. simpl first_rune.
  assert (isDecimal IsDigit (rune_of f) = true) as ->.
  { unfold isDecimal. rewrite IsDigit_ascii; [exact Hf1 | unfold rune_of; lia]. }
  simpl negb. cbv iota.
  destruct (readDecimals_run s4 _ (String.String f fs) rest Hat4 Hfrac Hrest)
    as (s5 & E5 & Hat5 & Ht5).
  rewrite E5. unfold lexNumber_exponent.
  destruct Hplain as (He & HE).
  rewrite (proj2 (Z.eqb_neq _ _) He), (proj2 (Z.eqb_neq _ _) HE). simpl orb. cbv iota.
  assert (Hat5' : at_position s5
                    ((pre +:+ ws) +:+ whole +:+ String.String dot (String.String f fs))
                    rest).
  { revert Hat5. rewrite !append_assoc, !append_cons.
    change ("" +:+ String.String f fs) with (String.String f fs). auto. }
  exists s5. split.
  - do 3 f_equal. apply (curLit_at s5 (pre +:+ ws) _ rest Hat5'). congruence.
  - revert Hat5'. now rewrite !append_assoc.
Qed.

(** A decimal point that no digit follows does not end a number: the lexer
    reports an error and gives no token. *)
Theorem lexNext_float_needs_digit s pre ws whole rest
    (Hat : at_position s pre (ws +:+ whole +:+ String.String dot rest))
    (Hws : run_of ascii_IsSpace ws)
    (Hwhole : run_of ascii_IsDigit whole)
    (Hrest : ends_run ascii_IsDigit rest) :
  exists msg s',
    lexNext IsDigit IsLetter IsSpace s = ((token.zero, Some msg), s').
Proof.
  set (text := whole +:+ String.String dot rest) in *.
  assert (Hfirst : ascii_next text /\ 0 <= first_rune text < 128
                   /\ (48 <= first_rune text <= 57 \/ first_rune text = 46)).
  { unfold text. destruct whole as [|d ds].
    - change ("" +:+ String.String dot rest) with (String.String dot rest).
      simpl. unfold rune_of. vm_compute Ascii.nat_of_ascii. lia.
    - destruct Hwhole as (Hd & Hd1 & _). apply ascii_IsDigit_spec in Hd1.
      rewrite append_cons. simpl. unfold rune_of in *. lia. }
  destruct Hfirst as (Hnext & Hrange & Hkind).
  assert (Hdot : ends_run ascii_IsDigit (String.String dot rest)).
  { split; [vm_compute; lia | reflexivity]. }
  destruct (skipWhitespace_at s pre ws text Hat Hws) as (s1 & E1 & Hat1 & Ht1).
  { unfold text. destruct whole as [|d ds].
    - split; [vm_compute; lia | reflexivity].
    - destruct Hwhole as (Hd & Hd1 & _). apply ascii_IsDigit_spec in Hd1.
      rewrite append_cons. split; [exact Hd|]. apply not_true_false.
      rewrite ascii_IsSpace_spec. lia. }
  unfold lexNext. rewrite E1. rewrite lexFuncs_None by lia.
  destruct (peek_at s1 _ _ Hat1 Hnext) as (s2 & E2 & Hat2 & Ht2 & _).
  unfold lexDefault. rewrite E2.
  assert (isLetter IsLetter (first_rune text) = false) as ->.
  { unfold isLetter. rewrite (IsLetter_ascii _ Hrange).
    apply orb_false_iff. split.
    - apply not_true_false. rewrite ascii_IsLetter_spec. lia.
    - apply Z.eqb_neq. lia. }
  assert (Z.eqb (first_rune text) 46 || isDecimal IsDigit (first_rune text) = true) as ->.
  { unfold isDecimal. rewrite (IsDigit_ascii _ Hrange).
    apply orb_true_iff. destruct Hkind as [Hk|Hk].
    - right. apply ascii_IsDigit_spec. lia.
    - left. apply Z.eqb_eq. exact Hk. }
  unfold lexNumber.
  destruct (readDecimals_run s2 (pre +:+ ws) whole _ Hat2 Hwhole Hdot)
    as (s3 & E3 & Hat3 & Ht3).
  rewrite E3. simpl first_rune. unfold lexNumber_fraction.
  change (Z.eqb (rune_of dot) 46) with true. cbv iota.
  destruct (readRune_at s3 _ dot _ Hat3) as (s4 & E4 & Hat4 & Ht4 & _).
  { vm_compute; lia. }
  { now apply (ends_run_ascii_next ascii_IsDigit). }
  rewrite E4.
  assert (isDecimal IsDigit (first_rune rest) = false) as ->.
  { unfold isDecimal. apply (ends_run_first IsDigit).
    now apply (ends_run_agree ascii_IsDigit). }
  simpl negb. cbv iota. unfold failed. eauto.
Qed.

(** A byte that starts no UTF-8 encoding, met for the first time after any
    white space, is an error that names its byte offset; there is no token. *)
Theorem lexNext_invalid_utf8 s pre ws bad rest
    (Hat : at_position s pre (ws +:+ String.String bad rest))
    (Hfresh : peeked s = false)
    (Hws : run_of ascii_IsSpace ws)
    (Hbad : invalid_start bad) :
  exists s',
    lexNext IsDigit IsLetter IsSpace s
    = ((token.zero, Some (decode_error (String.length (pre +:+ ws)))), s').
Proof.
  unfold lexNext, skipWhitespace, readWhitespace.
  destruct ws as [|w ws].
  - change ("" +:+ String.String bad rest) with (String.String bad rest) in Hat.
    destruct (peek_at_invalid s pre bad rest Hat Hfresh Hbad) as (s1 & E1).
    rewrite E1. unfold loop_fuel. simpl readWhile. rewrite append_empty_r. eauto.
  - pose proof Hws as (Hw & _).
    rewrite append_cons in Hat.
    destruct (peek_at s pre _ Hat Hw) as (s0 & E0 & Hat0 & _).
    rewrite E0. simpl first_rune. unfold loop_fuel.
    rewrite <- append_cons in Hat0.
    destruct (readWhile_run_invalid IsSpace w ws s0 pre bad rest
                (String.length (input s))) as (s1 & E1).
    + now apply (run_of_agree ascii_IsSpace).
    + exact Hbad.
    + exact Hat0.
    + destruct Hat as (_ & -> & _). rewrite !length_append.
      simpl. rewrite length_append. lia.
    + rewrite E1. eauto.
Qed.

(** Each of the fifteen punctuation characters and one-character operators
    is a token by itself, after any white space: the token of its row in the
    table, with the character as literal. *)
Theorem lexNext_punctuation s pre ws c typ rest
    (Hc : In (rune_of c, typ)
            [(43, token.PLUS); (45, token.MINUS); (47, token.SLASH); (42, token.STAR);
             (60, token.LT); (62, token.GT); (59, token.SEMICOLON); (44, token.COMMA);
             (40, token.LPAREN); (41, token.RPAREN); (123, token.LBRACE);
             (125, token.RBRACE); (91, token.LBRACKET); (93, token.RBRACKET);
             (58, token.COLON)])
    (Hat : at_position s pre (ws +:+ String.String c rest))
    (Hws : run_of ascii_IsSpace ws)
    (Hrest : ascii_next rest) :
  exists s',
    lexNext IsDigit IsLetter IsSpace s
    = ((token.mkToken typ (String.String c ""), None), s')
    /\ at_position s' (pre +:+ ws +:+ String.String c "") rest.
Proof.
  assert (Hrow : (Ascii.nat_of_ascii c < 128)%nat
                 /\ ascii_IsSpace (rune_of c) = false
                 /\ lexFuncs (rune_of c) = Some (nextTok typ)).
  { simpl in Hc.
    repeat (destruct Hc as [Hc|Hc];
            [injection Hc as Hk Ht; subst typ; rewrite <- Hk;
             split; [unfold rune_of in Hk; lia | split; reflexivity]|]).
    contradiction. }
  destruct Hrow as (Hascii & Hspace & Hrow).
  destruct (skipWhitespace_at s pre ws _ Hat Hws) as (s1 & E1 & Hat1 & Ht1).
  { split; assumption. }
  unfold lexNext. rewrite E1. simpl first_rune. rewrite Hrow.
  unfold nextTok, eat, litTok.
  destruct (readRune_at s1 _ c rest Hat1 Hascii Hrest) as (s2 & E2 & Hat2 & Ht2 & _).
  rewrite E2. exists s2.
  rewrite (curLit_at s2 (pre +:+ ws) _ rest Hat2) by congruence.
  split; [reflexivity | now rewrite <- append_assoc].
Qed.

(** [=] and [!], after any white space: followed by [=] they make the
    two-character tokens [==] and [!=]; followed by anything else, or by the
    end of the input, they are the tokens [=] and [!]. *)
Theorem lexNext_assign_bang s pre ws c one two rest
    (Hc : (rune_of c, one, two) = (61, token.ASSIGN, token.EQ)
          \/ (rune_of c, one, two) = (33, token.BANG, token.NEQ))
    (Hat : at_position s pre (ws +:+ String.String c rest))
    (Hws : run_of ascii_IsSpace ws)
    (Hrest : ascii_next rest) :
  (first_rune rest <> 61 ->
     exists s',
       lexNext IsDigit IsLetter IsSpace s
       = ((token.mkToken one (String.String c ""), None), s')
       /\ at_position s' (pre +:+ ws +:+ String.String c "") rest)
  /\ (forall e rest', rest = String.String e rest' -> rune_of e = 61 ->
        ascii_next rest' ->
        exists s',
          lexNext IsDigit IsLetter IsSpace s
          = ((token.mkToken two (String.String c (String.String e "")), None), s')
          /\ at_position s' (pre +:+ ws +:+ String.String c (String.String e "")) rest').
Proof.
  assert (Hrow : (Ascii.nat_of_ascii c < 128)%nat
                 /\ ascii_IsSpace (rune_of c) = false
                 /\ lexFuncs (rune_of c)
                    = Some (twoChar (nextTok two) (litTok one))).
  { destruct Hc as [Hc|Hc]; injection Hc as Hk H1 H2; subst one two; rewrite Hk;
      (split; [unfold rune_of in Hk; lia | split; reflexivity]). }
  destruct Hrow as (Hascii & Hspace & Hrow).
  destruct (skipWhitespace_at s pre ws _ Hat Hws) as (s1 & E1 & Hat1 & Ht1).
  { split; assumption. }
  destruct (readRune_at s1 _ c rest Hat1 Hascii Hrest) as (s2 & E2 & Hat2 & Ht2 & _).
  split.
  - intros Hne. unfold lexNext. rewrite E1. simpl first_rune. rewrite Hrow.
    unfold twoChar. rewrite E2. rewrite (proj2 (Z.eqb_neq _ _) Hne).
    unfold litTok. exists s2.
    rewrite (curLit_at s2 (pre +:+ ws) _ rest Hat2) by congruence.
    split; [reflexivity | now rewrite <- append_assoc].
  - intros e rest' -> He Hrest'.
    unfold lexNext. rewrite E1. simpl first_rune. rewrite Hrow.
    unfold twoChar. rewrite E2. simpl first_rune. rewrite He.
    change (Z.eqb 61 61) with true. cbv iota.
    unfold nextTok, eat, litTok.
    destruct (readRune_at s2 _ e rest' Hat2 Hrest Hrest') as (s3 & E3 & Hat3 & Ht3 & _).
    rewrite E3. exists s3.
    rewrite append_assoc in Hat3.
    change (String.String c "" +:+ String.String e "")
      with (String.String c (String.String e "")) in Hat3.
    rewrite (curLit_at s3 (pre +:+ ws) _ rest' Hat3) by congruence.
    split; [reflexivity | now rewrite <- append_assoc].
Qed.

(** When only white space is left, the token is [EOF], with an empty
    literal; the lexer then stays as it is, whatever the number of calls of
    [Next], each of which answers true. *)
Theorem Next_at_end l pre ws
    (Herr : err l = None)
    (Hcur : token.Type_ (cur l) <> token.EOF)
    (Hat : at_position (st l) pre ws)
    (Hws : run_of ascii_IsSpace ws) :
  exists l1,
    Next IsDigit IsLetter IsSpace l = (l1, true)
    /\ cur l1 = token.mkToken token.EOF ""
    /\ at_position (st l1) (pre +:+ ws) ""
    /\ forall n, Nat.iter n (fun l => fst (Next IsDigit IsLetter IsSpace l)) l1 = l1.
Proof.
  rewrite <- (append_empty_r ws) in Hat.
  destruct (skipWhitespace_at (st l) pre ws "" Hat Hws) as (s1 & E1 & Hat1 & Ht1);
    [reflexivity|].
  assert (Hlex : lexNext IsDigit IsLetter IsSpace (st l)
                 = ((token.mkToken token.EOF "", None), s1)).
  { unfold lexNext. now rewrite E1. }
  exists (mkLexer (token.mkToken token.EOF "") None s1).
  split; [|split; [reflexivity | split; [exact Hat1|]]].
  - unfold Next. rewrite Herr, Hlex.
    destruct (token.Type_ (cur l)); try reflexivity. congruence.
  - induction n as [|n IH]; [reflexivity|]. simpl. now rewrite IH.
Qed.

End Tokens.

Lemma lexNext_float_witness :
  exists s',
    lexNext ascii_IsDigit ascii_IsLetter ascii_IsSpace (initState ".5;")
    = ((token.mkToken token.FLOAT ("" +:+ String.String dot "5"), None), s')
    /\ at_position s' ("" +:+ "" +:+ "" +:+ String.String dot "5") ";".
Proof.
  apply (lexNext_float ascii_IsDigit ascii_IsLetter ascii_IsSpace
           ltac:(reflexivity) ltac:(reflexivity) ltac:(reflexivity)
           (initState ".5;") "" "" "" "5" ";").
  - split; [apply coherent_initState | split; reflexivity].
  - exact I.
  - exact I.
  - split; [vm_compute; lia|]. split; [reflexivity | exact I].
  - discriminate.
  - split; [vm_compute; lia | reflexivity].
  - split; discriminate.
Defined.

Lemma lexNext_float_needs_digit_witness :
  exists msg s',
    lexNext ascii_IsDigit ascii_IsLetter ascii_IsSpace (initState "1.;")
    = ((token.zero, Some msg), s').
Proof.
  apply (lexNext_float_needs_digit ascii_IsDigit ascii_IsLetter ascii_IsSpace
           ltac:(reflexivity) ltac:(reflexivity) ltac:(reflexivity)
           (initState "1.;") "" "" "1" ";").
  - split; [apply coherent_initState | split; reflexivity].
  - exact I.
  - split; [vm_compute; lia|]. split; [reflexivity | exact I].
  - split; [vm_compute; lia | reflexivity].
Defined.

Lemma lexNext_invalid_utf8_witness :
  exists s',
    lexNext ascii_IsDigit ascii_IsLetter ascii_IsSpace
      (initState (" " +:+ String.String (Ascii.ascii_of_nat 255) "1"))
    = ((token.zero, Some (decode_error (String.length ("" +:+ " ")))), s').
Proof.
  apply (lexNext_invalid_utf8 ascii_IsDigit ascii_IsLetter ascii_IsSpace
           ltac:(reflexivity)
           (initState (" " +:+ String.String (Ascii.ascii_of_nat 255) "1"))
           "" " " (Ascii.ascii_of_nat 255) "1").
  - split; [apply coherent_initState | split; reflexivity].
  - reflexivity.
  - split; [vm_compute; lia|]. split; [reflexivity | exact I].
  - right. vm_compute. lia.
Defined.

Lemma lexNext_punctuation_witness :
  exists s',
    lexNext ascii_IsDigit ascii_IsLetter ascii_IsSpace (initState " (x")
    = ((token.mkToken token.LPAREN "(", None), s')
    /\ at_position s' ("" +:+ " " +:+ "(") "x".
Proof.
  apply (lexNext_punctuation ascii_IsDigit ascii_IsLetter ascii_IsSpace
           ltac:(reflexivity) (initState " (x") "" " " (Ascii.ascii_of_nat 40) token.LPAREN "x").
  - do 8 right. left. reflexivity.
  - split; [apply coherent_initState | split; reflexivity].
  - split; [vm_compute; lia|]. split; [reflexivity | exact I].
  - vm_compute; lia.
Defined.

Lemma lexNext_assign_bang_witness :
  (first_rune "=1" <> 61 ->
     exists s',
       lexNext ascii_IsDigit ascii_IsLetter ascii_IsSpace (initState "!=1")
       = ((token.mkToken token.BANG "!", None), s')
       /\ at_position s' ("" +:+ "" +:+ "!") "=1")
  /\ (forall e rest', "=1" = String.String e rest' -> rune_of e = 61 ->
        ascii_next rest' ->
        exists s',
          lexNext ascii_IsDigit ascii_IsLetter ascii_IsSpace (initState "!=1")
          = ((token.mkToken token.NEQ
                (String.String (Ascii.ascii_of_nat 33) (String.String e "")), None), s')
          /\ at_position s'
               ("" +:+ "" +:+ String.String (Ascii.ascii_of_nat 33) (String.String e ""))
               rest').
Proof.
  apply (lexNext_assign_bang ascii_IsDigit ascii_IsLetter ascii_IsSpace
           ltac:(reflexivity) (initState "!=1") "" "" (Ascii.ascii_of_nat 33)
           token.BANG token.NEQ "=1").
  - right. reflexivity.
  - split; [apply coherent_initState | split; reflexivity].
  - exact I.
  - vm_compute; lia.
Defined.

Lemma Next_at_end_witness :
  exists l1,
    Next ascii_IsDigit ascii_IsLetter ascii_IsSpace (New " ") = (l1, true)
    /\ cur l1 = token.mkToken token.EOF ""
    /\ at_position (st l1) ("" +:+ " ") ""
    /\ forall n,
         Nat.iter n (fun l => fst (Next ascii_IsDigit ascii_IsLetter ascii_IsSpace l)) l1
         = l1.
Proof.
  apply (Next_at_end ascii_IsDigit ascii_IsLetter ascii_IsSpace ltac:(reflexivity)
           (New " ") "" " ").
  - reflexivity.
  - discriminate.
  - split; [apply coherent_initState | split; reflexivity].
  - split; [vm_compute; lia|]. split; [reflexivity | exact I].
Defined.

Lemma lexNext_string_witness :
  exists s',
    lexNext ascii_IsDigit ascii_IsLetter ascii_IsSpace
      (initState (String.String quote ("a\" +:+ String.String quote ";")))
    = ((token.mkToken token.STRING "a\", None), s')
    /\ at_position s'
         ("" +:+ "" +:+ String.String quote ("a\" +:+ String.String quote "")) ";".
Proof.
  apply (lexNext_string ascii_IsDigit ascii_IsLetter ascii_IsSpace ltac:(reflexivity)
           (initState (String.String quote ("a\" +:+ String.String quote ";")))
           "" "" "a\" ";").
  - split; [apply coherent_initState | split; reflexivity].
  - exact I.
  - split; [vm_compute; lia|]. split; [reflexivity|].
    split; [vm_compute; lia|]. split; [reflexivity | exact I].
  - vm_compute; lia.
Defined.

Lemma lexNext_string_unterminated_witness :
  exists s',
    lexNext ascii_IsDigit ascii_IsLetter ascii_IsSpace
      (initState (" " +:+ String.String quote "ab"))
    = ((token.zero,
        Some ("unterminated string at position "
              +:+ format_int (Z.of_nat (String.length ("" +:+ " "))) +:+ ":"
              +:+ format_int
                    (Z.of_nat (String.length
                                 (input (initState (" " +:+ String.String quote "ab"))))))),
       s').
Proof.
  apply (lexNext_string_unterminated ascii_IsDigit ascii_IsLetter ascii_IsSpace
           ltac:(reflexivity) (initState (" " +:+ String.String quote "ab")) "" " " "ab").
  - split; [apply coherent_initState | split; reflexivity].
  - split; [vm_compute; lia|]. split; [reflexivity | exact I].
  - split; [vm_compute; lia|]. split; [reflexivity|].
    split; [vm_compute; lia|]. split; [reflexivity | exact I].
Defined.

Lemma lexNext_identifier_witness :
  exists s',
    lexNext ascii_IsDigit ascii_IsLetter ascii_IsSpace (initState "x1")
    = ((token.mkToken (token.LookupIdent "x") "x", None), s')
    /\ at_position s' ("" +:+ "" +:+ "x") "1".
Proof.
  apply (lexNext_identifier ascii_IsDigit ascii_IsLetter ascii_IsSpace
           ltac:(reflexivity) ltac:(reflexivity)
           (initState "x1") "" "" "x" "1").
  - split; [apply coherent_initState | split; reflexivity].
  - exact I.
  - split; [vm_compute; lia|]. split; [reflexivity | exact I].
  - discriminate.
  - split; [vm_compute; lia | reflexivity].
Defined.

Lemma lexNext_integer_witness :
  exists s',
    lexNext ascii_IsDigit ascii_IsLetter ascii_IsSpace (initState " 12;")
    = ((token.mkToken token.INT "12", None), s')
    /\ at_position s' ("" +:+ " " +:+ "12") ";".
Proof.
  apply (lexNext_integer ascii_IsDigit ascii_IsLetter ascii_IsSpace
           ltac:(reflexivity) ltac:(reflexivity) ltac:(reflexivity)
           (initState " 12;") "" " " "12" ";").
  - split; [apply coherent_initState | split; reflexivity].
  - split; [vm_compute; lia|]. split; [reflexivity | exact I].
  - split; [vm_compute; lia|]. split; [reflexivity|].
    split; [vm_compute; lia|]. split; [reflexivity | exact I].
  - discriminate.
  - split; [vm_compute; lia | reflexivity].
  - repeat split; discriminate.
Defined.

End lexer_token_facts.
